(** * Loose quadtree over boxes (SP-GiST) and the four-way GiST page split

    A shallow embedding of

    - [contrib/loose_quadtree/_loose_quadtree.c]: quadrant classification,
      traversal-value propagation, region predicates, the choose, picksplit
      and consistent support functions;
    - [src/backend/access/gist/gistsplit.c]: the multi-column page split
      into the four groups NW / NE / SW / SE.

    Conventions.  The coordinates of a [BOX] are C [double]s, modelled
    as rational numbers ([Q]): the boxes of finite coordinates.  The
    bounds of a traversal value are [double]s too, but the code itself
    sets them to plus or minus infinity at the root, so a bound is a
    rational or one of the two infinities ([bound]).  The comparison
    macros of the region tests take the difference of two bounds as it
    is.  Where the code computes with coordinates ([getQuadrant], the
    choose function) the arithmetic is that of doubles: each operation
    rounds its result once to binary64 (to nearest, ties to even; no
    extended precision, no fused operations), and the result may be
    infinite or NaN; [getQuadrant] is defined for boxes of any doubles
    ([raw_BOX]).  A C [int] is a [Z];
    where the C code converts or narrows, the conversion is written out.
    Reads from C arrays go through [nth_error], so that an index past the
    end shows as [None]. *)

From Stdlib Require Import ZArith QArith Qabs Qpower List Bool Lia Lqa Permutation.
Import ListNotations.

Open Scope Z_scope.

(* ================================================================== *)
(** * Part I: [_loose_quadtree.c] *)
(* ================================================================== *)

Module LooseQuadtree.

(** ** Geometric types *)

(** [Point] and [BOX] of [utils/geo_decls.h]. *)
Record Point := mkPoint { x : Q; y : Q }.
Record BOX := mkBOX { high : Point; low : Point }.

(** A [double] that may be infinite. *)
Inductive bound := NegInf | Fin (q : Q) | PosInf.

Record Range := mkRange { rlow : bound; rhigh : bound }.
Record RangeBox := mkRangeBox { left : Range; right : Range }.
Record RectBox := mkRectBox { range_box_x : RangeBox; range_box_y : RangeBox }.

(** ** Comparison of doubles *)

Definition Qge_bool (a b : Q) : bool := Qle_bool b a.
Definition Qlt_bool (a b : Q) : bool := negb (Qle_bool b a).
Definition Qgt_bool (a b : Q) : bool := negb (Qle_bool a b).

(** [a <= b] on bounds. *)
Definition bound_le (a b : bound) : Prop :=
  match a, b with
  | NegInf, _ => True
  | _, PosInf => True
  | Fin p, Fin q => (p <= q)%Q
  | _, _ => False
  end.

(** [a - b] on bounds; [None] is the NaN of [inf - inf]. *)
Definition bound_sub (a b : bound) : option bound :=
  match a, b with
  | Fin p, Fin q => Some (Fin (p - q))
  | PosInf, PosInf => None
  | NegInf, NegInf => None
  | PosInf, _ => Some PosInf
  | NegInf, _ => Some NegInf
  | Fin _, PosInf => Some NegInf
  | Fin _, NegInf => Some PosInf
  end.

(** [d <= e] and [d > e] for a difference [d] and a finite [e]; every
    comparison with NaN is false. *)
Definition diff_le (d : option bound) (e : Q) : bool :=
  match d with
  | Some NegInf => true
  | Some (Fin q) => Qle_bool q e
  | Some PosInf => false
  | None => false
  end.

Definition diff_gt (d : option bound) (e : Q) : bool :=
  match d with
  | Some NegInf => false
  | Some (Fin q) => Qgt_bool q e
  | Some PosInf => true
  | None => false
  end.

(** ** Arithmetic of doubles

    A [double] is a finite number, an infinity, or NaN ([None]).  The
    result of an operation on finite numbers is the exact result rounded
    to the nearest binary64 number, ties to even, and infinite when the
    rounded number is beyond the largest finite one ([binary64]).  Zeros
    carry no sign: the sign of a zero shows only when something is
    divided by it, and the one zero divisor of this file comes from an
    [int], so it is [+0.0]. *)
Definition double := option bound.
Definition NaN : double := None.
Definition finite (q : Q) : double := Some (Fin q).

(** [floor(log2(n / d))] for a positive [n]. *)
Definition binade (n : Z) (d : positive) : Z :=
  let e := Z.log2 n - Z.log2 (Zpos d) in
  if (if 0 <=? e then Zpos d * 2 ^ e <=? n else Zpos d <=? n * 2 ^ (- e))
  then e else e - 1.

(** [num / den] rounded to the nearest integer, ties to even; [0 < den]. *)
Definition nearest_even (num den : Z) : Z :=
  let q := num / den in
  let r := num mod den in
  if 2 * r <? den then q
  else if den <? 2 * r then q + 1
  else if Z.even q then q else q + 1.

(** The binary64 number nearest to [n / d], [0 < n]: 53 bits from the
    leading one, no bit below [2 ^ -1074], infinite from [2 ^ 1024] on. *)
Definition binary64_pos (n : Z) (d : positive) : bound :=
  let s := Z.max (binade n d - 52) (-1074) in
  if 0 <=? s then
    let m := nearest_even n (Zpos d * 2 ^ s) in
    if 2 ^ 1024 <=? m * 2 ^ s then PosInf else Fin (inject_Z (m * 2 ^ s))
  else
    let m := nearest_even (n * 2 ^ (- s)) (Zpos d) in
    Fin (Qred (m # Z.to_pos (2 ^ (- s)))).

Definition bound_opp (b : bound) : bound :=
  match b with
  | NegInf => PosInf
  | Fin q => Fin (- q)
  | PosInf => NegInf
  end.

Definition binary64 (q : Q) : bound :=
  let r := Qred q in
  match Qnum r with
  | 0 => Fin 0
  | Zpos n => binary64_pos (Zpos n) (Qden r)
  | Zneg n => bound_opp (binary64_pos (Zpos n) (Qden r))
  end.

Definition dopp (a : double) : double :=
  match a with
  | Some b => Some (bound_opp b)
  | None => None
  end.

(** [a + b]. *)
Definition dadd (a b : double) : double :=
  match a, b with
  | Some (Fin p), Some (Fin q) => Some (binary64 (p + q))
  | Some PosInf, Some NegInf => None
  | Some NegInf, Some PosInf => None
  | Some PosInf, Some _ => Some PosInf
  | Some _, Some PosInf => Some PosInf
  | Some NegInf, Some _ => Some NegInf
  | Some _, Some NegInf => Some NegInf
  | _, _ => None
  end.

(** [a - b]. *)
Definition dsub (a b : double) : double := dadd a (dopp b).

(** [a / b]; a zero [b] is [+0.0]. *)
Definition ddiv (a b : double) : double :=
  match a, b with
  | Some (Fin p), Some (Fin q) =>
      if Qeq_bool q 0 then
        if Qeq_bool p 0 then None
        else if Qle_bool 0 p then Some PosInf else Some NegInf
      else Some (binary64 (p / q))
  | Some (Fin _), Some _ => Some (Fin 0)
  | Some PosInf, Some (Fin q) => if Qle_bool 0 q then Some PosInf else Some NegInf
  | Some NegInf, Some (Fin q) => if Qle_bool 0 q then Some NegInf else Some PosInf
  | _, _ => None
  end.

(** [a >= b] and [a == b]; false when an operand is NaN. *)
Definition dge (a b : double) : bool :=
  match a, b with
  | Some _, Some NegInf => true
  | Some PosInf, Some _ => true
  | Some (Fin p), Some (Fin q) => Qle_bool q p
  | _, _ => false
  end.

Definition deq (a b : double) : bool := dge a b && dge b a.

(** A [BOX] as the C struct holds it, each coordinate any [double]; the
    boxes of finite coordinates are among them. *)
Record raw_Point := mkRawPoint { raw_x : double; raw_y : double }.
Record raw_BOX := mkRawBOX { raw_high : raw_Point; raw_low : raw_Point }.

Definition raw (b : BOX) : raw_BOX :=
  {| raw_high := {| raw_x := finite (x (high b)); raw_y := finite (y (high b)) |};
     raw_low := {| raw_x := finite (x (low b)); raw_y := finite (y (low b)) |} |}.

Coercion raw : BOX >-> raw_BOX.

(** ** Calculate the quadrant

<<
          |
      0   |   1
          |
     -----+-----
          |
      2   |   3
          |
>> *)

(** [lo + (hi - lo) / 2.0]. *)
Definition midpoint (lo hi : double) : double :=
  dadd lo (ddiv (dsub hi lo) (finite 2)).

Definition getQuadrant (centroid inBox : raw_BOX) : Z :=
  let centroidX := midpoint (raw_x (raw_low centroid)) (raw_x (raw_high centroid)) in
  let centroidY := midpoint (raw_y (raw_low centroid)) (raw_y (raw_high centroid)) in
  let newCentroidX := midpoint (raw_x (raw_low inBox)) (raw_x (raw_high inBox)) in
  let newCentroidY := midpoint (raw_y (raw_low inBox)) (raw_y (raw_high inBox)) in
  if dge newCentroidY centroidY then
    if dge newCentroidX centroidX then 1 else 0
  else
    if dge newCentroidX centroidX then 3 else 2.

(** The two centre coordinates [getQuadrant] compares. *)
Definition centreX (b : raw_BOX) : double :=
  midpoint (raw_x (raw_low b)) (raw_x (raw_high b)).
Definition centreY (b : raw_BOX) : double :=
  midpoint (raw_y (raw_low b)) (raw_y (raw_high b)).

(** ** Get RangeBox using BOX *)
Definition getRangeBox (box : BOX) : RangeBox :=
  {| left  := {| rlow := Fin (x (low box)); rhigh := Fin (x (high box)) |};
     right := {| rlow := Fin (y (low box)); rhigh := Fin (y (high box)) |} |}.

(** ** Initialize the traversal value *)
Definition initRectBox : RectBox :=
  let whole := {| rlow := NegInf; rhigh := PosInf |} in
  {| range_box_x := {| left := whole; right := whole |};
     range_box_y := {| left := whole; right := whole |} |}.

(** ** Calculate the next traversal value

    [quadrant] is a [uint8]; [quadrant & 0x8] and the like are C
    conditions, true when the masked value is not zero. *)
Definition bit_set (quadrant mask : Z) : bool := negb (Z.land quadrant mask =? 0).

Definition set_low (r : Range) (v : bound) : Range := {| rlow := v; rhigh := rhigh r |}.
Definition set_high (r : Range) (v : bound) : Range := {| rlow := rlow r; rhigh := v |}.

Definition nextRectBox (rect_box : RectBox) (centroid : RangeBox) (quadrant : Z)
  : RectBox :=
  let bx := range_box_x rect_box in
  let by_ := range_box_y rect_box in
  let x_left :=
    if bit_set quadrant 8 then set_low (left bx) (rlow (left centroid))
    else set_high (left bx) (rlow (left centroid)) in
  let x_right :=
    if bit_set quadrant 4 then set_low (right bx) (rhigh (left centroid))
    else set_high (right bx) (rhigh (left centroid)) in
  let y_left :=
    if bit_set quadrant 2 then set_low (left by_) (rlow (right centroid))
    else set_high (left by_) (rlow (right centroid)) in
  let y_right :=
    if bit_set quadrant 1 then set_low (right by_) (rhigh (right centroid))
    else set_high (right by_) (rhigh (right centroid)) in
  {| range_box_x := {| left := x_left; right := x_right |};
     range_box_y := {| left := y_left; right := y_right |} |}.

(** ** Region predicates

    The comparison macros [FPlt], [FPle], [FPgt], [FPge] come from
    [utils/geo_decls.h], which is not among the sources here; they are the
    tolerant comparisons of the geometric types, written against a
    tolerance [EPSILON] that stays a parameter of this section. *)
Section RegionPredicates.

Variable EPSILON : Q.

Definition FPlt (A B : bound) : bool := diff_gt (bound_sub B A) EPSILON.
Definition FPle (A B : bound) : bool := diff_le (bound_sub A B) EPSILON.
Definition FPgt (A B : bound) : bool := diff_gt (bound_sub A B) EPSILON.
Definition FPge (A B : bound) : bool := diff_le (bound_sub B A) EPSILON.

(** Can any range from range_box overlap with this argument? *)
Definition overlap2D (range_box : RangeBox) (query : Range) : bool :=
  FPge (rhigh (right range_box)) (rlow query) &&
  FPle (rlow (left range_box)) (rhigh query).

(** Can any rectangle from rect_box overlap with this argument? *)
Definition overlap4D (rect_box : RectBox) (query : RangeBox) : bool :=
  overlap2D (range_box_x rect_box) (left query) &&
  overlap2D (range_box_y rect_box) (right query).

(** Can any range from range_box contain this argument? *)
Definition contain2D (range_box : RangeBox) (query : Range) : bool :=
  FPge (rhigh (right range_box)) (rhigh query) &&
  FPle (rlow (left range_box)) (rlow query).

Definition contain4D (rect_box : RectBox) (query : RangeBox) : bool :=
  contain2D (range_box_x rect_box) (left query) &&
  contain2D (range_box_y rect_box) (right query).

(** Can any range from range_box be contained by this argument? *)
Definition contained2D (range_box : RangeBox) (query : Range) : bool :=
  FPle (rlow (left range_box)) (rhigh query) &&
  FPge (rhigh (left range_box)) (rlow query) &&
  FPle (rlow (right range_box)) (rhigh query) &&
  FPge (rhigh (right range_box)) (rlow query).

Definition contained4D (rect_box : RectBox) (query : RangeBox) : bool :=
  contained2D (range_box_x rect_box) (left query) &&
  contained2D (range_box_y rect_box) (right query).

(** Can any range from range_box to be lower than this argument? *)
Definition lower2D (range_box : RangeBox) (query : Range) : bool :=
  FPlt (rlow (left range_box)) (rlow query) &&
  FPlt (rlow (right range_box)) (rlow query).

(** Can any range from range_box not extend to the right side of the query? *)
Definition overLower2D (range_box : RangeBox) (query : Range) : bool :=
  FPle (rlow (left range_box)) (rhigh query) &&
  FPle (rlow (right range_box)) (rhigh query).

(** Can any range from range_box to be higher than this argument? *)
Definition higher2D (range_box : RangeBox) (query : Range) : bool :=
  FPgt (rhigh (left range_box)) (rhigh query) &&
  FPgt (rhigh (right range_box)) (rhigh query).

(** Can any range from range_box not extend to the left side of the query? *)
Definition overHigher2D (range_box : RangeBox) (query : Range) : bool :=
  FPge (rhigh (left range_box)) (rlow query) &&
  FPge (rhigh (right range_box)) (rlow query).

Definition left4D (rect_box : RectBox) (query : RangeBox) : bool :=
  lower2D (range_box_x rect_box) (left query).
Definition overLeft4D (rect_box : RectBox) (query : RangeBox) : bool :=
  overLower2D (range_box_x rect_box) (left query).
Definition right4D (rect_box : RectBox) (query : RangeBox) : bool :=
  higher2D (range_box_x rect_box) (left query).
Definition overRight4D (rect_box : RectBox) (query : RangeBox) : bool :=
  overHigher2D (range_box_x rect_box) (left query).
Definition below4D (rect_box : RectBox) (query : RangeBox) : bool :=
  lower2D (range_box_y rect_box) (right query).
Definition overBelow4D (rect_box : RectBox) (query : RangeBox) : bool :=
  overLower2D (range_box_y rect_box) (right query).
Definition above4D (rect_box : RectBox) (query : RangeBox) : bool :=
  higher2D (range_box_y rect_box) (right query).
Definition overAbove4D (rect_box : RectBox) (query : RangeBox) : bool :=
  overHigher2D (range_box_y rect_box) (right query).

(** The exact overlap test used at the leaves: [box_overlap] of
    [utils/adt/geo_ops.c] (not among the sources here) returns [box_ov],
    which holds when the x-extents and the y-extents of the two boxes
    meet, under the same tolerant comparison. *)
Definition box_ov (box1 box2 : BOX) : bool :=
  FPle (Fin (x (low box1))) (Fin (x (high box2))) &&
  FPle (Fin (x (low box2))) (Fin (x (high box1))) &&
  FPle (Fin (y (low box1))) (Fin (y (high box2))) &&
  FPle (Fin (y (low box2))) (Fin (y (high box1))).

End RegionPredicates.

(** ** Conversions between C number types *)

Definition INT_MIN : Z := -2147483648.
Definition INT_MAX : Z := 2147483647.

(** [double] to [int]: the fractional part is discarded (truncation toward
    zero); the conversion is undefined when the result does not fit, and
    for an infinity and NaN. *)
Definition double_to_int (d : double) : option Z :=
  match d with
  | Some (Fin q) =>
      let t := Z.quot (Qnum q) (Zpos (Qden q)) in
      if (INT_MIN <=? t) && (t <=? INT_MAX) then Some t else None
  | _ => None
  end.

(** [int] to [double]: exact, an [int] has fewer than 53 bits. *)
Definition int_to_double (i : Z) : Q := inject_Z i.

(** [int] subtraction, two's complement. *)
Definition int_sub (a b : Z) : Z :=
  (a - b + 2147483648) mod 4294967296 - 2147483648.

(** [floor(log2(d))] of the C library: the integer below the logarithm
    of a positive number, minus infinity at zero, NaN below zero.  The
    logarithm is taken as the exact one; its own rounding to a double is
    not modelled. *)
Definition floor_log2 (d : double) : double :=
  match d with
  | Some (Fin q) =>
      match Qnum q with
      | 0 => Some NegInf
      | Zpos n => finite (inject_Z (binade (Zpos n) (Qden q)))
      | Zneg _ => None
      end
  | Some PosInf => Some PosInf
  | _ => None
  end.

Definition bind {A B : Type} (m : option A) (k : A -> option B) : option B :=
  match m with
  | Some a => k a
  | None => None
  end.

Notation "x <- m ;; k" := (bind m (fun x => k))
  (at level 61, m at next level, right associativity).

(** ** SP-GiST loose quadtree choose function *)
Module Choose.

Inductive spgChooseResultType := spgMatchNode | spgAddNode | spgSplitTuple.

Record spgChooseIn := mkIn {
  prefixDatum : BOX;
  leafDatum : BOX;
  level : Z;
  allTheSame : bool
}.

(** [levelAdd] and [nodeN] are [None] when the function leaves them for
    the core to set. *)
Record spgChooseOut := mkOut {
  resultType : spgChooseResultType;
  restDatum : BOX;
  levelAdd : option Z;
  nodeN : option Z
}.

(** The level choosing equation. *)
Definition levelDifference (centroid box : BOX) (level : Z) : option Z :=
  centroidWidth <-
    double_to_int (dsub (finite (x (high centroid))) (finite (x (low centroid)))) ;;
  centroidHeight <-
    double_to_int (dsub (finite (y (high centroid))) (finite (y (low centroid)))) ;;
  let currBoxLength :=
    finite (int_to_double (if centroidWidth >=? centroidHeight then centroidWidth
                           else centroidHeight)) in
  boxWidth <- double_to_int (dsub (finite (x (high box))) (finite (x (low box)))) ;;
  boxHeight <- double_to_int (dsub (finite (y (high box))) (finite (y (low box)))) ;;
  let newElementRadius :=
    ddiv (finite (int_to_double (if boxWidth >=? boxHeight then boxWidth
                                 else boxHeight)))
         (finite 2) in
  levelCandidate <-
    double_to_int (dsub (floor_log2 (ddiv currBoxLength newElementRadius))
                        (finite 1)) ;;
  let boxNewLevel := if levelCandidate >=? 0 then levelCandidate else 0 in
  let candidateLevelDiff := int_sub boxNewLevel level in
  Some (if candidateLevelDiff >=? 0 then candidateLevelDiff else 0).

(** One turn of the loop that simulates the descent: classify against the
    current box, then shrink the current box to the chosen quadrant. *)
Definition step (currentBox box : BOX) : option (BOX * Z) :=
  let currentQuadrant := getQuadrant currentBox box in
  middleX <- double_to_int
    (midpoint (finite (x (low currentBox))) (finite (x (high currentBox)))) ;;
  middleY <- double_to_int
    (midpoint (finite (y (low currentBox))) (finite (y (high currentBox)))) ;;
  let mx := int_to_double middleX in
  let my := int_to_double middleY in
  let lo := low currentBox in
  let hi := high currentBox in
  let currentBox' :=
    if currentQuadrant =? 0 then
      {| high := {| x := mx; y := y hi |}; low := {| x := x lo; y := my |} |}
    else if currentQuadrant =? 1 then
      {| high := hi; low := {| x := mx; y := my |} |}
    else if currentQuadrant =? 2 then
      {| high := {| x := mx; y := my |}; low := lo |}
    else if currentQuadrant =? 3 then
      {| high := {| x := x hi; y := my |}; low := {| x := mx; y := y lo |} |}
    else currentBox in
  Some (currentBox', currentQuadrant).

(** [for (int i = 0; i < levelDifference; i++)], with the loop's two
    variables threaded through. *)
Fixpoint descend (n : nat) (currentBox box : BOX) (currentQuadrant : Z)
  : option (BOX * Z) :=
  match n with
  | O => Some (currentBox, currentQuadrant)
  | S n' =>
      s <- step currentBox box ;;
      descend n' (fst s) box (snd s)
  end.

(** [None]: a conversion in the function has no defined result. *)
Definition spg_loose_quad_choose (i : spgChooseIn) : option spgChooseOut :=
  let centroid := prefixDatum i in
  let box := leafDatum i in
  if allTheSame i then
    Some {| resultType := spgMatchNode; restDatum := box;
            levelAdd := None; nodeN := None |}
  else
    d <- levelDifference centroid box (level i) ;;
    r <- descend (Z.to_nat d) centroid box 0 ;;
    Some {| resultType := spgMatchNode; restDatum := box;
            levelAdd := Some d; nodeN := Some (snd r) |}.

End Choose.

(** ** SP-GiST loose quadtree pick-split function *)
Module PickSplit.

(** Comparator for qsort. *)
Definition compareDoubles (a b : Q) : Z :=
  if Qeq_bool a b then 0 else if Qgt_bool a b then 1 else -1.

(** [qsort] with [compareDoubles]: the array in ascending order. *)
Fixpoint insert (v : Q) (l : list Q) : list Q :=
  match l with
  | [] => [v]
  | h :: t => if compareDoubles v h <=? 0 then v :: h :: t else h :: insert v t
  end.

Fixpoint qsort (l : list Q) : list Q :=
  match l with
  | [] => []
  | h :: t => insert h (qsort t)
  end.

(** [a[i]] for an array of [double]s. *)
Definition read (a : list Q) (i : Z) : option Q :=
  if i <? 0 then None else nth_error a (Z.to_nat i).

(** [nTuples] is the length of [datums]. *)
Record spgPickSplitIn := mkIn {
  datums : list BOX;
  level : Z
}.

Definition nTuples (i : spgPickSplitIn) : Z := Z.of_nat (length (datums i)).

Record spgPickSplitOut := mkOut {
  hasPrefix : bool;
  prefixDatum : BOX;
  nNodes : Z;
  mapTuplesToNodes : list Z;
  leafTupleDatums : list BOX
}.

(** The centroid: the four coordinate arrays are filled, sorted and
    read.  [None]: a read leaves its array. *)
Definition centroid_of (i : spgPickSplitIn) : option BOX :=
  let lowXs := qsort (map (fun box => x (low box)) (datums i)) in
  let highXs := qsort (map (fun box => x (high box)) (datums i)) in
  let lowYs := qsort (map (fun box => y (low box)) (datums i)) in
  let highYs := qsort (map (fun box => y (high box)) (datums i)) in
  lx0 <- read lowXs 0 ;;
  ly0 <- read lowYs 0 ;;
  let minXY := if Qle_bool lx0 ly0 then lx0 else ly0 in
  hxn <- read highXs (nTuples i) ;;
  hyn <- read highYs (nTuples i) ;;
  maxXY <- (if Qge_bool hxn hyn then read highXs (nTuples i - 1)
            else read highYs (nTuples i - 1)) ;;
  Some {| high := {| x := maxXY; y := maxXY |};
          low := {| x := minXY; y := minXY |} |}.

Definition spg_loose_quad_picksplit (i : spgPickSplitIn) : option spgPickSplitOut :=
  centroid <- centroid_of i ;;
  Some {| hasPrefix := true;
          prefixDatum := centroid;
          nNodes := 4;
          mapTuplesToNodes := map (fun box : BOX => getQuadrant centroid box) (datums i);
          leafTupleDatums := datums i |}.

End PickSplit.

(** ** Scan keys and errors *)

(** Strategy numbers of [access/stratnum.h] and type OIDs of
    [catalog/pg_type.h]; the two headers are not among the sources here,
    the numbers are those of the PostgreSQL release the file belongs to. *)
Definition RTLeftStrategyNumber : Z := 1.
Definition RTOverLeftStrategyNumber : Z := 2.
Definition RTOverlapStrategyNumber : Z := 3.
Definition RTOverRightStrategyNumber : Z := 4.
Definition RTRightStrategyNumber : Z := 5.
Definition RTSameStrategyNumber : Z := 6.
Definition RTContainsStrategyNumber : Z := 7.
Definition RTContainedByStrategyNumber : Z := 8.
Definition RTOverBelowStrategyNumber : Z := 9.
Definition RTBelowStrategyNumber : Z := 10.
Definition RTAboveStrategyNumber : Z := 11.
Definition RTOverAboveStrategyNumber : Z := 12.

Definition BOXOID : Z := 603.
Definition POLYGONOID : Z := 604.

(** The strategies the two consistent functions have a case for. *)
Definition supported_strategies : list Z :=
  [ RTOverlapStrategyNumber; RTContainsStrategyNumber; RTSameStrategyNumber;
    RTContainedByStrategyNumber; RTLeftStrategyNumber; RTOverLeftStrategyNumber;
    RTRightStrategyNumber; RTOverRightStrategyNumber; RTAboveStrategyNumber;
    RTOverAboveStrategyNumber; RTBelowStrategyNumber; RTOverBelowStrategyNumber ].

(** [sk_argument] is the box the argument stands for: the box itself for
    a [BOXOID] key, the [boundbox] of the polygon for a [POLYGONOID] key. *)
Record ScanKeyData := mkScanKey {
  sk_strategy : Z;
  sk_subtype : Z;
  sk_argument : BOX
}.

(** [elog(ERROR, ...)]: the call does not return. *)
Inductive elog_error :=
| unrecognized_scankey_subtype (subtype : Z)
| unrecognized_strategy (strategy : Z).

Inductive result (A : Type) :=
| Ok (a : A)
| Error (e : elog_error).
Arguments Ok {A} a.
Arguments Error {A} e.

Definition rbind {A B : Type} (m : result A) (k : A -> result B) : result B :=
  match m with
  | Ok a => k a
  | Error e => Error e
  end.

Definition is_error {A : Type} (r : result A) : bool :=
  match r with
  | Ok _ => false
  | Error _ => true
  end.

(** Check if result of consistent method based on bounding box is exact. *)
Definition is_bounding_box_test_exact (strategy : Z) : bool :=
  (strategy =? RTLeftStrategyNumber) || (strategy =? RTOverLeftStrategyNumber) ||
  (strategy =? RTOverRightStrategyNumber) || (strategy =? RTRightStrategyNumber) ||
  (strategy =? RTOverBelowStrategyNumber) || (strategy =? RTBelowStrategyNumber) ||
  (strategy =? RTAboveStrategyNumber) || (strategy =? RTOverAboveStrategyNumber).

(** Get bounding box for ScanKey.  [recheck] is the cell the pointer
    argument designates, [None] for a null pointer; the cell comes back
    with the box. *)
Definition spg_box_quad_get_scankey_bbox (sk : ScanKeyData) (recheck : option bool)
  : result (BOX * option bool) :=
  if sk_subtype sk =? BOXOID then Ok (sk_argument sk, recheck)
  else if sk_subtype sk =? POLYGONOID then
    match recheck with
    | Some r =>
        if negb (is_bounding_box_test_exact (sk_strategy sk))
        then Ok (sk_argument sk, Some true)
        else Ok (sk_argument sk, Some r)
    | None => Ok (sk_argument sk, None)
    end
  else Error (unrecognized_scankey_subtype (sk_subtype sk)).

(** ** SP-GiST loose quadtree inner consistent function *)
Module InnerConsistent.

Section WithTolerance.

Variable EPSILON : Q.

(** The [switch (strategy)] of the inner loop. *)
Definition region_test (strategy : Z) (next_rect_box : RectBox) (query : RangeBox)
  : result bool :=
  if strategy =? RTOverlapStrategyNumber then Ok (overlap4D EPSILON next_rect_box query)
  else if strategy =? RTContainsStrategyNumber then Ok (contain4D EPSILON next_rect_box query)
  else if (strategy =? RTSameStrategyNumber) || (strategy =? RTContainedByStrategyNumber)
    then Ok (contained4D EPSILON next_rect_box query)
  else if strategy =? RTLeftStrategyNumber then Ok (left4D EPSILON next_rect_box query)
  else if strategy =? RTOverLeftStrategyNumber then Ok (overLeft4D EPSILON next_rect_box query)
  else if strategy =? RTRightStrategyNumber then Ok (right4D EPSILON next_rect_box query)
  else if strategy =? RTOverRightStrategyNumber then Ok (overRight4D EPSILON next_rect_box query)
  else if strategy =? RTAboveStrategyNumber then Ok (above4D EPSILON next_rect_box query)
  else if strategy =? RTOverAboveStrategyNumber then Ok (overAbove4D EPSILON next_rect_box query)
  else if strategy =? RTBelowStrategyNumber then Ok (below4D EPSILON next_rect_box query)
  else if strategy =? RTOverBelowStrategyNumber then Ok (overBelow4D EPSILON next_rect_box query)
  else Error (unrecognized_strategy strategy).

(** [for (i = 0; i < in->nkeys; i++)]: the flag after the loop, which
    stops at the first check that fails. *)
Fixpoint check_keys (next_rect_box : RectBox) (keys : list (ScanKeyData * RangeBox))
  : result bool :=
  match keys with
  | [] => Ok true
  | (sk, query) :: rest =>
      rbind (region_test (sk_strategy sk) next_rect_box query) (fun flag =>
      if flag then check_keys next_rect_box rest else Ok false)
  end.

(** The casts of the queries to RangeBoxes, before any node is looked at. *)
Fixpoint get_queries (scankeys : list ScanKeyData) : result (list RangeBox) :=
  match scankeys with
  | [] => Ok []
  | sk :: rest =>
      rbind (spg_box_quad_get_scankey_bbox sk None) (fun b =>
      rbind (get_queries rest) (fun qs =>
      Ok (getRangeBox (fst b) :: qs)))
  end.

Record spgInnerConsistentIn := mkIn {
  scankeys : list ScanKeyData;
  traversalValue : option RectBox;
  allTheSame : bool;
  prefixDatum : BOX;
  nNodes : Z
}.

(** [out->nNodes] is the length of [nodeNumbers]. *)
Record spgInnerConsistentOut := mkOut {
  nodeNumbers : list Z;
  traversalValues : list RectBox
}.

(** [for (quadrant = 0; quadrant < in->nNodes; quadrant++)] over the
    quadrants still to visit; [quadrant] is a [uint8], an inner node of
    this operator class has four nodes. *)
Fixpoint visit_nodes (rect_box : RectBox) (centroid : RangeBox)
         (keys : list (ScanKeyData * RangeBox)) (quadrants : list Z)
         (out : spgInnerConsistentOut) : result spgInnerConsistentOut :=
  match quadrants with
  | [] => Ok out
  | quadrant :: rest =>
      let next_rect_box := nextRectBox rect_box centroid quadrant in
      rbind (check_keys next_rect_box keys) (fun flag =>
      visit_nodes rect_box centroid keys rest
        (if flag
         then {| nodeNumbers := nodeNumbers out ++ [quadrant];
                 traversalValues := traversalValues out ++ [next_rect_box] |}
         else out))
  end.

Definition node_range (n : Z) : list Z := map Z.of_nat (seq 0 (Z.to_nat n)).

Definition spg_loose_quad_inner_consistent (i : spgInnerConsistentIn)
  : result spgInnerConsistentOut :=
  if allTheSame i then
    (* Report that all nodes should be visited *)
    Ok {| nodeNumbers := node_range (nNodes i); traversalValues := [] |}
  else
    let rect_box :=
      match traversalValue i with
      | Some tv => tv
      | None => initRectBox
      end in
    let centroid := getRangeBox (prefixDatum i) in
    rbind (get_queries (scankeys i)) (fun queries =>
    visit_nodes rect_box centroid (combine (scankeys i) queries)
      (node_range (nNodes i))
      {| nodeNumbers := []; traversalValues := [] |}).

End WithTolerance.

End InnerConsistent.

(** ** SP-GiST loose quadtree leaf consistent function *)
Module LeafConsistent.

(** The exact comparisons of [utils/adt/geo_ops.c], reached through
    [DirectFunctionCall2]. *)
Inductive geo_function :=
| box_overlap | box_contain | box_contained | box_same
| box_left | box_overleft | box_right | box_overright
| box_above | box_overabove | box_below | box_overbelow.

Section WithGeoOps.

Variable DirectFunctionCall2 : geo_function -> BOX -> BOX -> bool.

(** The [switch (strategy)] of the loop. *)
Definition exact_test (strategy : Z) (leaf query : BOX) : result bool :=
  if strategy =? RTOverlapStrategyNumber then Ok (DirectFunctionCall2 box_overlap leaf query)
  else if strategy =? RTContainsStrategyNumber then Ok (DirectFunctionCall2 box_contain leaf query)
  else if strategy =? RTContainedByStrategyNumber then Ok (DirectFunctionCall2 box_contained leaf query)
  else if strategy =? RTSameStrategyNumber then Ok (DirectFunctionCall2 box_same leaf query)
  else if strategy =? RTLeftStrategyNumber then Ok (DirectFunctionCall2 box_left leaf query)
  else if strategy =? RTOverLeftStrategyNumber then Ok (DirectFunctionCall2 box_overleft leaf query)
  else if strategy =? RTRightStrategyNumber then Ok (DirectFunctionCall2 box_right leaf query)
  else if strategy =? RTOverRightStrategyNumber then Ok (DirectFunctionCall2 box_overright leaf query)
  else if strategy =? RTAboveStrategyNumber then Ok (DirectFunctionCall2 box_above leaf query)
  else if strategy =? RTOverAboveStrategyNumber then Ok (DirectFunctionCall2 box_overabove leaf query)
  else if strategy =? RTBelowStrategyNumber then Ok (DirectFunctionCall2 box_below leaf query)
  else if strategy =? RTOverBelowStrategyNumber then Ok (DirectFunctionCall2 box_overbelow leaf query)
  else Error (unrecognized_strategy strategy).

Record spgLeafConsistentIn := mkIn {
  scankeys : list ScanKeyData;
  leafDatum : BOX
}.

Record spgLeafConsistentOut := mkOut {
  leafValue : BOX;
  recheck : bool;
  flag : bool
}.

(** [for (i = 0; i < in->nkeys; i++)]: the flag and [out->recheck] after
    the loop, which stops at the first comparison that fails. *)
Fixpoint compare_keys (leaf : BOX) (keys : list ScanKeyData) (recheck : bool)
  : result (bool * bool) :=
  match keys with
  | [] => Ok (true, recheck)
  | sk :: rest =>
      rbind (spg_box_quad_get_scankey_bbox sk (Some recheck)) (fun b =>
      let recheck' := match snd b with Some r => r | None => recheck end in
      rbind (exact_test (sk_strategy sk) leaf (fst b)) (fun flag =>
      if flag then compare_keys leaf rest recheck' else Ok (false, recheck')))
  end.

Definition spg_loose_quad_leaf_consistent (i : spgLeafConsistentIn)
  : result spgLeafConsistentOut :=
  rbind (compare_keys (leafDatum i) (scankeys i) false) (fun r =>
  Ok {| leafValue := leafDatum i; recheck := snd r; flag := fst r |}).

End WithGeoOps.

End LeafConsistent.

(** ** Vocabulary of the statements *)

(** A bound lies in a range; a box is bounded by a traversal value when
    each of its four coordinates lies in the matching range. *)
Definition in_range (v : bound) (r : Range) : Prop :=
  bound_le (rlow r) v /\ bound_le v (rhigh r).

Definition bounded_by (B : BOX) (R : RectBox) : Prop :=
  in_range (Fin (x (low B))) (left (range_box_x R)) /\
  in_range (Fin (x (high B))) (right (range_box_x R)) /\
  in_range (Fin (y (low B))) (left (range_box_y R)) /\
  in_range (Fin (y (high B))) (right (range_box_y R)).

(** The two boxes share a point of the plane. *)
Definition boxes_meet (B1 B2 : BOX) : Prop :=
  (x (low B1) <= x (high B2))%Q /\ (x (low B2) <= x (high B1))%Q /\
  (y (low B1) <= y (high B2))%Q /\ (y (low B2) <= y (high B1))%Q.

(** One range is a sub-interval of another. *)
Definition sub_range (r r' : Range) : Prop :=
  bound_le (rlow r') (rlow r) /\ bound_le (rhigh r) (rhigh r').

Definition sub_rect (R R' : RectBox) : Prop :=
  sub_range (left (range_box_x R)) (left (range_box_x R')) /\
  sub_range (right (range_box_x R)) (right (range_box_x R')) /\
  sub_range (left (range_box_y R)) (left (range_box_y R')) /\
  sub_range (right (range_box_y R)) (right (range_box_y R')).

(** The centroid, as a point of the 4-D space, lies in the traversal value. *)
Definition centroid_in (C : RangeBox) (R : RectBox) : Prop :=
  in_range (rlow (left C)) (left (range_box_x R)) /\
  in_range (rhigh (left C)) (right (range_box_x R)) /\
  in_range (rlow (right C)) (left (range_box_y R)) /\
  in_range (rhigh (right C)) (right (range_box_y R)).

(** ** Boxes and traversal values for worked examples *)

Definition inner_parent : RectBox :=
  let r := {| rlow := Fin 0; rhigh := Fin 10 |} in
  {| range_box_x := {| left := r; right := r |};
     range_box_y := {| left := r; right := r |} |}.

Definition inner_centroid : RangeBox :=
  getRangeBox {| high := {| x := 6; y := 8 |}; low := {| x := 2; y := 3 |} |}.

Definition unit_centroid : BOX :=
  {| high := {| x := 10; y := 10 |}; low := {| x := 0; y := 0 |} |}.

(** The traversal value of node 1 under a root of the centroid
    [unit_centroid], and the prefix of the node below it when the boxes
    there span (6,6)-(10,10). *)
Definition node_1_value : RectBox :=
  nextRectBox initRectBox (getRangeBox unit_centroid) 1.

Definition child_prefix : BOX :=
  {| high := {| x := 10; y := 10 |}; low := {| x := 6; y := 6 |} |}.

(** Same centre in x as [unit_centroid], lower in y. *)
Definition below_centre : BOX :=
  {| high := {| x := 6; y := 3 |}; low := {| x := 4; y := 1 |} |}.

(** Same centre in y as [unit_centroid], to the left in x. *)
Definition left_of_centre : BOX :=
  {| high := {| x := 3; y := 6 |}; low := {| x := 1; y := 4 |} |}.

(** A box whose coordinates are all NaN. *)
Definition nan_box : raw_BOX :=
  {| raw_high := {| raw_x := NaN; raw_y := NaN |};
     raw_low := {| raw_x := NaN; raw_y := NaN |} |}.

(** A box as large as the node's extent, centred to the upper right of the
    node's centre. *)
Definition large_box : BOX :=
  {| high := {| x := 15; y := 15 |}; low := {| x := 5; y := 5 |} |}.

(** Every exact comparison answers "yes". *)
Definition always_true (f : LeafConsistent.geo_function) (a b : BOX) : bool := true.

Definition odd_key : ScanKeyData :=
  {| sk_strategy := 13; sk_subtype := BOXOID; sk_argument := unit_centroid |}.

(** A box inside [inner_parent] and a query box that reaches it. *)
Definition inner_box : BOX :=
  {| high := {| x := 6; y := 8 |}; low := {| x := 2; y := 3 |} |}.

Definition reaching_query : BOX :=
  {| high := {| x := 20; y := 20 |}; low := {| x := 5; y := 5 |} |}.

(** ** Further vocabulary *)

(** [a <= b] on bounds, decided. *)
Definition bound_leb (a b : bound) : bool :=
  match a, b with
  | NegInf, _ => true
  | _, PosInf => true
  | Fin p, Fin q => Qle_bool p q
  | _, _ => false
  end.

(** The low corner of a box is not beyond its high corner. *)
Definition well_formed (B : BOX) : Prop :=
  (x (low B) <= x (high B))%Q /\ (y (low B) <= y (high B))%Q.

(** The quadrant, of the sixteen a 4-bit code names, on whose side of the
    centroid each of the four coordinates of a box lies: a bit is set
    when the coordinate is not below the centroid's. *)
Definition cell_of (centroid : RangeBox) (B : BOX) : Z :=
  (if bound_leb (rlow (left centroid)) (Fin (x (low B))) then 8 else 0) +
  (if bound_leb (rhigh (left centroid)) (Fin (x (high B))) then 4 else 0) +
  (if bound_leb (rlow (right centroid)) (Fin (y (low B))) then 2 else 0) +
  (if bound_leb (rhigh (right centroid)) (Fin (y (high B))) then 1 else 0).

(** A coordinate of the box lies on the centroid. *)
Definition on_centroid (centroid : RangeBox) (B : BOX) : Prop :=
  (bound_le (rlow (left centroid)) (Fin (x (low B))) /\
   bound_le (Fin (x (low B))) (rlow (left centroid))) \/
  (bound_le (rhigh (left centroid)) (Fin (x (high B))) /\
   bound_le (Fin (x (high B))) (rhigh (left centroid))) \/
  (bound_le (rlow (right centroid)) (Fin (y (low B))) /\
   bound_le (Fin (y (low B))) (rlow (right centroid))) \/
  (bound_le (rhigh (right centroid)) (Fin (y (high B))) /\
   bound_le (Fin (y (high B))) (rhigh (right centroid))).

(** A box with its low x on the low x of [unit_centroid]. *)
Definition edge_box : BOX :=
  {| high := {| x := 5; y := 5 |}; low := {| x := 0; y := -5 |} |}.

(** ** The exact comparisons

    [FPeq] of [utils/geo_decls.h], and the comparisons of boxes of
    [utils/adt/geo_ops.c] that the leaf function calls (neither file is
    among the sources here), written with the comparison macros. *)
Definition FPeq (EPSILON : Q) (A B : bound) : bool :=
  match bound_sub A B with
  | Some (Fin q) => Qle_bool (Qabs q) EPSILON
  | _ => false
  end.

Definition exact_holds (EPSILON : Q) (f : LeafConsistent.geo_function)
           (box1 box2 : BOX) : bool :=
  let hx1 := Fin (x (high box1)) in
  let lx1 := Fin (x (low box1)) in
  let hy1 := Fin (y (high box1)) in
  let ly1 := Fin (y (low box1)) in
  let hx2 := Fin (x (high box2)) in
  let lx2 := Fin (x (low box2)) in
  let hy2 := Fin (y (high box2)) in
  let ly2 := Fin (y (low box2)) in
  match f with
  | LeafConsistent.box_overlap => box_ov EPSILON box1 box2
  | LeafConsistent.box_contain =>
      FPge EPSILON hx1 hx2 && FPle EPSILON lx1 lx2 &&
      FPge EPSILON hy1 hy2 && FPle EPSILON ly1 ly2
  | LeafConsistent.box_contained =>
      FPle EPSILON hx1 hx2 && FPge EPSILON lx1 lx2 &&
      FPle EPSILON hy1 hy2 && FPge EPSILON ly1 ly2
  | LeafConsistent.box_same =>
      FPeq EPSILON hx1 hx2 && FPeq EPSILON lx1 lx2 &&
      FPeq EPSILON hy1 hy2 && FPeq EPSILON ly1 ly2
  | LeafConsistent.box_left => FPlt EPSILON hx1 lx2
  | LeafConsistent.box_overleft => FPle EPSILON hx1 hx2
  | LeafConsistent.box_right => FPgt EPSILON lx1 hx2
  | LeafConsistent.box_overright => FPge EPSILON lx1 lx2
  | LeafConsistent.box_above => FPgt EPSILON ly1 hy2
  | LeafConsistent.box_overabove => FPge EPSILON ly1 ly2
  | LeafConsistent.box_below => FPlt EPSILON hy1 ly2
  | LeafConsistent.box_overbelow => FPle EPSILON hy1 hy2
  end.

(** ** Vocabulary for the consistent functions *)

(** The key has a subtype and a strategy the functions have a case for. *)
Definition recognized (sk : ScanKeyData) : Prop :=
  (sk_subtype sk = BOXOID \/ sk_subtype sk = POLYGONOID) /\
  In (sk_strategy sk) supported_strategies.

(** The key is a polygon key whose bounding-box test is not exact. *)
Definition lossy (sk : ScanKeyData) : bool :=
  (sk_subtype sk =? POLYGONOID) &&
  negb (is_bounding_box_test_exact (sk_strategy sk)).

(** The answer of the exact comparison for a key; an error counts as "no". *)
Definition exact_answer (call : LeafConsistent.geo_function -> BOX -> BOX -> bool)
           (leaf : BOX) (sk : ScanKeyData) : bool :=
  match LeafConsistent.exact_test call (sk_strategy sk) leaf (sk_argument sk) with
  | Ok b => b
  | Error _ => false
  end.

(** Every key passes on the traversal value of the node. *)
Definition passes (EPSILON : Q) (rect_box : RectBox) (centroid : RangeBox)
           (keys : list (ScanKeyData * RangeBox)) (quadrant : Z) : bool :=
  match InnerConsistent.check_keys EPSILON
          (nextRectBox rect_box centroid quadrant) keys with
  | Ok b => b
  | Error _ => false
  end.

(** The traversal value the inner function starts from. *)
Definition start_of (i : InnerConsistent.spgInnerConsistentIn) : RectBox :=
  match InnerConsistent.traversalValue i with
  | Some tv => tv
  | None => initRectBox
  end.

(** The scan keys with their query boxes as RangeBoxes. *)
Definition keys_of (i : InnerConsistent.spgInnerConsistentIn)
  : list (ScanKeyData * RangeBox) :=
  map (fun sk => (sk, getRangeBox (sk_argument sk))) (InnerConsistent.scankeys i).

(** ** Scan keys for worked examples *)

(** A query box above the centre line of [unit_centroid]. *)
Definition high_query : BOX :=
  {| high := {| x := 20; y := 20 |}; low := {| x := 5; y := 15 |} |}.

Definition overlap_key : ScanKeyData :=
  {| sk_strategy := RTOverlapStrategyNumber; sk_subtype := BOXOID;
     sk_argument := high_query |}.

(** An overlap key for a polygon, by its bounding box. *)
Definition polygon_key : ScanKeyData :=
  {| sk_strategy := RTOverlapStrategyNumber; sk_subtype := POLYGONOID;
     sk_argument := high_query |}.

(** A key of a type the functions do not know. *)
Definition circle_key : ScanKeyData :=
  {| sk_strategy := RTOverlapStrategyNumber; sk_subtype := 718;
     sk_argument := high_query |}.

(** The root node with centroid [unit_centroid], asked about its four nodes. *)
Definition at_root (keys : list ScanKeyData) : InnerConsistent.spgInnerConsistentIn :=
  {| InnerConsistent.scankeys := keys;
     InnerConsistent.traversalValue := None;
     InnerConsistent.allTheSame := false;
     InnerConsistent.prefixDatum := unit_centroid;
     InnerConsistent.nNodes := 4 |}.

(** A leaf box that [high_query] overlaps. *)
Definition high_leaf : BOX :=
  {| high := {| x := 8; y := 18 |}; low := {| x := 2; y := 12 |} |}.

(** A leaf box that starts left of and below [unit_centroid], ends inside
    it in x and above it in y; [high_query] overlaps it. *)
Definition wide_leaf : BOX :=
  {| high := {| x := 8; y := 18 |}; low := {| x := -3; y := -2 |} |}.




(** ** Vocabulary for the choose function *)

(** The longer side of a box as the choose function takes it: width and
    height, each a difference of doubles converted to [int], the larger
    of the two. *)
Definition longer_side (b : BOX) : option Z :=
  w <- double_to_int (dsub (finite (x (high b))) (finite (x (low b)))) ;;
  h <- double_to_int (dsub (finite (y (high b))) (finite (y (low b)))) ;;
  Some (if w >=? h then w else h).

(** A coordinate, and every coordinate of a box, is at most [k] in
    absolute value. *)
Definition inside (k : Z) (q : Q) : Prop :=
  (inject_Z (- k) <= q)%Q /\ (q <= inject_Z k)%Q.

Definition within (k : Z) (b : BOX) : Prop :=
  inside k (x (low b)) /\ inside k (x (high b)) /\
  inside k (y (low b)) /\ inside k (y (high b)).

(** [q] is in the binade of exponent [e]: from [2 ^ e] up to, not
    including, [2 ^ (e + 1)]. *)
Definition in_binade (q : Q) (e : Z) : Prop := (2 ^ e <= q /\ q < 2 ^ (e + 1))%Q.

(** A centroid whose width, 4 - 2 ^ -60, is 4.0 as a double, and a box
    two units wide and one high. *)
Definition sliver_centroid : BOX :=
  {| high := {| x := 4; y := 1 |};
     low := {| x := 1 # 1152921504606846976; y := 0 |} |}.

Definition two_by_one : BOX :=
  {| high := {| x := 3; y := 2 |}; low := {| x := 1; y := 1 |} |}.

(** A box two units wide inside [unit_centroid], and one that is less
    than a unit wide and high. *)
Definition small_box : BOX :=
  {| high := {| x := 5; y := 4 |}; low := {| x := 3; y := 3 |} |}.

Definition speck : BOX :=
  {| high := {| x := 3 # 2; y := 3 # 2 |}; low := {| x := 1; y := 1 |} |}.


End LooseQuadtree.

(* ================================================================== *)
(** * Part II: [gistsplit.c] *)
(* ================================================================== *)

Module GistSplit.

(** ** Types of the GiST headers *)

(** [Datum] is an opaque machine word. *)
Definition Datum := Z.

(** [OffsetNumber] is a [uint16]; positions on the page count from
    [FirstOffsetNumber]. *)
Definition OffsetNumber := Z.
Definition InvalidOffsetNumber : OffsetNumber := 0.
Definition FirstOffsetNumber : OffsetNumber := 1.
Definition MaxOffset : Z := 65535.

(** Conversion of an [int] to [OffsetNumber]. *)
Definition to_OffsetNumber (i : Z) : OffsetNumber := i mod 65536.

(** An index tuple, as the values of its attributes; [None] is a null. *)
Definition IndexTuple := list (option Datum).

(** [index_getattr(tup, attnum, tupdesc, &isnull)], attributes counted
    from 1: the datum and the null flag. *)
Definition index_getattr (tup : IndexTuple) (attnum : Z) : Datum * bool :=
  match nth (Z.to_nat (attnum - 1)) tup None with
  | Some d => (d, false)
  | None => (0, true)
  end.

Record GISTENTRY := mkEntry {
  key : Datum;
  offset : OffsetNumber;
  leafkey : bool
}.

(** [vector] holds [vector[1]] to [vector[n - 1]]; [vector[0]] goes
    unused in this code. *)
Record GistEntryVector := mkVector {
  n : Z;
  vector : list GISTENTRY
}.

(** Each [OffsetNumber] array comes with its length ([spl_nNW] is the
    length of [spl_NW], and so on). *)
Record GIST_SPLITVEC := mkSplitVec {
  spl_NW : list OffsetNumber;
  spl_NWdatum : Datum;
  spl_NWdatum_exists : bool;
  spl_NE : list OffsetNumber;
  spl_NEdatum : Datum;
  spl_NEdatum_exists : bool;
  spl_SW : list OffsetNumber;
  spl_SWdatum : Datum;
  spl_SWdatum_exists : bool;
  spl_SE : list OffsetNumber;
  spl_SEdatum : Datum;
  spl_SEdatum_exists : bool
}.

(** The per-column arrays are indexed by the attribute number. *)
Record GistSplitVector := mkSplitVector {
  splitVector : GIST_SPLITVEC;
  spl_NWattr : Z -> Datum;
  spl_NWisnull : Z -> bool;
  spl_NEattr : Z -> Datum;
  spl_NEisnull : Z -> bool;
  spl_SWattr : Z -> Datum;
  spl_SWisnull : Z -> bool;
  spl_SEattr : Z -> Datum;
  spl_SEisnull : Z -> bool;
  spl_dontcare : option (list bool)
}.

(** [a[i] = v] on a per-column array. *)
Definition store {A : Type} (a : Z -> A) (i : Z) (v : A) : Z -> A :=
  fun j => if j =? i then v else a j.

(** The part of [GISTSTATE] the split reads: the number of columns and
    the support functions of the operator classes. *)
Record GISTSTATE := mkState {
  natts : Z;
  picksplitFn : Z -> GistEntryVector -> GIST_SPLITVEC -> GIST_SPLITVEC;
  unionFn : Z -> list GISTENTRY -> Datum
}.

(** ** Effects

    A computation may fail ([None]: a read outside an array, a loop that
    cannot end, recursion deeper than the fuel given) and records where it
    computed union keys. *)
Inductive call_site := in_null_branch | at_end_of_split.
Inductive event := gistunionsubkey_called (site : call_site).

Definition M (A : Type) : Type := list event -> option (A * list event).

Definition ret {A : Type} (a : A) : M A := fun t => Some (a, t).
Definition fail {A : Type} : M A := fun _ => None.
Definition emit (e : event) : M unit := fun t => Some (tt, t ++ [e]).
Definition lift {A : Type} (o : option A) : M A :=
  fun t => match o with Some a => Some (a, t) | None => None end.
Definition mbind {A B : Type} (m : M A) (k : A -> M B) : M B :=
  fun t => match m t with
           | Some (a, t') => k a t'
           | None => None
           end.

Notation "x <-- m ;; k" := (mbind m (fun x => k))
  (at level 61, m at next level, right associativity).

Definition obind {A B : Type} (m : option A) (k : A -> option B) : option B :=
  match m with
  | Some a => k a
  | None => None
  end.

(** [1, 2, ..., len]: the values of a loop counter [for (i = 1; i <= len; i++)]. *)
Definition positions (len : Z) : list Z := map Z.of_nat (seq 1 (Z.to_nat len)).

(** [a[i]] with the index checked. *)
Definition read {A : Type} (a : list A) (i : Z) : option A :=
  if i <? 0 then None else nth_error a (Z.to_nat i).

Section Split.

(** Functions of [gistutil.c], which is not among the sources here.
    [gistdentryinit nkey k o l isNull] is the entry it initialises;
    [gistMakeUnionItVec giststate itvec] is the pair of arrays [attr],
    [isnull] it fills. *)
Variable gistdentryinit : GISTSTATE -> Z -> Datum -> OffsetNumber -> bool -> bool -> GISTENTRY.
Variable gistMakeUnionItVec : GISTSTATE -> list IndexTuple -> (Z -> Datum) * (Z -> bool).

(** ** Unions of subkeys *)

(** The loop of [gistunionsubkeyvec]: the tuples listed in [entries],
    without those marked in [dontcare]. *)
Fixpoint cleaned (itvec : list IndexTuple) (entries : list OffsetNumber)
         (dontcare : option (list bool)) : option (list IndexTuple) :=
  match entries with
  | [] => Some []
  | e :: rest =>
      obind (match dontcare with
             | Some dc => read dc e
             | None => Some false
             end) (fun skip =>
      if skip then cleaned itvec rest dontcare
      else
        obind (read itvec (e - 1)) (fun tup =>
        obind (cleaned itvec rest dontcare) (fun l =>
        Some (tup :: l))))
  end.

(** The union keys of a group, written over the first [natts] slots of
    the arrays [attr] and [isnull]. *)
Definition gistunionsubkeyvec (giststate : GISTSTATE) (itvec : list IndexTuple)
           (entries : list OffsetNumber) (dontcare : option (list bool))
           (attr : Z -> Datum) (isnull : Z -> bool)
  : option ((Z -> Datum) * (Z -> bool)) :=
  obind (cleaned itvec entries dontcare) (fun cleanedItVec =>
  let u := gistMakeUnionItVec giststate cleanedItVec in
  let filled (j : Z) := (0 <=? j) && (j <? natts giststate) in
  Some (fun j => if filled j then fst u j else attr j,
        fun j => if filled j then snd u j else isnull j)).

Definition gistunionsubkey (site : call_site) (giststate : GISTSTATE)
           (itvec : list IndexTuple) (spl : GistSplitVector) : M GistSplitVector :=
  _ <-- emit (gistunionsubkey_called site) ;;
  let sv := splitVector spl in
  let dc := spl_dontcare spl in
  nw <-- lift (gistunionsubkeyvec giststate itvec (spl_NW sv) dc
                 (spl_NWattr spl) (spl_NWisnull spl)) ;;
  ne <-- lift (gistunionsubkeyvec giststate itvec (spl_NE sv) dc
                 (spl_NEattr spl) (spl_NEisnull spl)) ;;
  sw <-- lift (gistunionsubkeyvec giststate itvec (spl_SW sv) dc
                 (spl_SWattr spl) (spl_SWisnull spl)) ;;
  se <-- lift (gistunionsubkeyvec giststate itvec (spl_SE sv) dc
                 (spl_SEattr spl) (spl_SEisnull spl)) ;;
  ret {| splitVector := sv;
         spl_NWattr := fst nw; spl_NWisnull := snd nw;
         spl_NEattr := fst ne; spl_NEisnull := snd ne;
         spl_SWattr := fst sw; spl_SWisnull := snd sw;
         spl_SEattr := fst se; spl_SEisnull := snd se;
         spl_dontcare := dc |}.

(** ** Trivial picksplit implementation *)

(** The four arrays while a loop fills them. *)
Record groups := mkGroups {
  g_NW : list OffsetNumber;
  g_NE : list OffsetNumber;
  g_SW : list OffsetNumber;
  g_SE : list OffsetNumber
}.

Definition no_groups : groups := {| g_NW := []; g_NE := []; g_SW := []; g_SE := [] |}.

Definition to_NW (g : groups) (i : OffsetNumber) : groups :=
  {| g_NW := g_NW g ++ [i]; g_NE := g_NE g; g_SW := g_SW g; g_SE := g_SE g |}.
Definition to_NE (g : groups) (i : OffsetNumber) : groups :=
  {| g_NW := g_NW g; g_NE := g_NE g ++ [i]; g_SW := g_SW g; g_SE := g_SE g |}.
Definition to_SW (g : groups) (i : OffsetNumber) : groups :=
  {| g_NW := g_NW g; g_NE := g_NE g; g_SW := g_SW g ++ [i]; g_SE := g_SE g |}.
Definition to_SE (g : groups) (i : OffsetNumber) : groups :=
  {| g_NW := g_NW g; g_NE := g_NE g; g_SW := g_SW g; g_SE := g_SE g ++ [i] |}.

Definition with_groups (v : GIST_SPLITVEC) (g : groups) : GIST_SPLITVEC :=
  {| spl_NW := g_NW g;
     spl_NWdatum := spl_NWdatum v; spl_NWdatum_exists := spl_NWdatum_exists v;
     spl_NE := g_NE g;
     spl_NEdatum := spl_NEdatum v; spl_NEdatum_exists := spl_NEdatum_exists v;
     spl_SW := g_SW g;
     spl_SWdatum := spl_SWdatum v; spl_SWdatum_exists := spl_SWdatum_exists v;
     spl_SE := g_SE g;
     spl_SEdatum := spl_SEdatum v; spl_SEdatum_exists := spl_SEdatum_exists v |}.

(** The body of the loop of [genericPickSplit]; the bounds are computed
    in [int], the division is that of C. *)
Definition generic_step (maxoff : Z) (g : groups) (i : Z) : groups :=
  if i <=? (maxoff - FirstOffsetNumber + 1) ÷ 4 then to_NW g i
  else if i <=? (maxoff - FirstOffsetNumber + 1) ÷ 2 then to_NE g i
  else if i <=? (3 * (maxoff - FirstOffsetNumber + 1)) ÷ 4 then to_SW g i
  else to_SE g i.

(** [maxoff] and the loop counter are [OffsetNumber]s: with [maxoff] at
    65535 the test [i <= maxoff] cannot fail and the loop does not end. *)
Definition genericPickSplit (giststate : GISTSTATE) (entryvec : GistEntryVector)
           (v : GIST_SPLITVEC) (attno : Z) : option GIST_SPLITVEC :=
  let maxoff := to_OffsetNumber (n entryvec - 1) in
  if maxoff =? MaxOffset then None
  else
    let g := fold_left (generic_step maxoff) (positions maxoff) no_groups in
    let nNW := length (g_NW g) in
    let nNE := length (g_NE g) in
    let nSW := length (g_SW g) in
    let nSE := length (g_SE g) in
    let evec (skip count : nat) := firstn count (skipn skip (vector entryvec)) in
    Some {| spl_NW := g_NW g;
            spl_NWdatum := unionFn giststate attno (evec 0%nat nNW);
            spl_NWdatum_exists := spl_NWdatum_exists v;
            spl_NE := g_NE g;
            spl_NEdatum := unionFn giststate attno (evec nNW nNE);
            spl_NEdatum_exists := spl_NEdatum_exists v;
            spl_SW := g_SW g;
            spl_SWdatum := unionFn giststate attno (evec (nNW + nNE)%nat nSW);
            spl_SWdatum_exists := spl_SWdatum_exists v;
            spl_SE := g_SE g;
            spl_SEdatum := unionFn giststate attno (evec (nNW + nNE + nSW)%nat nSE);
            spl_SEdatum_exists := spl_SEdatum_exists v |}.

(** ** The user picksplit method *)

(** [spl_*datum] and [spl_*datum_exists] prepared from the per-column
    arrays of [v], in case of a secondary split. *)
Definition prepare_datums (v : GistSplitVector) (attno : Z) (sv : GIST_SPLITVEC)
  : GIST_SPLITVEC :=
  {| spl_NW := spl_NW sv;
     spl_NWdatum := spl_NWattr v attno;
     spl_NWdatum_exists := if spl_NWisnull v attno then false else true;
     spl_NE := spl_NE sv;
     spl_NEdatum := spl_NEattr v attno;
     spl_NEdatum_exists := if spl_NEisnull v attno then false else true;
     spl_SW := spl_SW sv;
     spl_SWdatum := spl_SWattr v attno;
     spl_SWdatum_exists := if spl_SWisnull v attno then false else true;
     spl_SE := spl_SE sv;
     spl_SEdatum := spl_SEattr v attno;
     spl_SEdatum_exists := if spl_SEisnull v attno then false else true |}.

(** Hack for compatibility with old picksplit API: an invalid offset in
    the last slot of a non-empty array stands for the last entry. *)
Definition fix_last (a : list OffsetNumber) (entryvec : GistEntryVector)
  : list OffsetNumber :=
  if last a FirstOffsetNumber =? InvalidOffsetNumber
  then removelast a ++ [to_OffsetNumber (n entryvec - 1)]
  else a.

Definition fix_lasts (sv : GIST_SPLITVEC) (entryvec : GistEntryVector) : GIST_SPLITVEC :=
  with_groups sv {| g_NW := fix_last (spl_NW sv) entryvec;
                    g_NE := fix_last (spl_NE sv) entryvec;
                    g_SW := fix_last (spl_SW sv) entryvec;
                    g_SE := fix_last (spl_SE sv) entryvec |}.

Definition is_empty {A : Type} (l : list A) : bool :=
  match l with
  | [] => true
  | _ :: _ => false
  end.

(** Some group of the split is empty. *)
Definition degenerate (sv : GIST_SPLITVEC) : bool :=
  is_empty (spl_NW sv) || is_empty (spl_NE sv) ||
  is_empty (spl_SW sv) || is_empty (spl_SE sv).

(** The result is the value returned together with the updated [v]. *)
Definition gistUserPicksplit (entryvec : GistEntryVector) (attno : Z)
           (v : GistSplitVector) (itup : list IndexTuple) (giststate : GISTSTATE)
  : M (bool * GistSplitVector) :=
  let sv0 := prepare_datums v attno (splitVector v) in
  (* Let the opclass-specific PickSplit method do its thing. *)
  let sv1 := picksplitFn giststate attno entryvec sv0 in
  sv <-- (if degenerate sv1
          then
            (* User-defined picksplit failed to create an actual split:
               complain but cope, do a generic split. *)
            lift (genericPickSplit giststate entryvec
                    (prepare_datums v attno sv1) attno)
          else ret (fix_lasts sv1 entryvec)) ;;
  (* emit union datums computed by PickSplit back to v arrays *)
  ret (false,
       {| splitVector := sv;
          spl_NWattr := store (spl_NWattr v) attno (spl_NWdatum sv);
          spl_NWisnull := store (spl_NWisnull v) attno false;
          spl_NEattr := store (spl_NEattr v) attno (spl_NEdatum sv);
          spl_NEisnull := store (spl_NEisnull v) attno false;
          spl_SWattr := store (spl_SWattr v) attno (spl_SWdatum sv);
          spl_SWisnull := store (spl_SWisnull v) attno false;
          spl_SEattr := store (spl_SEattr v) attno (spl_SEdatum sv);
          spl_SEisnull := store (spl_SEisnull v) attno false;
          spl_dontcare := None |}).

(** ** Simply split page in quarters *)

Definition quarters_step (len : Z) (g : groups) (i : Z) : groups :=
  if i <? len ÷ 4 then to_NW g (to_OffsetNumber i)
  else if i <? len ÷ 2 then to_NE g (to_OffsetNumber i)
  else if i <? (3 * len) ÷ 4 then to_SW g (to_OffsetNumber i)
  else to_SE g (to_OffsetNumber i).

Definition gistSplitQuarters (v : GIST_SPLITVEC) (len : Z) : GIST_SPLITVEC :=
  with_groups v (fold_left (quarters_step len) (positions len) no_groups).

(** ** gistSplitByKey: main entry point for page-splitting algorithm *)

Definition set_splitVector (v : GistSplitVector) (sv : GIST_SPLITVEC) : GistSplitVector :=
  {| splitVector := sv;
     spl_NWattr := spl_NWattr v; spl_NWisnull := spl_NWisnull v;
     spl_NEattr := spl_NEattr v; spl_NEisnull := spl_NEisnull v;
     spl_SWattr := spl_SWattr v; spl_SWisnull := spl_SWisnull v;
     spl_SEattr := spl_SEattr v; spl_SEisnull := spl_SEisnull v;
     spl_dontcare := spl_dontcare v |}.

Definition set_dontcare (v : GistSplitVector) (dc : option (list bool)) : GistSplitVector :=
  {| splitVector := splitVector v;
     spl_NWattr := spl_NWattr v; spl_NWisnull := spl_NWisnull v;
     spl_NEattr := spl_NEattr v; spl_NEisnull := spl_NEisnull v;
     spl_SWattr := spl_SWattr v; spl_SWisnull := spl_SWisnull v;
     spl_SEattr := spl_SEattr v; spl_SEisnull := spl_SEisnull v;
     spl_dontcare := dc |}.

Definition set_NWisnull (v : GistSplitVector) (attno : Z) (b : bool) : GistSplitVector :=
  {| splitVector := splitVector v;
     spl_NWattr := spl_NWattr v; spl_NWisnull := store (spl_NWisnull v) attno b;
     spl_NEattr := spl_NEattr v; spl_NEisnull := spl_NEisnull v;
     spl_SWattr := spl_SWattr v; spl_SWisnull := spl_SWisnull v;
     spl_SEattr := spl_SEattr v; spl_SEisnull := spl_SEisnull v;
     spl_dontcare := spl_dontcare v |}.

Definition set_all_isnull (v : GistSplitVector) (attno : Z) (b : bool) : GistSplitVector :=
  {| splitVector := splitVector v;
     spl_NWattr := spl_NWattr v; spl_NWisnull := store (spl_NWisnull v) attno b;
     spl_NEattr := spl_NEattr v; spl_NEisnull := store (spl_NEisnull v) attno b;
     spl_SWattr := spl_SWattr v; spl_SWisnull := store (spl_SWisnull v) attno b;
     spl_SEattr := spl_SEattr v; spl_SEisnull := store (spl_SEisnull v) attno b;
     spl_dontcare := spl_dontcare v |}.

(** The first loop: the item array, and the tuples with null keys. *)
Definition make_entry (giststate : GISTSTATE) (attno : Z) (tup : IndexTuple) (i : Z)
  : GISTENTRY :=
  let d := index_getattr tup (attno + 1) in
  gistdentryinit giststate attno (fst d) (to_OffsetNumber i) false (snd d).

Definition make_entryvec (giststate : GISTSTATE) (attno : Z) (itup : list IndexTuple)
  : GistEntryVector :=
  let len := Z.of_nat (length itup) in
  {| n := len + 1;
     vector := map (fun p => make_entry giststate attno (fst p) (snd p))
                   (combine itup (positions len)) |}.

Definition null_offsets (attno : Z) (itup : list IndexTuple) : list OffsetNumber :=
  let len := Z.of_nat (length itup) in
  map (fun p => to_OffsetNumber (snd p))
      (filter (fun p => snd (index_getattr (fst p) (attno + 1)))
              (combine itup (positions len))).

(** The loop that sends the non-null tuples to the three other pages;
    [j] walks through [offNullTuples]. *)
Definition route_step (offNullTuples : list OffsetNumber) (st : Z * groups) (i : Z)
  : Z * groups :=
  let j := fst st in
  let g := snd st in
  if (j <? Z.of_nat (length offNullTuples)) &&
     (nth (Z.to_nat j) offNullTuples 0 =? i)
  then (j + 1, g)
  else
    let whichQuadrant := Z.rem i 3 in
    if whichQuadrant =? 0 then (j, to_NE g (to_OffsetNumber i))
    else if whichQuadrant =? 1 then (j, to_SW g (to_OffsetNumber i))
    else (j, to_SE g (to_OffsetNumber i)).

(** The branch taken when some keys, not all, are null. *)
Definition split_nulls (giststate : GISTSTATE) (itup : list IndexTuple)
           (v : GistSplitVector) (attno : Z) (offNullTuples : list OffsetNumber)
  : M GistSplitVector :=
  let len := Z.of_nat (length itup) in
  let g := snd (fold_left (route_step offNullTuples) (positions len) (0, no_groups)) in
  let sv := with_groups (splitVector v)
              {| g_NW := offNullTuples; g_NE := g_NE g; g_SW := g_SW g; g_SE := g_SE g |} in
  let v1 := set_NWisnull (set_splitVector v sv) attno true in
  (* Compute union keys, unless outer recursion level will handle it *)
  if (attno =? 0) && (natts giststate =? 1)
  then gistunionsubkey in_null_branch giststate itup (set_dontcare v1 None)
  else ret v1.

(** The don't-care tuples and their original positions. *)
Definition dontcare_tuples (itup : list IndexTuple) (dontcare : list bool)
  : option (list (IndexTuple * OffsetNumber)) :=
  let len := Z.of_nat (length itup) in
  fold_right (fun p acc =>
                obind (read dontcare (snd p)) (fun marked =>
                obind acc (fun l =>
                Some (if marked then (fst p, to_OffsetNumber (snd p)) :: l else l))))
             (Some []) (combine itup (positions len)).

(** [map[a[i] - 1]] for every [i]. *)
Fixpoint map_back (map_ : list OffsetNumber) (a : list OffsetNumber)
  : option (list OffsetNumber) :=
  match a with
  | [] => Some []
  | e :: rest =>
      obind (read map_ (e - 1)) (fun o =>
      obind (map_back map_ rest) (fun l => Some (o :: l)))
  end.

(** [fuel] bounds the depth of the recursion over the columns. *)
Fixpoint gistSplitByKey (fuel : nat) (itup : list IndexTuple)
         (giststate : GISTSTATE) (v : GistSplitVector) (attno : Z)
  : M GistSplitVector :=
  match fuel with
  | O => fail
  | S fuel' =>
      let len := Z.of_nat (length itup) in
      let entryvec := make_entryvec giststate attno itup in
      let offNullTuples := null_offsets attno itup in
      let nOffNullTuples := Z.of_nat (length offNullTuples) in
      v1 <-- (if nOffNullTuples =? len then
                (* All keys in attno column are null *)
                let v' := set_all_isnull v attno true in
                if attno + 1 <? natts giststate
                then gistSplitByKey fuel' itup giststate v' (attno + 1)
                else ret (set_splitVector v' (gistSplitQuarters (splitVector v') len))
              else if nOffNullTuples >? 0 then
                split_nulls giststate itup v attno offNullTuples
              else
                (* All keys are not-null, so apply user-defined PickSplit method *)
                r <-- gistUserPicksplit entryvec attno v itup giststate ;;
                let v' := snd r in
                if fst r then
                  match spl_dontcare v' with
                  | None =>
                      (* This split was actually degenerate *)
                      gistSplitByKey fuel' itup giststate v' (attno + 1)
                  | Some dontcare =>
                      dc <-- lift (dontcare_tuples itup dontcare) ;;
                      let newitup := map fst dc in
                      let map_ := map snd dc in
                      let backupSplit := splitVector v' in
                      (* Recursively decide how to split the don't-care tuples *)
                      v2 <-- gistSplitByKey fuel' newitup giststate v' (attno + 1) ;;
                      (* Merge result of subsplit with non-don't-care tuples *)
                      nw <-- lift (map_back map_ (spl_NW (splitVector v2))) ;;
                      ne <-- lift (map_back map_ (spl_NE (splitVector v2))) ;;
                      sw <-- lift (map_back map_ (spl_SW (splitVector v2))) ;;
                      se <-- lift (map_back map_ (spl_SE (splitVector v2))) ;;
                      ret (set_splitVector v2
                             (with_groups backupSplit
                                {| g_NW := spl_NW backupSplit ++ nw;
                                   g_NE := spl_NE backupSplit ++ ne;
                                   g_SW := spl_SW backupSplit ++ sw;
                                   g_SE := spl_SE backupSplit ++ se |}))
                  end
                else ret v') ;;
      (* In a multicolumn index, at the end of the recursion recompute the
         union datums for all index columns. *)
      if (attno =? 0) && (natts giststate >? 1)
      then gistunionsubkey at_end_of_split giststate itup (set_dontcare v1 None)
      else ret v1
  end.

(** ** Vocabulary of the statements *)

(** Every position from 1 to [len] occurs exactly once in the four
    groups taken together. *)
Definition complete (len : Z) (sv : GIST_SPLITVEC) : Prop :=
  Permutation (spl_NW sv ++ spl_NE sv ++ spl_SW sv ++ spl_SE sv) (positions len).

(** The positions of the tuples that satisfy [f]. *)
Definition entries_where (f : IndexTuple -> Z -> bool) (itup : list IndexTuple)
  : list Z :=
  map snd (filter (fun p => f (fst p) (snd p))
                  (combine itup (positions (Z.of_nat (length itup))))).

Definition is_null (attno : Z) (tup : IndexTuple) : bool :=
  snd (index_getattr tup (attno + 1)).

(** A non-null key at a position that leaves remainder [k] modulo 3. *)
Definition routed (attno k : Z) (tup : IndexTuple) (i : Z) : bool :=
  negb (is_null attno tup) && (i mod 3 =? k).

(** The state the branch for some null keys builds in [v]. *)
Definition nulls_apart (itup : list IndexTuple) (v : GistSplitVector) (attno : Z)
  : GistSplitVector :=
  set_NWisnull
    (set_splitVector v
       (with_groups (splitVector v)
          {| g_NW := entries_where (fun tup _ => is_null attno tup) itup;
             g_NE := entries_where (routed attno 0) itup;
             g_SW := entries_where (routed attno 1) itup;
             g_SE := entries_where (routed attno 2) itup |}))
    attno true.

(** [a + 1, ..., b]. *)
Definition between (a b : Z) : list Z :=
  map Z.of_nat (seq (S (Z.to_nat a)) (Z.to_nat b - Z.to_nat a)).

(** What the split expects of a picksplit method: when it fills all four
    groups, they hold every position once, an invalid offset in the last
    slot of a group standing for the last position. *)
Definition picksplit_splits (giststate : GISTSTATE) : Prop :=
  forall attno entryvec sv,
    let r := picksplitFn giststate attno entryvec sv in
    degenerate r = false ->
    complete (n entryvec - 1) (fix_lasts r entryvec).

End Split.

(** ** The loops, by the group each position goes to *)

(** A loop body that appends [f i] to the group [c i] selects. *)
Definition deal (c : Z -> Z) (f : Z -> OffsetNumber) (g : groups) (i : Z) : groups :=
  if c i =? 0 then to_NW g (f i)
  else if c i =? 1 then to_NE g (f i)
  else if c i =? 2 then to_SW g (f i)
  else to_SE g (f i).

Definition class_is (c : Z -> Z) (k : Z) (i : Z) : bool := c i =? k.
Definition class_rest (c : Z -> Z) (i : Z) : bool :=
  negb (c i =? 0) && negb (c i =? 1) && negb (c i =? 2).

Definition quarters_class (len i : Z) : Z :=
  if i <? len ÷ 4 then 0
  else if i <? len ÷ 2 then 1
  else if i <? (3 * len) ÷ 4 then 2
  else 3.

Definition generic_class (maxoff i : Z) : Z :=
  if i <=? (maxoff - FirstOffsetNumber + 1) ÷ 4 then 0
  else if i <=? (maxoff - FirstOffsetNumber + 1) ÷ 2 then 1
  else if i <=? (3 * (maxoff - FirstOffsetNumber + 1)) ÷ 4 then 2
  else 3.

Definition non_null_class {T} (p : T -> bool) (q : T * Z) : Z :=
  if p (fst q) then 3
  else if Z.rem (snd q) 3 =? 0 then 0
  else if Z.rem (snd q) 3 =? 1 then 1
  else 2.

(** ** Instances for worked examples *)

(** [gistdentryinit] for an operator class without a decompress method:
    the entry holds the datum as it is, a null key holds [0]. *)
Definition plain_gistdentryinit (giststate : GISTSTATE) (nkey : Z) (k : Datum)
           (o : OffsetNumber) (l isNull : bool) : GISTENTRY :=
  {| key := if isNull then 0 else k; offset := o; leafkey := l |}.

(** [gistMakeUnionItVec] through the union method of each column: the
    union of the non-null datums, null when there is none; a single datum
    is handed over twice. *)
Definition plain_gistMakeUnionItVec (giststate : GISTSTATE) (itvec : list IndexTuple)
  : (Z -> Datum) * (Z -> bool) :=
  let column (i : Z) :=
    flat_map (fun tup => match fst (index_getattr tup (i + 1)),
                               snd (index_getattr tup (i + 1)) with
                         | d, false => [plain_gistdentryinit giststate i d 0 false false]
                         | _, true => []
                         end) itvec in
  (fun i => match column i with
            | [] => 0
            | [e] => unionFn giststate i [e; e]
            | es => unionFn giststate i es
            end,
   fun i => is_empty (column i)).

(** A union method: the largest key. *)
Definition largest_key (attno : Z) (entries : list GISTENTRY) : Datum :=
  fold_right Z.max 0 (map key entries).

(** A picksplit method that deals the positions out in turn. *)
Definition deal_in_turn (attno : Z) (entryvec : GistEntryVector) (sv : GIST_SPLITVEC)
  : GIST_SPLITVEC :=
  let ps := positions (n entryvec - 1) in
  with_groups sv {| g_NW := filter (fun i => i mod 4 =? 0) ps;
                    g_NE := filter (fun i => i mod 4 =? 1) ps;
                    g_SW := filter (fun i => i mod 4 =? 2) ps;
                    g_SE := filter (fun i => negb (i mod 4 =? 0) && negb (i mod 4 =? 1)
                                             && negb (i mod 4 =? 2)) ps |}.

(** A picksplit method that leaves everything in one group. *)
Definition all_in_NW (attno : Z) (entryvec : GistEntryVector) (sv : GIST_SPLITVEC)
  : GIST_SPLITVEC :=
  with_groups sv {| g_NW := positions (n entryvec - 1);
                    g_NE := []; g_SW := []; g_SE := [] |}.

(** A picksplit method that names the first position in every group. *)
Definition first_everywhere (attno : Z) (entryvec : GistEntryVector) (sv : GIST_SPLITVEC)
  : GIST_SPLITVEC :=
  with_groups sv {| g_NW := [1]; g_NE := [1]; g_SW := [1]; g_SE := [1] |}.

Definition one_column (picksplit : Z -> GistEntryVector -> GIST_SPLITVEC -> GIST_SPLITVEC)
  : GISTSTATE :=
  {| natts := 1; picksplitFn := picksplit; unionFn := largest_key |}.

Definition blank_splitvec : GIST_SPLITVEC :=
  {| spl_NW := []; spl_NWdatum := 0; spl_NWdatum_exists := false;
     spl_NE := []; spl_NEdatum := 0; spl_NEdatum_exists := false;
     spl_SW := []; spl_SWdatum := 0; spl_SWdatum_exists := false;
     spl_SE := []; spl_SEdatum := 0; spl_SEdatum_exists := false |}.

(** The working state as the caller hands it over: every union key null. *)
Definition blank_vector : GistSplitVector :=
  {| splitVector := blank_splitvec;
     spl_NWattr := fun _ => 0; spl_NWisnull := fun _ => true;
     spl_NEattr := fun _ => 0; spl_NEisnull := fun _ => true;
     spl_SWattr := fun _ => 0; spl_SWisnull := fun _ => true;
     spl_SEattr := fun _ => 0; spl_SEisnull := fun _ => true;
     spl_dontcare := None |}.

(** Pages of single-column tuples. *)
Definition six_keys : list IndexTuple :=
  [[Some 10]; [Some 20]; [Some 30]; [Some 40]; [Some 50]; [Some 60]].

Definition four_keys : list IndexTuple :=
  [[Some 10]; [Some 20]; [Some 30]; [Some 40]].

Definition keys_and_nulls : list IndexTuple :=
  [[Some 10]; [None]; [Some 30]; [Some 40]; [None]; [Some 60]; [Some 70]].

(** ** Vocabulary for the union keys *)

(** The entries of the item array at the positions of a group;
    [vector[i]] is the entry of position [i]. *)
Definition entries_at (entryvec : GistEntryVector) (g : list OffsetNumber)
  : list GISTENTRY :=
  flat_map (fun i => match read (vector entryvec) (i - 1) with
                     | Some e => [e]
                     | None => []
                     end) g.

(** The tuples of the page at the positions of a group; position [e] is
    [itvec[e - 1]]. *)
Definition tuples_at (itvec : list IndexTuple) (g : list OffsetNumber)
  : list IndexTuple :=
  flat_map (fun e => match read itvec (e - 1) with
                     | Some tup => [tup]
                     | None => []
                     end) g.

(** The union keys of [v], columns 0 to [natts - 1], are those that
    [gistMakeUnionItVec] forms over the tuples of each of the four groups. *)
Definition union_keys_stored
           (gistMakeUnionItVec : GISTSTATE -> list IndexTuple -> (Z -> Datum) * (Z -> bool))
           (giststate : GISTSTATE) (itup : list IndexTuple) (v : GistSplitVector)
  : Prop :=
  let u (g : list OffsetNumber) := gistMakeUnionItVec giststate (tuples_at itup g) in
  forall j, 0 <= j < natts giststate ->
    (spl_NWattr v j = fst (u (spl_NW (splitVector v))) j /\
     spl_NWisnull v j = snd (u (spl_NW (splitVector v))) j) /\
    (spl_NEattr v j = fst (u (spl_NE (splitVector v))) j /\
     spl_NEisnull v j = snd (u (spl_NE (splitVector v))) j) /\
    (spl_SWattr v j = fst (u (spl_SW (splitVector v))) j /\
     spl_SWisnull v j = snd (u (spl_SW (splitVector v))) j) /\
    (spl_SEattr v j = fst (u (spl_SE (splitVector v))) j /\
     spl_SEisnull v j = snd (u (spl_SE (splitVector v))) j).

(** Position [e] carries a don't-care mark. *)
Definition marked (dontcare : option (list bool)) (e : OffsetNumber) : bool :=
  match dontcare with
  | Some dc => match read dc e with
               | Some b => b
               | None => false
               end
  | None => false
  end.

(** ** Removing don't-care tuples from a group *)

(** [a[i] = v] with the index checked. *)
Definition write {A : Type} (a : list A) (i : Z) (v : A) : option (list A) :=
  if (0 <=? i) && (i <? Z.of_nat (length a))
  then Some (firstn (Z.to_nat i) a ++ v :: skipn (S (Z.to_nat i)) a)
  else None.

(** The body of the loop of [removeDontCares].  The state is the array
    [a], the write position [curwpos] as an index into [a], and [newlen]. *)
Definition remove_step (dontcare : list bool) (st : list OffsetNumber * Z * Z) (i : Z)
  : option (list OffsetNumber * Z * Z) :=
  let a := fst (fst st) in
  let curwpos := snd (fst st) in
  let newlen := snd st in
  obind (read a i) (fun ai =>
  obind (read dontcare ai) (fun mark =>
  if negb mark
  then (* re-emit item into a[] *)
    obind (write a curwpos ai) (fun a' => Some (a', curwpos + 1, newlen))
  else Some (a, curwpos, newlen - 1))).

Fixpoint remove_loop (dontcare : list bool) (counter : list Z)
         (st : list OffsetNumber * Z * Z) : option (list OffsetNumber * Z * Z) :=
  match counter with
  | [] => Some st
  | i :: rest => obind (remove_step dontcare st i) (remove_loop dontcare rest)
  end.

(** The array after the call and the new [*len]. *)
Definition removeDontCares (a : list OffsetNumber) (len : Z) (dontcare : list bool)
  : option (list OffsetNumber * Z) :=
  let origlen := len in
  obind (remove_loop dontcare (map Z.of_nat (seq 0 (Z.to_nat origlen))) (a, 0, len))
        (fun st => Some (fst (fst st), snd st)).

(** The first [len] elements of [a] without those marked in [dontcare]. *)
Definition unmarked_of (a : list OffsetNumber) (len : Z) (dontcare : list bool)
  : list OffsetNumber :=
  filter (fun e => negb (marked (Some dontcare) e)) (firstn (Z.to_nat len) a).

(** ** Vocabulary for the entry point *)

(** The calls of [gistunionsubkey] a call of the entry point for column
    [attno] makes: none below the top level; at the top level one at the
    end for an index of several columns, and for an index of one column
    one in the branch for some null keys. *)
Definition union_calls (giststate : GISTSTATE) (itup : list IndexTuple) (attno : Z)
  : list event :=
  let nOffNullTuples := Z.of_nat (length (null_offsets attno itup)) in
  let len := Z.of_nat (length itup) in
  if negb (attno =? 0) then []
  else if natts giststate >? 1 then [gistunionsubkey_called at_end_of_split]
  else if (natts giststate =? 1) && negb (nOffNullTuples =? len)
          && (nOffNullTuples >? 0)
       then [gistunionsubkey_called in_null_branch]
  else [].

(** The null flags of the four union keys set for [k] columns from
    [attno] on. *)
Fixpoint mark_null_columns (k : nat) (attno : Z) (v : GistSplitVector)
  : GistSplitVector :=
  match k with
  | O => v
  | S k' => mark_null_columns k' (attno + 1) (set_all_isnull v attno true)
  end.

(** Two tuples hold the same value, or both a null, in column [attno]. *)
Definition same_key (attno : Z) (tup tup' : IndexTuple) : Prop :=
  index_getattr tup (attno + 1) = index_getattr tup' (attno + 1).

Definition two_columns (picksplit : Z -> GistEntryVector -> GIST_SPLITVEC -> GIST_SPLITVEC)
  : GISTSTATE :=
  {| natts := 2; picksplitFn := picksplit; unionFn := largest_key |}.

(** Pages of two-column tuples: nine tuples without a key, and two pages
    of four tuples with the same first keys. *)
Definition null_page : list IndexTuple := repeat [None; None] 9.

Definition four_pairs : list IndexTuple :=
  [[Some 10; Some 1]; [Some 20; Some 2]; [Some 30; Some 3]; [Some 40; Some 4]].

Definition four_other_pairs : list IndexTuple :=
  [[Some 10; None]; [Some 20; Some 7]; [Some 30; None]; [Some 40; Some 9]].

(** An item array of nine entries with the keys 10, 20, ..., 90. *)
Definition nine_entries : GistEntryVector :=
  {| n := 10;
     vector := map (fun i => {| key := 10 * i; offset := i; leafkey := true |})
                   (positions 9) |}.

End GistSplit.

(* ================================================================== *)
(** * Part III: properties of the loose quadtree *)
(* ================================================================== *)

Module LooseQuadtreeFacts.
Import LooseQuadtree.

(** ** Boolean comparisons reflect the order of [Q] *)

Lemma Qge_bool_iff a b : Qge_bool a b = true <-> (b <= a)%Q.
Proof. unfold Qge_bool. apply Qle_bool_iff. Qed.

Lemma Qle_bool_false a b : Qle_bool a b = false <-> (b < a)%Q.
Proof.
  split; intro H.
  - apply Qnot_le_lt. intro Hle. apply Qle_bool_iff in Hle. congruence.
  - destruct (Qle_bool a b) eqn:E; [|reflexivity].
    apply Qle_bool_iff in E. exfalso. apply (Qlt_not_le _ _ H E).
Qed.

Lemma Qge_bool_false a b : Qge_bool a b = false <-> (a < b)%Q.
Proof. unfold Qge_bool. apply Qle_bool_false. Qed.

Lemma Qge_bool_refl a : Qge_bool a a = true.
Proof. apply Qge_bool_iff. apply Qle_refl. Qed.

Lemma bound_le_refl a : bound_le a a.
Proof. destruct a; simpl; auto. apply Qle_refl. Qed.

Lemma bound_le_trans a b c : bound_le a b -> bound_le b c -> bound_le a c.
Proof.
  destruct a, b, c; simpl; auto; try contradiction.
  apply Qle_trans.
Qed.

(** ** Tolerant comparisons are monotone *)

(** If [a' <= a] and [a] is tolerantly below [b], so is [a']. *)
Lemma FPle_mono_l eps a a' b :
  bound_le a' a -> FPle eps a b = true -> FPle eps a' b = true.
Proof.
  unfold FPle.
  destruct a, a', b; simpl; intros Hle H; try contradiction;
    try reflexivity; try discriminate.
  apply Qle_bool_iff in H. apply Qle_bool_iff. lra.
Qed.

(** If [a <= a'] and [a] is tolerantly above [b], so is [a']. *)
Lemma FPge_mono_l eps a a' b :
  bound_le a a' -> FPge eps a b = true -> FPge eps a' b = true.
Proof.
  unfold FPge.
  destruct a, a', b; simpl; intros Hle H; try contradiction;
    try reflexivity; try discriminate.
  apply Qle_bool_iff in H. apply Qle_bool_iff. lra.
Qed.

Lemma FPle_FPge eps a b : FPle eps a b = FPge eps b a.
Proof. reflexivity. Qed.

Lemma overlap2D_sound eps (rb : RangeBox) (q : Range) (lo hi : bound) :
  in_range lo (left rb) -> in_range hi (right rb) ->
  FPle eps lo (rhigh q) = true -> FPle eps (rlow q) hi = true ->
  overlap2D eps rb q = true.
Proof.
  intros [Hlo _] [_ Hhi] H1 H2. unfold overlap2D.
  apply andb_true_iff. split.
  - rewrite FPle_FPge in H2. apply (FPge_mono_l _ _ _ _ Hhi H2).
  - apply (FPle_mono_l _ _ _ _ Hlo H1).
Qed.

(** With a tolerance that is not negative, boxes that share a point
    overlap for [box_ov] too, so the region test is sound for them as
    well. *)
Lemma boxes_meet_box_ov EPSILON B1 B2 :
  (0 <= EPSILON)%Q -> boxes_meet B1 B2 -> box_ov EPSILON B1 B2 = true.
Proof.
  intros He (H1 & H2 & H3 & H4). unfold box_ov, FPle. simpl.
  rewrite !andb_true_iff. repeat split; apply Qle_bool_iff; lra.
Qed.

(** ** Containment after one propagation step *)

Lemma sub_range_refl r : sub_range r r.
Proof. split; apply bound_le_refl. Qed.

Lemma sub_range_step (r : Range) (c : bound) (b : bool) :
  in_range c r ->
  sub_range (if b then set_low r c else set_high r c) r.
Proof.
  intros [Hl Hh]. destruct b; split; simpl; auto using bound_le_refl.
Qed.

(** ** Quadrants *)

Lemma getQuadrant_spec centroid inBox :
  getQuadrant centroid inBox =
  (if dge (centreY inBox) (centreY centroid) then 0 else 2) +
  (if dge (centreX inBox) (centreX centroid) then 1 else 0).
Proof.
  unfold getQuadrant, centreX, centreY.
  destruct (dge _ _), (dge _ _); reflexivity.
Qed.

(** [>=] holds between a double and itself, unless it is NaN. *)
Lemma dge_refl (b : bound) : dge (Some b) (Some b) = true.
Proof.
  destruct b as [|q|]; try reflexivity. apply Qle_bool_iff, Qle_refl.
Qed.

Lemma dge_NaN_l (a : double) : dge NaN a = false.
Proof. reflexivity. Qed.

Lemma deq_dge (a b : double) : deq a b = true -> dge a b = true.
Proof. unfold deq. intros H. now apply andb_true_iff in H. Qed.

(** The midpoint of two finite coordinates is never NaN (it is infinite
    when the difference is beyond the largest double). *)
Lemma midpoint_finite (lo hi : Q) :
  exists b, midpoint (finite lo) (finite hi) = Some b.
Proof.
  unfold midpoint, dsub, dopp, finite. cbn [dadd bound_opp].
  destruct (binary64 (hi + - lo)) as [|p|]; cbn [ddiv].
  - change (Qle_bool 0 2) with true. cbn [dadd]. now eexists.
  - change (Qeq_bool 2 0) with false. cbn [dadd].
    destruct (binary64 (p / 2)); now eexists.
  - change (Qle_bool 0 2) with true. cbn [dadd]. now eexists.
Qed.

Lemma overlap4D_covers (EPSILON : Q) (R : RectBox) (query B : BOX) :
  bounded_by B R ->
  box_ov EPSILON B query = true ->
  overlap4D EPSILON R (getRangeBox query) = true.
Proof.
  intros (Hxl & Hxh & Hyl & Hyh) Hov.
  unfold box_ov in Hov.
  repeat (apply andb_true_iff in Hov; destruct Hov as [Hov ?]).
  unfold overlap4D. apply andb_true_iff. split.
  - apply (overlap2D_sound _ _ _ _ _ Hxl Hxh); simpl; assumption.
  - apply (overlap2D_sound _ _ _ _ _ Hyl Hyh); simpl; assumption.
Qed.

(** C1.  Soundness of the region-level overlap test: whenever a box [B]
    has each of its four coordinates inside the matching range of the
    traversal value [R] and [B] overlaps the query box, [overlap4D] answers
    true on [R] and the query; so a false answer of [overlap4D] rules out
    every box bounded by [R]. *)
Theorem overlap4D_sound (EPSILON : Q) (R : RectBox) (query B : BOX) :
  bounded_by B R ->
  box_ov EPSILON B query = true ->
  overlap4D EPSILON R (getRangeBox query) = true.
Proof.
  intros (Hxl & Hxh & Hyl & Hyh) Hov.
  unfold box_ov in Hov.
  apply andb_true_iff in Hov. destruct Hov as [Hov Hy2].
  apply andb_true_iff in Hov. destruct Hov as [Hov Hy1].
  apply andb_true_iff in Hov. destruct Hov as [Hx1 Hx2].
  unfold overlap4D, overlap2D. cbn [getRangeBox left right rlow rhigh].
  rewrite !andb_true_iff. repeat split.
  - (* the high x of B is at most the upper bound of its range *)
    rewrite FPle_FPge in Hx2. exact (FPge_mono_l _ _ _ _ (proj2 Hxh) Hx2).
  - (* the low x of B is at least the lower bound of its range *)
    exact (FPle_mono_l _ _ _ _ (proj1 Hxl) Hx1).
  - rewrite FPle_FPge in Hy2. exact (FPge_mono_l _ _ _ _ (proj2 Hyh) Hy2).
  - exact (FPle_mono_l _ _ _ _ (proj1 Hyl) Hy1).
Qed.

(** The same fact read the other way: a false [overlap4D] leaves no
    overlapping box under the traversal value. *)
Corollary overlap4D_false_prunes (EPSILON : Q) (R : RectBox) (query B : BOX) :
  overlap4D EPSILON R (getRangeBox query) = false ->
  bounded_by B R ->
  box_ov EPSILON B query = false.
Proof.
  intros Hf Hb. destruct (box_ov EPSILON B query) eqn:E; [|reflexivity].
  assert (Hs : overlap4D EPSILON R (getRangeBox query) = true).
  { apply (overlap4D_covers EPSILON R query B Hb E). }
  congruence.
Qed.

Corollary overlap4D_covers_meeting_boxes (EPSILON : Q) (R : RectBox) (query B : BOX) :
  (0 <= EPSILON)%Q ->
  bounded_by B R ->
  boxes_meet B query ->
  overlap4D EPSILON R (getRangeBox query) = true.
Proof.
  intros He Hb Hm. apply (overlap4D_covers EPSILON R query B Hb).
  apply boxes_meet_box_ov; assumption.
Qed.

(** C2 on the code.  [nextRectBox] writes the centroid's bound into the
    copy without comparing it with the bound already there; it is written
    for centroids that lie in the traversal value ("All centroids are
    bounded by RectBox"), which this code does not see to.  Below the root
    centroid (0,0)-(10,10) the box (6,6)-(10,10) is in quadrant 1, and the
    traversal value of node 1 bounds the low x of a box above by 0.  A
    node there with the prefix (6,6)-(10,10) has its centroid outside that
    traversal value, and for each of its nodes 0..3 the step moves the
    upper bound of the low x from 0 to 6, outside the parent's range. *)
Theorem nextRectBox_can_leave_parent :
  getQuadrant unit_centroid child_prefix = 1 /\
  ~ centroid_in (getRangeBox child_prefix) node_1_value /\
  Forall (fun q =>
            ~ sub_rect (nextRectBox node_1_value (getRangeBox child_prefix) q)
                       node_1_value)
         [0; 1; 2; 3].
Proof.
  split; [vm_compute; reflexivity|]. split.
  - unfold centroid_in, in_range. simpl.
    intros [[_ H] _]. revert H. unfold Qle. simpl. lia.
  - repeat constructor; unfold sub_rect, sub_range; simpl;
      intros [[_ H] _]; revert H; unfold Qle; simpl; lia.
Qed.

(** X22.  What the step does when the centroid does lie in the traversal
    value: each of the four coordinates of the centroid in the matching
    range of [R] makes every range of [nextRectBox R C q] a sub-interval
    of the matching range of [R], for every quadrant [q]. *)
Theorem nextRectBox_shrinks (R : RectBox) (C : RangeBox) (q : Z) :
  centroid_in C R ->
  sub_rect (nextRectBox R C q) R.
Proof.
  intros (H1 & H2 & H3 & H4).
  unfold sub_rect, nextRectBox. cbn [range_box_x range_box_y left right].
  repeat split; apply sub_range_step; assumption.
Qed.

Lemma nextRectBox_shrinks_witness :
  centroid_in inner_centroid inner_parent /\
  sub_rect (nextRectBox inner_parent inner_centroid 5) inner_parent.
Proof.
  assert (H : centroid_in inner_centroid inner_parent).
  { unfold centroid_in, in_range. simpl. unfold Qle. simpl. lia. }
  split; [exact H | apply (nextRectBox_shrinks _ _ 5 H)].
Defined.

(** C6 as stated fails on two counts.  A tie in y does not go to the
    higher-numbered quadrant of the two that lie one above the other: the
    box (1,4)-(3,6) has the centre height of the centroid (0,0)-(10,10)
    and is in quadrant 0, not 2.  And not every box is in quadrant 1
    against itself: with NaN coordinates every comparison is false and the
    answer is 2. *)
Lemma getQuadrant_tie_in_y_and_NaN :
  deq (centreY left_of_centre) (centreY unit_centroid) = true /\
  getQuadrant unit_centroid left_of_centre = 0 /\
  getQuadrant nan_box nan_box = 2.
Proof. repeat split; vm_compute; reflexivity. Qed.

(** C6, amended.  [getQuadrant] answers one of 0, 1, 2, 3 for boxes of
    any doubles.  The comparisons are [>=] on the centre coordinates as
    computed in doubles: equal centres in y select the upper pair 0/1
    (the lower-numbered of the two rows), equal centres in x the
    right-hand, higher-numbered member of the row (1 or 3).  A box of
    finite coordinates, and any box whose two centre coordinates are not
    NaN, is in quadrant 1 against itself; a box whose two centre
    coordinates are NaN is in quadrant 2 against every centroid. *)
Theorem getQuadrant_total_ties :
  (forall centroid box : raw_BOX, In (getQuadrant centroid box) [0; 1; 2; 3]) /\
  (forall centroid box : raw_BOX, deq (centreY box) (centreY centroid) = true ->
     In (getQuadrant centroid box) [0; 1]) /\
  (forall centroid box : raw_BOX, deq (centreX box) (centreX centroid) = true ->
     In (getQuadrant centroid box) [1; 3]) /\
  (forall B : BOX, getQuadrant B B = 1) /\
  (forall B : raw_BOX, centreX B <> NaN -> centreY B <> NaN -> getQuadrant B B = 1) /\
  (forall centroid B : raw_BOX, centreX B = NaN -> centreY B = NaN ->
     getQuadrant centroid B = 2).
Proof.
  assert (Hself : forall B : raw_BOX,
            centreX B <> NaN -> centreY B <> NaN -> getQuadrant B B = 1).
  { intros B Hx Hy. rewrite getQuadrant_spec.
    destruct (centreX B) as [bx|]; [|now contradiction Hx].
    destruct (centreY B) as [by_|]; [|now contradiction Hy].
    now rewrite !dge_refl. }
  split; [|split; [|split; [|split; [|split]]]].
  - intros c b. rewrite getQuadrant_spec.
    destruct (dge _ _), (dge _ _); simpl; auto.
  - intros c b H. rewrite getQuadrant_spec. rewrite (deq_dge _ _ H).
    destruct (dge (centreX b) (centreX c)); simpl; auto.
  - intros c b H. rewrite getQuadrant_spec. rewrite (deq_dge _ _ H).
    destruct (dge (centreY b) (centreY c)); simpl; auto.
  - intros B. apply Hself.
    + unfold centreX. cbn [raw raw_low raw_high raw_x].
      destruct (midpoint_finite (x (low B)) (x (high B))) as [b ->]. discriminate.
    + unfold centreY. cbn [raw raw_low raw_high raw_y].
      destruct (midpoint_finite (y (low B)) (y (high B))) as [b ->]. discriminate.
  - exact Hself.
  - intros c B Hx Hy. rewrite getQuadrant_spec, Hx, Hy. reflexivity.
Qed.

Lemma getQuadrant_total_ties_witness :
  deq (centreX below_centre) (centreX unit_centroid) = true /\
  getQuadrant unit_centroid below_centre = 3 /\
  In (getQuadrant unit_centroid below_centre) [1; 3].
Proof.
  assert (H : deq (centreX below_centre) (centreX unit_centroid) = true)
    by (vm_compute; reflexivity).
  split; [exact H|]. split; [vm_compute; reflexivity|].
  exact (proj1 (proj2 (proj2 getQuadrant_total_ties)) unit_centroid below_centre H).
Defined.

(** ** The choose function *)

(** The loop unrolled from its last turn. *)
Lemma descend_unfold n currentBox box q :
  Choose.descend (S n) currentBox box q =
  (s <- Choose.step currentBox box ;; Choose.descend n (fst s) box (snd s)).
Proof. reflexivity. Qed.

Lemma descend_last n : forall currentBox box q,
  Choose.descend (S n) currentBox box q =
  (s <- Choose.descend n currentBox box q ;; Choose.step (fst s) box).
Proof.
  induction n as [|n IH]; intros cb box q.
  - simpl. destruct (Choose.step cb box) as [[b' q']|]; reflexivity.
  - rewrite (descend_unfold (S n)), (descend_unfold n cb).
    destruct (Choose.step cb box) as [[b' q']|]; [|reflexivity].
    cbn [bind fst snd]. apply IH.
Qed.

Lemma step_quadrant currentBox box s :
  Choose.step currentBox box = Some s -> snd s = getQuadrant currentBox box.
Proof.
  unfold Choose.step. intros H.
  destruct (double_to_int _); simpl in H; [|discriminate].
  destruct (double_to_int _); simpl in H; [|discriminate].
  inversion H. reflexivity.
Qed.

(** With at least one simulated level, the quadrant that comes out of the
    loop is [getQuadrant] against the box the last turn started from. *)
Lemma descend_returns_last_quadrant n centroid box r :
  Choose.descend (S n) centroid box 0 = Some r ->
  exists cur, Choose.descend n centroid box 0 = Some cur /\
              snd r = getQuadrant (fst cur) box.
Proof.
  rewrite descend_last. intros H.
  destruct (Choose.descend n centroid box 0) as [cur|]; simpl in H; [|discriminate].
  exists cur. split; [reflexivity|]. apply (step_quadrant _ _ _ H).
Qed.

(** With no simulated level the loop body never runs and the quadrant
    keeps the value it was initialised with. *)
Lemma choose_no_level (i : Choose.spgChooseIn) :
  Choose.allTheSame i = false ->
  Choose.levelDifference (Choose.prefixDatum i) (Choose.leafDatum i) (Choose.level i)
    = Some 0 ->
  Choose.spg_loose_quad_choose i =
  Some {| Choose.resultType := Choose.spgMatchNode;
          Choose.restDatum := Choose.leafDatum i;
          Choose.levelAdd := Some 0;
          Choose.nodeN := Some 0 |}.
Proof.
  intros Ha Hd. unfold Choose.spg_loose_quad_choose. rewrite Ha, Hd. reflexivity.
Qed.

(** C5 on the code.  For the centroid (0,0)-(10,10) and the box
    (5,5)-(15,15) at level 0 the level equation gives [levelAdd = 0]; the
    function then answers node 0, while the classification of the box
    against the centroid, [getQuadrant], is quadrant 1. *)
Theorem choose_levelAdd_zero_ignores_quadrant :
  Choose.spg_loose_quad_choose
    {| Choose.prefixDatum := unit_centroid; Choose.leafDatum := large_box;
       Choose.level := 0; Choose.allTheSame := false |}
  = Some {| Choose.resultType := Choose.spgMatchNode;
            Choose.restDatum := large_box;
            Choose.levelAdd := Some 0;
            Choose.nodeN := Some 0 |}
  /\ getQuadrant unit_centroid large_box = 1.
Proof. split; vm_compute; reflexivity. Qed.

(** ** The pick-split function *)

Lemma insert_length v l : length (PickSplit.insert v l) = S (length l).
Proof.
  induction l as [|h t IH]; simpl; [reflexivity|].
  destruct (_ <=? _); simpl; [reflexivity | now rewrite IH].
Qed.

Lemma qsort_length l : length (PickSplit.qsort l) = length l.
Proof.
  induction l as [|h t IH]; simpl; [reflexivity|].
  now rewrite insert_length, IH.
Qed.

(** Reading an array at its length leaves the array. *)
Lemma read_at_length (a : list Q) : PickSplit.read a (Z.of_nat (length a)) = None.
Proof.
  unfold PickSplit.read.
  destruct (Z.ltb_spec (Z.of_nat (length a)) 0); [reflexivity|].
  rewrite Nat2Z.id. apply nth_error_None. apply Nat.le_refl.
Qed.

(** C10 on the code.  Whatever the input, the centroid computation reads
    [highXs[in->nTuples]], one element past the end of an array of
    [in->nTuples] elements: with reads that answer [None] outside the
    array, the computation never yields a centroid. *)
Theorem picksplit_centroid_reads_past_end (i : PickSplit.spgPickSplitIn) :
  PickSplit.centroid_of i = None.
Proof.
  unfold PickSplit.centroid_of.
  destruct (PickSplit.read _ 0); simpl; [|reflexivity].
  destruct (PickSplit.read _ 0); simpl; [|reflexivity].
  unfold PickSplit.nTuples.
  replace (length (PickSplit.datums i))
    with (length (PickSplit.qsort (map (fun box => x (high box)) (PickSplit.datums i))))
    at 1 by (rewrite qsort_length; apply length_map).
  rewrite read_at_length. reflexivity.
Qed.

(** ** The consistent functions *)

Ltac not_this_case H :=
  match goal with
  | |- context [?s =? ?k] =>
      destruct (Z.eqb_spec s k) as [->|_];
      [exfalso; apply H; unfold supported_strategies; simpl; tauto|]
  end.

Lemma region_test_unrecognized EPSILON strategy R q :
  ~ In strategy supported_strategies ->
  InnerConsistent.region_test EPSILON strategy R q
  = Error (unrecognized_strategy strategy).
Proof.
  intros H. unfold InnerConsistent.region_test.
  repeat not_this_case H. reflexivity.
Qed.

Lemma exact_test_unrecognized call strategy leaf query :
  ~ In strategy supported_strategies ->
  LeafConsistent.exact_test call strategy leaf query
  = Error (unrecognized_strategy strategy).
Proof.
  intros H. unfold LeafConsistent.exact_test.
  repeat not_this_case H. reflexivity.
Qed.

Lemma region_test_supported EPSILON strategy R q :
  In strategy supported_strategies ->
  is_error (InnerConsistent.region_test EPSILON strategy R q) = false.
Proof.
  unfold supported_strategies. simpl.
  intros H. repeat (destruct H as [<-|H]; [reflexivity|]). contradiction.
Qed.

Lemma exact_test_supported call strategy leaf query :
  In strategy supported_strategies ->
  is_error (LeafConsistent.exact_test call strategy leaf query) = false.
Proof.
  unfold supported_strategies. simpl.
  intros H. repeat (destruct H as [<-|H]; [reflexivity|]). contradiction.
Qed.

(** A key whose strategy has no case is reached, and ends the loop in an
    error, whenever every key before it passes. *)
Lemma check_keys_reaches EPSILON R pre sk q post :
  InnerConsistent.check_keys EPSILON R pre = Ok true ->
  ~ In (sk_strategy sk) supported_strategies ->
  InnerConsistent.check_keys EPSILON R (pre ++ (sk, q) :: post)
  = Error (unrecognized_strategy (sk_strategy sk)).
Proof.
  intros Hpre Hs. induction pre as [|[sk' q'] pre IH]; simpl in *.
  - now rewrite (region_test_unrecognized _ _ _ _ Hs).
  - destruct (InnerConsistent.region_test EPSILON (sk_strategy sk') R q')
      as [[|]|e]; simpl in *; try discriminate. now apply IH.
Qed.

Lemma compare_keys_reaches call leaf pre sk post : forall recheck recheck',
  LeafConsistent.compare_keys call leaf pre recheck = Ok (true, recheck') ->
  ~ In (sk_strategy sk) supported_strategies ->
  is_error (LeafConsistent.compare_keys call leaf (pre ++ sk :: post) recheck) = true.
Proof.
  induction pre as [|sk' pre IH]; intros rc rc' Hpre Hs; simpl in *.
  - destruct (spg_box_quad_get_scankey_bbox sk (Some rc)) as [b|e]; [|reflexivity].
    simpl. now rewrite (exact_test_unrecognized _ _ _ _ Hs).
  - destruct (spg_box_quad_get_scankey_bbox sk' (Some rc)) as [b|e];
      simpl in *; [|discriminate].
    destruct (LeafConsistent.exact_test call (sk_strategy sk') leaf (fst b))
      as [[|]|e]; simpl in *; try discriminate.
    apply (IH _ _ Hpre Hs).
Qed.

Lemma inner_consistent_first_key EPSILON (i : InnerConsistent.spgInnerConsistentIn)
      sk rest :
  InnerConsistent.allTheSame i = false ->
  0 < InnerConsistent.nNodes i ->
  InnerConsistent.scankeys i = sk :: rest ->
  ~ In (sk_strategy sk) supported_strategies ->
  is_error (InnerConsistent.spg_loose_quad_inner_consistent EPSILON i) = true.
Proof.
  intros Ha Hn Hk Hs. unfold InnerConsistent.spg_loose_quad_inner_consistent.
  rewrite Ha, Hk. cbn [InnerConsistent.get_queries].
  destruct (spg_box_quad_get_scankey_bbox sk None) as [b|e]; [|reflexivity].
  cbn [rbind].
  destruct (InnerConsistent.get_queries rest) as [qs|e]; [|reflexivity].
  cbn [rbind combine]. unfold InnerConsistent.node_range.
  destruct (Z.to_nat (InnerConsistent.nNodes i)) as [|k] eqn:Ek; [lia|].
  cbn [seq map InnerConsistent.visit_nodes InnerConsistent.check_keys].
  rewrite (region_test_unrecognized _ _ _ _ Hs). reflexivity.
Qed.

Lemma leaf_consistent_first_key call (i : LeafConsistent.spgLeafConsistentIn) sk rest :
  LeafConsistent.scankeys i = sk :: rest ->
  ~ In (sk_strategy sk) supported_strategies ->
  is_error (LeafConsistent.spg_loose_quad_leaf_consistent call i) = true.
Proof.
  intros Hk Hs. unfold LeafConsistent.spg_loose_quad_leaf_consistent.
  rewrite Hk. cbn [LeafConsistent.compare_keys].
  destruct (spg_box_quad_get_scankey_bbox sk (Some false)) as [b|e]; [|reflexivity].
  cbn [rbind]. rewrite (exact_test_unrecognized _ _ _ _ Hs). reflexivity.
Qed.

(** C8.  A strategy number for which the consistent functions have no
    case is an error, in the region test of the inner function and in the
    exact test of the leaf function alike: the [switch] ends in
    [elog(ERROR)] with that number, and no answer is produced.  A strategy
    with a case never reaches the error.  When the first scan key carries
    such a number, the inner function (asked about at least one node of a
    node that is not all-the-same) and the leaf function end in an
    error. *)
Theorem unrecognized_strategy_is_an_error :
  (forall EPSILON strategy R q,
      ~ In strategy supported_strategies ->
      InnerConsistent.region_test EPSILON strategy R q
      = Error (unrecognized_strategy strategy)) /\
  (forall call strategy leaf query,
      ~ In strategy supported_strategies ->
      LeafConsistent.exact_test call strategy leaf query
      = Error (unrecognized_strategy strategy)) /\
  (forall EPSILON call strategy R q leaf query,
      In strategy supported_strategies ->
      is_error (InnerConsistent.region_test EPSILON strategy R q) = false /\
      is_error (LeafConsistent.exact_test call strategy leaf query) = false) /\
  (forall EPSILON R pre sk q post,
      InnerConsistent.check_keys EPSILON R pre = Ok true ->
      ~ In (sk_strategy sk) supported_strategies ->
      InnerConsistent.check_keys EPSILON R (pre ++ (sk, q) :: post)
      = Error (unrecognized_strategy (sk_strategy sk))) /\
  (forall call leaf pre sk post recheck recheck',
      LeafConsistent.compare_keys call leaf pre recheck = Ok (true, recheck') ->
      ~ In (sk_strategy sk) supported_strategies ->
      is_error (LeafConsistent.compare_keys call leaf (pre ++ sk :: post) recheck)
      = true) /\
  (forall EPSILON i sk rest,
      InnerConsistent.allTheSame i = false ->
      0 < InnerConsistent.nNodes i ->
      InnerConsistent.scankeys i = sk :: rest ->
      ~ In (sk_strategy sk) supported_strategies ->
      is_error (InnerConsistent.spg_loose_quad_inner_consistent EPSILON i) = true) /\
  (forall call i sk rest,
      LeafConsistent.scankeys i = sk :: rest ->
      ~ In (sk_strategy sk) supported_strategies ->
      is_error (LeafConsistent.spg_loose_quad_leaf_consistent call i) = true).
Proof.
  split; [exact region_test_unrecognized|].
  split; [exact exact_test_unrecognized|].
  split.
  { intros EPSILON call strategy R q leaf query H. split.
    - apply region_test_supported, H.
    - apply exact_test_supported, H. }
  split; [exact check_keys_reaches|].
  split; [exact compare_keys_reaches|].
  split; [exact inner_consistent_first_key | exact leaf_consistent_first_key].
Qed.

Lemma unrecognized_strategy_is_an_error_witness :
  ~ In 13 supported_strategies /\
  InnerConsistent.region_test 0 13 initRectBox (getRangeBox unit_centroid)
  = Error (unrecognized_strategy 13) /\
  is_error (LeafConsistent.spg_loose_quad_leaf_consistent always_true
              {| LeafConsistent.scankeys := [odd_key];
                 LeafConsistent.leafDatum := below_centre |}) = true.
Proof.
  assert (H : ~ In 13 supported_strategies).
  { unfold supported_strategies. simpl. intros H.
    repeat (destruct H as [H|H]; [discriminate H|]). exact H. }
  split; [exact H|]. split.
  - exact (proj1 unrecognized_strategy_is_an_error 0%Q 13
             initRectBox (getRangeBox unit_centroid) H).
  - exact (proj2 (proj2 (proj2 (proj2 (proj2 (proj2
             unrecognized_strategy_is_an_error)))))
             always_true
             {| LeafConsistent.scankeys := [odd_key];
                LeafConsistent.leafDatum := below_centre |}
             odd_key [] eq_refl H).
Defined.

Lemma overlap4D_sound_witness :
  bounded_by inner_box inner_parent /\
  box_ov (1 # 1000000) inner_box reaching_query = true /\
  overlap4D (1 # 1000000) inner_parent (getRangeBox reaching_query) = true.
Proof.
  assert (Hb : bounded_by inner_box inner_parent).
  { unfold bounded_by, in_range. simpl. unfold Qle. simpl. lia. }
  assert (Ho : box_ov (1 # 1000000) inner_box reaching_query = true) by reflexivity.
  split; [exact Hb|]. split; [exact Ho|].
  exact (overlap4D_sound (1 # 1000000) inner_parent reaching_query inner_box Hb Ho).
Defined.

(** ** The sixteen cells of a propagation step *)

Lemma bound_leb_le a b : bound_leb a b = true -> bound_le a b.
Proof.
  destruct a, b; simpl; intros H; try exact I; try discriminate.
  now apply Qle_bool_iff.
Qed.

Lemma bound_leb_gt a b : bound_leb a b = false -> bound_le b a.
Proof.
  destruct a, b; simpl; intros H; try exact I; try discriminate.
  apply Qle_bool_false in H. now apply Qlt_le_weak.
Qed.

(** One range after a step, on the side the coordinate [v] lies. *)
Lemma range_step_keeps (r : Range) (c v : bound) :
  in_range v r ->
  in_range v (if bound_leb c v then set_low r c else set_high r c).
Proof.
  intros [Hl Hh]. destruct (bound_leb c v) eqn:E; split; simpl; try assumption.
  - now apply bound_leb_le.
  - now apply bound_leb_gt.
Qed.

Lemma cell_bits (b3 b2 b1 b0 : bool) :
  let q := (if b3 then 8 else 0) + (if b2 then 4 else 0) +
           (if b1 then 2 else 0) + (if b0 then 1 else 0) in
  0 <= q < 16 /\
  bit_set q 8 = b3 /\ bit_set q 4 = b2 /\ bit_set q 2 = b1 /\ bit_set q 1 = b0.
Proof. destruct b3, b2, b1, b0; vm_compute; intuition discriminate. Qed.

(** X1.  The sixteen traversal values a step can produce cover the
    parent's: a box bounded by [R] is bounded by [nextRectBox R C q] for
    the 4-bit quadrant [q] that records, coordinate by coordinate, on which
    side of the centroid the box lies. *)
Theorem nextRectBox_cells_cover (R : RectBox) (C : RangeBox) (B : BOX) :
  bounded_by B R ->
  0 <= cell_of C B < 16 /\
  bounded_by B (nextRectBox R C (cell_of C B)).
Proof.
  intros (H1 & H2 & H3 & H4). unfold cell_of.
  destruct (cell_bits (bound_leb (rlow (left C)) (Fin (x (low B))))
                      (bound_leb (rhigh (left C)) (Fin (x (high B))))
                      (bound_leb (rlow (right C)) (Fin (y (low B))))
                      (bound_leb (rhigh (right C)) (Fin (y (high B)))))
    as (Hq & E3 & E2 & E1 & E0).
  split; [exact Hq|].
  unfold bounded_by, nextRectBox. cbn [range_box_x range_box_y left right].
  rewrite E3, E2, E1, E0.
  repeat split; apply range_step_keeps; assumption.
Qed.

Lemma nextRectBox_cells_cover_witness :
  bounded_by inner_box inner_parent /\
  cell_of (getRangeBox unit_centroid) inner_box = 10 /\
  bounded_by inner_box (nextRectBox inner_parent (getRangeBox unit_centroid) 10).
Proof.
  assert (Hb : bounded_by inner_box inner_parent).
  { unfold bounded_by, in_range. simpl. unfold Qle. simpl. lia. }
  split; [exact Hb|]. split; [reflexivity|].
  exact (proj2 (nextRectBox_cells_cover inner_parent (getRangeBox unit_centroid)
                  inner_box Hb)).
Defined.

Lemma range_step_meet (r : Range) (c v : bound) (b b' : bool) :
  b <> b' ->
  in_range v (if b then set_low r c else set_high r c) ->
  in_range v (if b' then set_low r c else set_high r c) ->
  bound_le c v /\ bound_le v c.
Proof.
  destruct b, b'; try congruence; intros _ [H1 H2] [H3 H4]; simpl in *; tauto.
Qed.

Lemma quadrants_differ_in_a_bit q q' :
  0 <= q < 16 -> 0 <= q' < 16 -> q <> q' ->
  bit_set q 8 <> bit_set q' 8 \/ bit_set q 4 <> bit_set q' 4 \/
  bit_set q 2 <> bit_set q' 2 \/ bit_set q 1 <> bit_set q' 1.
Proof.
  intros Hq Hq' Hne.
  assert (E : forall n, 0 <= n < 16 ->
            n = 8 * Z.b2z (bit_set n 8) + 4 * Z.b2z (bit_set n 4)
                + 2 * Z.b2z (bit_set n 2) + Z.b2z (bit_set n 1)).
  { intros n Hn.
    assert (Hc : In n (map Z.of_nat (seq 0 16))).
    { apply in_map_iff. exists (Z.to_nat n). split; [lia | apply in_seq; lia]. }
    cbv [seq map In Z.of_nat Pos.of_succ_nat Pos.succ] in Hc.
    repeat (destruct Hc as [<-|Hc]; [reflexivity|]). destruct Hc. }
  destruct (bool_dec (bit_set q 8) (bit_set q' 8)) as [E8|N8]; [|now left].
  destruct (bool_dec (bit_set q 4) (bit_set q' 4)) as [E4|N4]; [|now right; left].
  destruct (bool_dec (bit_set q 2) (bit_set q' 2)) as [E2|N2];
    [|now right; right; left].
  destruct (bool_dec (bit_set q 1) (bit_set q' 1)) as [E1|N1];
    [|now right; right; right].
  exfalso. apply Hne. rewrite (E q Hq), (E q' Hq'). now rewrite E8, E4, E2, E1.
Qed.

(** X2.  Two different 4-bit quadrants give traversal values that meet
    only on the centroid: a box bounded by both has at least one of its
    four coordinates equal to the centroid's. *)
Theorem nextRectBox_cells_meet_on_centroid (R : RectBox) (C : RangeBox) (B : BOX)
        (q q' : Z) :
  0 <= q < 16 -> 0 <= q' < 16 -> q <> q' ->
  bounded_by B (nextRectBox R C q) ->
  bounded_by B (nextRectBox R C q') ->
  on_centroid C B.
Proof.
  intros Hq Hq' Hne (A1 & A2 & A3 & A4) (B1 & B2 & B3 & B4).
  unfold nextRectBox in *. cbn [range_box_x range_box_y left right] in *.
  unfold on_centroid.
  destruct (quadrants_differ_in_a_bit q q' Hq Hq' Hne) as [N|[N|[N|N]]].
  - left. exact (range_step_meet _ _ _ _ _ N A1 B1).
  - right; left. exact (range_step_meet _ _ _ _ _ N A2 B2).
  - right; right; left. exact (range_step_meet _ _ _ _ _ N A3 B3).
  - right; right; right. exact (range_step_meet _ _ _ _ _ N A4 B4).
Qed.

Lemma nextRectBox_cells_meet_on_centroid_witness :
  bounded_by edge_box (nextRectBox initRectBox (getRangeBox unit_centroid) 0) /\
  bounded_by edge_box (nextRectBox initRectBox (getRangeBox unit_centroid) 8) /\
  on_centroid (getRangeBox unit_centroid) edge_box.
Proof.
  assert (H0 : bounded_by edge_box
                 (nextRectBox initRectBox (getRangeBox unit_centroid) 0)).
  { unfold bounded_by, in_range. simpl. unfold Qle. simpl. lia. }
  assert (H8 : bounded_by edge_box
                 (nextRectBox initRectBox (getRangeBox unit_centroid) 8)).
  { unfold bounded_by, in_range. simpl. unfold Qle. simpl. lia. }
  split; [exact H0|]. split; [exact H8|].
  apply (nextRectBox_cells_meet_on_centroid initRectBox (getRangeBox unit_centroid)
           edge_box 0 8); [lia | lia | discriminate | exact H0 | exact H8].
Defined.

(** X3.  For the node numbers 0 to 3, the ones [getQuadrant] produces,
    the two x bits of the quadrant are clear: whatever the node,
    [nextRectBox] keeps the lower bounds of both x ranges and moves their
    upper bounds to the low x and the high x of the centroid, so that the
    four traversal values differ in their y ranges only. *)
Theorem nextRectBox_node_numbers_cap_x (R : RectBox) (C : RangeBox) (q : Z) :
  0 <= q < 4 ->
  range_box_x (nextRectBox R C q)
  = {| left := set_high (left (range_box_x R)) (rlow (left C));
       right := set_high (right (range_box_x R)) (rhigh (left C)) |}.
Proof.
  intros Hq. assert (Hc : q = 0 \/ q = 1 \/ q = 2 \/ q = 3) by lia.
  destruct Hc as [-> | [-> | [-> | ->]]]; reflexivity.
Qed.

Lemma nextRectBox_node_numbers_cap_x_witness :
  range_box_x (nextRectBox initRectBox (getRangeBox unit_centroid) 3)
  = {| left := {| rlow := NegInf; rhigh := Fin 0 |};
       right := {| rlow := NegInf; rhigh := Fin 10 |} |}.
Proof.
  exact (nextRectBox_node_numbers_cap_x initRectBox (getRangeBox unit_centroid) 3
           ltac:(lia)).
Defined.

(** ** Region tests along a descent, and against the exact comparisons *)

Lemma Qgt_bool_iff a b : Qgt_bool a b = true <-> (b < a)%Q.
Proof. unfold Qgt_bool. rewrite negb_true_iff. apply Qle_bool_false. Qed.

Lemma FPlt_mono_l eps a a' b :
  bound_le a' a -> FPlt eps a b = true -> FPlt eps a' b = true.
Proof.
  unfold FPlt.
  destruct a, a', b; simpl; intros Hle H; try contradiction;
    try reflexivity; try discriminate.
  apply Qgt_bool_iff in H. apply Qgt_bool_iff. lra.
Qed.

Lemma FPgt_mono_l eps a a' b :
  bound_le a a' -> FPgt eps a b = true -> FPgt eps a' b = true.
Proof.
  unfold FPgt.
  destruct a, a', b; simpl; intros Hle H; try contradiction;
    try reflexivity; try discriminate.
  apply Qgt_bool_iff in H. apply Qgt_bool_iff. lra.
Qed.

Lemma FPeq_FPle eps a b : FPeq eps a b = true -> FPle eps a b = true.
Proof.
  destruct a as [|p|], b as [|q|]; cbv [FPeq FPle bound_sub diff_le];
    try discriminate.
  intros H. apply Qle_bool_iff in H. apply Qle_bool_iff.
  apply Qabs_Qle_condition in H. tauto.
Qed.

Lemma FPeq_FPge eps a b : FPeq eps a b = true -> FPge eps a b = true.
Proof.
  destruct a as [|p|], b as [|q|]; cbv [FPeq FPge bound_sub diff_le];
    try discriminate.
  intros H. apply Qle_bool_iff in H. apply Qle_bool_iff.
  apply Qabs_Qle_condition in H. lra.
Qed.

Section RegionMonotone.

Variable EPSILON : Q.
Variables rb rb' : RangeBox.
Hypothesis Hleft : sub_range (left rb') (left rb).
Hypothesis Hright : sub_range (right rb') (right rb).

Ltac widen :=
  destruct Hleft, Hright;
  repeat match goal with
         | H : _ && _ = true |- _ => apply andb_true_iff in H; destruct H
         end;
  rewrite ?andb_true_iff; repeat split;
  match goal with
  | H : FPle _ _ _ = true |- FPle _ _ _ = true =>
      solve [eapply FPle_mono_l; [| exact H]; assumption]
  | H : FPge _ _ _ = true |- FPge _ _ _ = true =>
      solve [eapply FPge_mono_l; [| exact H]; assumption]
  | H : FPlt _ _ _ = true |- FPlt _ _ _ = true =>
      solve [eapply FPlt_mono_l; [| exact H]; assumption]
  | H : FPgt _ _ _ = true |- FPgt _ _ _ = true =>
      solve [eapply FPgt_mono_l; [| exact H]; assumption]
  end.

Lemma overlap2D_mono q : overlap2D EPSILON rb' q = true -> overlap2D EPSILON rb q = true.
Proof. unfold overlap2D. intros H. widen. Qed.

Lemma contain2D_mono q : contain2D EPSILON rb' q = true -> contain2D EPSILON rb q = true.
Proof. unfold contain2D. intros H. widen. Qed.

Lemma contained2D_mono q :
  contained2D EPSILON rb' q = true -> contained2D EPSILON rb q = true.
Proof. unfold contained2D. intros H. widen. Qed.

Lemma lower2D_mono q : lower2D EPSILON rb' q = true -> lower2D EPSILON rb q = true.
Proof. unfold lower2D. intros H. widen. Qed.

Lemma overLower2D_mono q :
  overLower2D EPSILON rb' q = true -> overLower2D EPSILON rb q = true.
Proof. unfold overLower2D. intros H. widen. Qed.

Lemma higher2D_mono q : higher2D EPSILON rb' q = true -> higher2D EPSILON rb q = true.
Proof. unfold higher2D. intros H. widen. Qed.

Lemma overHigher2D_mono q :
  overHigher2D EPSILON rb' q = true -> overHigher2D EPSILON rb q = true.
Proof. unfold overHigher2D. intros H. widen. Qed.

End RegionMonotone.

Lemma region_test_monotone EPSILON strategy R R' q :
  sub_rect R' R ->
  InnerConsistent.region_test EPSILON strategy R' q = Ok true ->
  InnerConsistent.region_test EPSILON strategy R q = Ok true.
Proof.
  intros (Hxl & Hxr & Hyl & Hyr). unfold InnerConsistent.region_test.
  repeat match goal with
         | |- context [if ?c then _ else _] => destruct c
         end;
  intros H; try discriminate H; inversion H as [H']; rewrite H'; f_equal;
  unfold overlap4D, contain4D, contained4D, left4D, overLeft4D, right4D,
    overRight4D, below4D, overBelow4D, above4D, overAbove4D in *;
  repeat match goal with
         | H : _ && _ = true |- _ => apply andb_true_iff in H; destruct H
         end;
  rewrite ?andb_true_iff; repeat split;
  eauto using overlap2D_mono, contain2D_mono, contained2D_mono, lower2D_mono,
    overLower2D_mono, higher2D_mono, overHigher2D_mono.
Qed.

(** X4.  The test of a node is consistent along a descent: when the scan
    keys all pass on a traversal value, they all pass on every traversal
    value that contains it, so a node is never reported under a node that
    the same keys prune. *)
Theorem check_keys_monotone EPSILON (R R' : RectBox) keys :
  sub_rect R' R ->
  InnerConsistent.check_keys EPSILON R' keys = Ok true ->
  InnerConsistent.check_keys EPSILON R keys = Ok true.
Proof.
  intros Hsub. induction keys as [|[sk q] keys IH]; simpl; [trivial|].
  destruct (InnerConsistent.region_test EPSILON (sk_strategy sk) R' q)
    as [[|]|e] eqn:E; simpl; try discriminate.
  intros H. rewrite (region_test_monotone _ _ _ _ _ Hsub E). simpl. now apply IH.
Qed.

Lemma check_keys_monotone_witness :
  sub_rect (nextRectBox initRectBox (getRangeBox unit_centroid) 1) initRectBox /\
  InnerConsistent.check_keys (1 # 1000000) initRectBox
    [(overlap_key, getRangeBox high_query)] = Ok true.
Proof.
  assert (Hsub : sub_rect (nextRectBox initRectBox (getRangeBox unit_centroid) 1)
                   initRectBox).
  { unfold sub_rect, sub_range. simpl. unfold Qle. simpl. lia. }
  split; [exact Hsub|].
  apply (check_keys_monotone (1 # 1000000) initRectBox
           (nextRectBox initRectBox (getRangeBox unit_centroid) 1)
           [(overlap_key, getRangeBox high_query)] Hsub).
  reflexivity.
Defined.

Section RegionCovers.

Variable EPSILON : Q.
Variable R : RectBox.
Variables B query : BOX.
Hypothesis Hwf : well_formed B.
Hypothesis Hb : bounded_by B R.

Lemma box_bounds_chain :
  bound_le (rlow (left (range_box_x R))) (Fin (x (high B))) /\
  bound_le (Fin (x (low B))) (rhigh (right (range_box_x R))) /\
  bound_le (rlow (left (range_box_y R))) (Fin (y (high B))) /\
  bound_le (Fin (y (low B))) (rhigh (right (range_box_y R))).
Proof.
  destruct Hwf as [Hx Hy].
  destruct Hb as ((A1 & A2) & (A3 & A4) & (A5 & A6) & (A7 & A8)).
  repeat split.
  - apply (bound_le_trans _ (Fin (x (low B)))); [assumption | exact Hx].
  - apply (bound_le_trans _ (Fin (x (high B)))); [exact Hx | assumption].
  - apply (bound_le_trans _ (Fin (y (low B)))); [assumption | exact Hy].
  - apply (bound_le_trans _ (Fin (y (high B)))); [exact Hy | assumption].
Qed.

Ltac cover :=
  destruct box_bounds_chain as (C1 & C2 & C3 & C4);
  destruct Hb as ((A1 & A2) & (A3 & A4) & (A5 & A6) & (A7 & A8));
  cbn [exact_holds]; unfold box_ov;
  intros H;
  repeat match goal with
         | H : _ && _ = true |- _ => apply andb_true_iff in H; destruct H
         end;
  repeat match goal with
         | H : FPeq _ _ _ = true |- _ =>
             pose proof (FPeq_FPle _ _ _ H); apply FPeq_FPge in H
         end;
  unfold overlap4D, contain4D, contained4D, left4D, overLeft4D, right4D,
    overRight4D, below4D, overBelow4D, above4D, overAbove4D,
    overlap2D, contain2D, contained2D, lower2D, overLower2D, higher2D,
    overHigher2D;
  cbn [getRangeBox left right rlow rhigh];
  rewrite ?andb_true_iff; repeat split;
  match goal with
  | H : FPle _ _ _ = true |- FPle _ _ _ = true =>
      solve [eapply FPle_mono_l; [| exact H]; assumption]
  | H : FPle _ _ _ = true |- FPge _ _ _ = true =>
      solve [eapply FPge_mono_l; [| exact H]; assumption]
  | H : FPge _ _ _ = true |- FPge _ _ _ = true =>
      solve [eapply FPge_mono_l; [| exact H]; assumption]
  | H : FPge _ _ _ = true |- FPle _ _ _ = true =>
      solve [eapply FPle_mono_l; [| exact H]; assumption]
  | H : FPlt _ _ _ = true |- FPlt _ _ _ = true =>
      solve [eapply FPlt_mono_l; [| exact H]; assumption]
  | H : FPgt _ _ _ = true |- FPgt _ _ _ = true =>
      solve [eapply FPgt_mono_l; [| exact H]; assumption]
  end.

Lemma contain4D_covers :
  exact_holds EPSILON LeafConsistent.box_contain B query = true ->
  contain4D EPSILON R (getRangeBox query) = true.
Proof. cover. Qed.

Lemma contained4D_covers :
  exact_holds EPSILON LeafConsistent.box_contained B query = true ->
  contained4D EPSILON R (getRangeBox query) = true.
Proof. cover. Qed.

Lemma contained4D_covers_same :
  exact_holds EPSILON LeafConsistent.box_same B query = true ->
  contained4D EPSILON R (getRangeBox query) = true.
Proof. cover. Qed.

Lemma left4D_covers :
  exact_holds EPSILON LeafConsistent.box_left B query = true ->
  left4D EPSILON R (getRangeBox query) = true.
Proof. cover. Qed.

Lemma overLeft4D_covers :
  exact_holds EPSILON LeafConsistent.box_overleft B query = true ->
  overLeft4D EPSILON R (getRangeBox query) = true.
Proof. cover. Qed.

Lemma right4D_covers :
  exact_holds EPSILON LeafConsistent.box_right B query = true ->
  right4D EPSILON R (getRangeBox query) = true.
Proof. cover. Qed.

Lemma overRight4D_covers :
  exact_holds EPSILON LeafConsistent.box_overright B query = true ->
  overRight4D EPSILON R (getRangeBox query) = true.
Proof. cover. Qed.

Lemma below4D_covers :
  exact_holds EPSILON LeafConsistent.box_below B query = true ->
  below4D EPSILON R (getRangeBox query) = true.
Proof. cover. Qed.

Lemma overBelow4D_covers :
  exact_holds EPSILON LeafConsistent.box_overbelow B query = true ->
  overBelow4D EPSILON R (getRangeBox query) = true.
Proof. cover. Qed.

Lemma above4D_covers :
  exact_holds EPSILON LeafConsistent.box_above B query = true ->
  above4D EPSILON R (getRangeBox query) = true.
Proof. cover. Qed.

Lemma overAbove4D_covers :
  exact_holds EPSILON LeafConsistent.box_overabove B query = true ->
  overAbove4D EPSILON R (getRangeBox query) = true.
Proof. cover. Qed.

End RegionCovers.

Ltac decide_cases :=
  repeat match goal with
         | |- context [?a =? ?b] =>
             let v := eval vm_compute in (a =? b) in change (a =? b) with v
         end;
  cbn [orb].

Lemma region_test_covers EPSILON strategy R B query :
  well_formed B ->
  bounded_by B R ->
  LeafConsistent.exact_test (exact_holds EPSILON) strategy B query = Ok true ->
  InnerConsistent.region_test EPSILON strategy R (getRangeBox query) = Ok true.
Proof.
  intros Hwf Hb H.
  destruct (in_dec Z.eq_dec strategy supported_strategies) as [Hin|Hout].
  2:{ rewrite (exact_test_unrecognized _ _ _ _ Hout) in H. discriminate. }
  unfold supported_strategies in Hin. simpl in Hin.
  repeat (destruct Hin as [<-|Hin];
          [injection H as H; unfold InnerConsistent.region_test; decide_cases;
           f_equal;
           first [ eapply overlap4D_covers; eassumption
                 | eapply contain4D_covers; eassumption
                 | eapply contained4D_covers; eassumption
                 | eapply contained4D_covers_same; eassumption
                 | eapply left4D_covers; eassumption
                 | eapply overLeft4D_covers; eassumption
                 | eapply right4D_covers; eassumption
                 | eapply overRight4D_covers; eassumption
                 | eapply below4D_covers; eassumption
                 | eapply overBelow4D_covers; eassumption
                 | eapply above4D_covers; eassumption
                 | eapply overAbove4D_covers; eassumption ]|]).
  contradiction.
Qed.

(** X5.  No region test has a false negative.  For each of the twelve
    strategies: when a box with its low corner not beyond its high corner
    is bounded by a traversal value and the exact comparison of the
    strategy holds between the box and the query box, the region test of
    the strategy passes on the traversal value. *)
Theorem region_tests_have_no_false_negative EPSILON strategy R B query :
  well_formed B ->
  bounded_by B R ->
  LeafConsistent.exact_test (exact_holds EPSILON) strategy B query = Ok true ->
  InnerConsistent.region_test EPSILON strategy R (getRangeBox query) = Ok true.
Proof.
  intros Hwf Hb H.
  destruct (in_dec Z.eq_dec strategy supported_strategies) as [Hin|Hout].
  2:{ rewrite (exact_test_unrecognized _ _ _ _ Hout) in H. discriminate. }
  unfold supported_strategies in Hin. simpl in Hin.
  repeat (destruct Hin as [<-|Hin];
          [injection H as H; unfold InnerConsistent.region_test; decide_cases;
           f_equal;
           first [ eapply overlap4D_covers; eassumption
                 | eapply contain4D_covers; eassumption
                 | eapply contained4D_covers; eassumption
                 | eapply contained4D_covers_same; eassumption
                 | eapply left4D_covers; eassumption
                 | eapply overLeft4D_covers; eassumption
                 | eapply right4D_covers; eassumption
                 | eapply overRight4D_covers; eassumption
                 | eapply below4D_covers; eassumption
                 | eapply overBelow4D_covers; eassumption
                 | eapply above4D_covers; eassumption
                 | eapply overAbove4D_covers; eassumption ]|]).
  contradiction.
Qed.

Lemma region_tests_have_no_false_negative_witness :
  well_formed wide_leaf /\
  bounded_by wide_leaf (nextRectBox initRectBox (getRangeBox unit_centroid) 1) /\
  InnerConsistent.region_test (1 # 1000000) RTOverlapStrategyNumber
    (nextRectBox initRectBox (getRangeBox unit_centroid) 1) (getRangeBox high_query)
  = Ok true.
Proof.
  assert (Hwf : well_formed wide_leaf).
  { unfold well_formed. simpl. unfold Qle. simpl. lia. }
  assert (Hb : bounded_by wide_leaf
                 (nextRectBox initRectBox (getRangeBox unit_centroid) 1)).
  { unfold bounded_by, in_range. simpl. unfold Qle. simpl. lia. }
  split; [exact Hwf|]. split; [exact Hb|].
  apply (region_tests_have_no_false_negative (1 # 1000000) RTOverlapStrategyNumber
           _ wide_leaf high_query Hwf Hb).
  reflexivity.
Defined.

(** ** The inner function, node by node *)

Lemma bbox_recognized sk recheck :
  sk_subtype sk = BOXOID \/ sk_subtype sk = POLYGONOID ->
  exists r, spg_box_quad_get_scankey_bbox sk recheck = Ok (sk_argument sk, r).
Proof.
  unfold spg_box_quad_get_scankey_bbox. intros [E|E]; rewrite E.
  - rewrite Z.eqb_refl. now eexists.
  - change (POLYGONOID =? BOXOID) with false. rewrite Z.eqb_refl.
    destruct recheck as [r|]; [destruct (negb _)|]; now eexists.
Qed.

Lemma bbox_argument sk recheck b :
  spg_box_quad_get_scankey_bbox sk recheck = Ok b ->
  fst b = sk_argument sk /\ (sk_subtype sk = BOXOID \/ sk_subtype sk = POLYGONOID).
Proof.
  unfold spg_box_quad_get_scankey_bbox.
  destruct (Z.eqb_spec (sk_subtype sk) BOXOID) as [E|_].
  - intros H. inversion H. auto.
  - destruct (Z.eqb_spec (sk_subtype sk) POLYGONOID) as [E|_]; [|discriminate].
    destruct recheck as [r|]; [destruct (negb _)|]; intros H; inversion H; auto.
Qed.

Lemma get_queries_recognized keys :
  Forall (fun sk => sk_subtype sk = BOXOID \/ sk_subtype sk = POLYGONOID) keys ->
  InnerConsistent.get_queries keys
  = Ok (map (fun sk => getRangeBox (sk_argument sk)) keys).
Proof.
  induction 1 as [|sk keys Hsk _ IH]; simpl; [reflexivity|].
  destruct (bbox_recognized sk None Hsk) as [r ->]. simpl. now rewrite IH.
Qed.

Lemma combine_with_map {A B} (f : A -> B) (l : list A) :
  combine l (map f l) = map (fun a => (a, f a)) l.
Proof. induction l as [|a l IH]; simpl; [reflexivity | now rewrite IH]. Qed.

Lemma check_keys_supported EPSILON R (keys : list (ScanKeyData * RangeBox)) :
  Forall (fun k => In (sk_strategy (fst k)) supported_strategies) keys ->
  exists b, InnerConsistent.check_keys EPSILON R keys = Ok b.
Proof.
  induction 1 as [|[sk q] keys Hk _ [b IH]]; simpl; [now eexists|].
  pose proof (region_test_supported EPSILON (sk_strategy sk) R q Hk) as Hr.
  destruct (InnerConsistent.region_test EPSILON (sk_strategy sk) R q) as [[|]|e];
    simpl in Hr |- *; try discriminate Hr.
  - exists b. exact IH.
  - now exists false.
Qed.

(** The loop over the nodes, when it ends without an error. *)
Lemma visit_nodes_result EPSILON rect_box centroid keys quadrants :
  forall out out',
    InnerConsistent.visit_nodes EPSILON rect_box centroid keys quadrants out = Ok out' ->
    InnerConsistent.nodeNumbers out'
    = InnerConsistent.nodeNumbers out
      ++ filter (passes EPSILON rect_box centroid keys) quadrants /\
    InnerConsistent.traversalValues out'
    = InnerConsistent.traversalValues out
      ++ map (nextRectBox rect_box centroid)
             (filter (passes EPSILON rect_box centroid keys) quadrants).
Proof.
  induction quadrants as [|q quadrants IH]; intros out out' H; simpl in H.
  - inversion H. now rewrite !app_nil_r.
  - destruct (InnerConsistent.check_keys EPSILON (nextRectBox rect_box centroid q) keys)
      as [b|e] eqn:E; simpl in H; [|discriminate].
    assert (Hp : passes EPSILON rect_box centroid keys q = b)
      by (unfold passes; now rewrite E).
    cbn [filter]. rewrite Hp. destruct b.
    + destruct (IH _ _ H) as [E1 E2]. cbn in E1, E2.
      rewrite E1, E2, <- !app_assoc. split; reflexivity.
    + apply (IH _ _ H).
Qed.

Lemma visit_nodes_runs EPSILON rect_box centroid keys :
  (forall R, exists b, InnerConsistent.check_keys EPSILON R keys = Ok b) ->
  forall quadrants out,
    exists out',
      InnerConsistent.visit_nodes EPSILON rect_box centroid keys quadrants out = Ok out'.
Proof.
  intros Hk. induction quadrants as [|q quadrants IH]; intros out; simpl.
  - now eexists.
  - destruct (Hk (nextRectBox rect_box centroid q)) as [b ->]. simpl. apply IH.
Qed.

Lemma filter_length_le {A} (p : A -> bool) l : (length (filter p l) <= length l)%nat.
Proof.
  induction l as [|a l IH]; simpl; [lia|]. destruct (p a); simpl; lia.
Qed.

Lemma inner_consistent_result EPSILON (i : InnerConsistent.spgInnerConsistentIn) out :
  InnerConsistent.allTheSame i = false ->
  InnerConsistent.spg_loose_quad_inner_consistent EPSILON i = Ok out ->
  InnerConsistent.nodeNumbers out
  = filter (passes EPSILON (start_of i) (getRangeBox (InnerConsistent.prefixDatum i))
              (keys_of i))
           (InnerConsistent.node_range (InnerConsistent.nNodes i)) /\
  InnerConsistent.traversalValues out
  = map (nextRectBox (start_of i) (getRangeBox (InnerConsistent.prefixDatum i)))
        (InnerConsistent.nodeNumbers out).
Proof.
  intros Ha H. unfold InnerConsistent.spg_loose_quad_inner_consistent in H.
  rewrite Ha in H. fold (start_of i) in H.
  destruct (InnerConsistent.get_queries (InnerConsistent.scankeys i)) as [qs|e] eqn:Eq;
    simpl in H; [|discriminate].
  assert (Hqs : qs = map (fun sk => getRangeBox (sk_argument sk))
                         (InnerConsistent.scankeys i)).
  { clear H. revert qs Eq.
    induction (InnerConsistent.scankeys i) as [|sk keys IH]; intros qs Eq; simpl in Eq.
    - now inversion Eq.
    - destruct (spg_box_quad_get_scankey_bbox sk None) as [b|e] eqn:Eb;
        simpl in Eq; [|discriminate].
      destruct (InnerConsistent.get_queries keys) as [qs'|e]; simpl in Eq;
        [|discriminate].
      inversion Eq. simpl. rewrite (IH qs' eq_refl).
      now rewrite (proj1 (bbox_argument _ _ _ Eb)). }
  rewrite Hqs, combine_with_map in H. fold (keys_of i) in H.
  destruct (visit_nodes_result _ _ _ _ _ _ _ H) as [E1 E2]. cbn in E1, E2.
  rewrite E2, E1. split; reflexivity.
Qed.

(** X6.  What the inner function reports for a node that is not
    all-the-same (of at most 255 nodes, the node counter being a
    [uint8]), when it ends without an error: the node numbers, in
    increasing order, of exactly the nodes on whose traversal value every
    scan key passes, and with each its traversal value
    [nextRectBox]; so at most [nNodes] entries are written to each of the
    two output arrays. *)
Theorem inner_consistent_reports_passing_nodes EPSILON
        (i : InnerConsistent.spgInnerConsistentIn) out :
  InnerConsistent.allTheSame i = false ->
  InnerConsistent.nNodes i < 256 ->
  InnerConsistent.spg_loose_quad_inner_consistent EPSILON i = Ok out ->
  InnerConsistent.nodeNumbers out
  = filter (passes EPSILON (start_of i) (getRangeBox (InnerConsistent.prefixDatum i))
              (keys_of i))
           (InnerConsistent.node_range (InnerConsistent.nNodes i)) /\
  InnerConsistent.traversalValues out
  = map (nextRectBox (start_of i) (getRangeBox (InnerConsistent.prefixDatum i)))
        (InnerConsistent.nodeNumbers out) /\
  (length (InnerConsistent.nodeNumbers out) <= Z.to_nat (InnerConsistent.nNodes i))%nat /\
  length (InnerConsistent.traversalValues out)
  = length (InnerConsistent.nodeNumbers out).
Proof.
  intros Ha _ H. destruct (inner_consistent_result EPSILON i out Ha H) as [E1 E2].
  split; [exact E1|]. split; [exact E2|]. split.
  - rewrite E1. eapply Nat.le_trans; [apply filter_length_le|].
    unfold InnerConsistent.node_range. now rewrite length_map, length_seq.
  - rewrite E2. apply length_map.
Qed.

Lemma inner_consistent_reports_passing_nodes_witness :
  exists out,
    InnerConsistent.spg_loose_quad_inner_consistent (1 # 1000000) (at_root [overlap_key])
    = Ok out /\
    InnerConsistent.nodeNumbers out = [1; 3] /\
    length (InnerConsistent.traversalValues out) = 2%nat.
Proof.
  eexists. split; [vm_compute; reflexivity|].
  pose proof (inner_consistent_reports_passing_nodes (1 # 1000000)
                (at_root [overlap_key]) _ eq_refl eq_refl eq_refl)
    as (E1 & _ & _ & E4).
  split; [reflexivity | exact E4].
Defined.

Lemma get_queries_first_unknown keys :
  forall pre sk post,
    keys = pre ++ sk :: post ->
    Forall (fun k => sk_subtype k = BOXOID \/ sk_subtype k = POLYGONOID) pre ->
    sk_subtype sk <> BOXOID -> sk_subtype sk <> POLYGONOID ->
    InnerConsistent.get_queries keys = Error (unrecognized_scankey_subtype (sk_subtype sk)).
Proof.
  intros pre sk post -> Hpre Hb Hp.
  induction Hpre as [|k pre Hk _ IH]; simpl.
  - unfold spg_box_quad_get_scankey_bbox.
    destruct (Z.eqb_spec (sk_subtype sk) BOXOID); [contradiction|].
    destruct (Z.eqb_spec (sk_subtype sk) POLYGONOID); [contradiction|]. reflexivity.
  - destruct (bbox_recognized k None Hk) as [r ->]. simpl. now rewrite IH.
Qed.

(** X7.  A scan key of a subtype other than box and polygon is an error
    in the inner function before any node is looked at: for a node that is
    not all-the-same the function ends in "unrecognized scankey subtype"
    for the first such key, whatever the number of nodes and the
    strategies of the keys. *)
Theorem inner_consistent_unknown_subtype EPSILON
        (i : InnerConsistent.spgInnerConsistentIn) pre sk post :
  InnerConsistent.allTheSame i = false ->
  InnerConsistent.scankeys i = pre ++ sk :: post ->
  Forall (fun k => sk_subtype k = BOXOID \/ sk_subtype k = POLYGONOID) pre ->
  sk_subtype sk <> BOXOID -> sk_subtype sk <> POLYGONOID ->
  InnerConsistent.spg_loose_quad_inner_consistent EPSILON i
  = Error (unrecognized_scankey_subtype (sk_subtype sk)).
Proof.
  intros Ha Hk Hpre Hb Hp. unfold InnerConsistent.spg_loose_quad_inner_consistent.
  rewrite Ha. now rewrite (get_queries_first_unknown _ pre sk post Hk Hpre Hb Hp).
Qed.

Lemma inner_consistent_unknown_subtype_witness :
  InnerConsistent.spg_loose_quad_inner_consistent 0 (at_root [overlap_key; circle_key; odd_key])
  = Error (unrecognized_scankey_subtype 718).
Proof.
  apply (inner_consistent_unknown_subtype 0 (at_root [overlap_key; circle_key; odd_key])
           [overlap_key] circle_key [odd_key]); try reflexivity.
  - constructor; [left; reflexivity | constructor].
  - discriminate.
  - discriminate.
Defined.

(** X8.  With scan keys that are all of a known subtype and a strategy
    the function has a case for, the inner function ends without an
    error, whatever the traversal value, the centroid and the number of
    nodes (up to 255, the node counter being a [uint8]). *)
Theorem inner_consistent_recognized_keys EPSILON
        (i : InnerConsistent.spgInnerConsistentIn) :
  InnerConsistent.nNodes i < 256 ->
  Forall recognized (InnerConsistent.scankeys i) ->
  exists out, InnerConsistent.spg_loose_quad_inner_consistent EPSILON i = Ok out.
Proof.
  intros _ Hk. unfold InnerConsistent.spg_loose_quad_inner_consistent.
  destruct (InnerConsistent.allTheSame i); [now eexists|].
  rewrite get_queries_recognized.
  2:{ eapply Forall_impl; [|exact Hk]. intros sk [H _]. exact H. }
  simpl. rewrite combine_with_map. apply visit_nodes_runs.
  intros R. apply check_keys_supported.
  apply Forall_map. eapply Forall_impl; [|exact Hk]. intros sk [_ H]. exact H.
Qed.

Lemma inner_consistent_recognized_keys_witness :
  Forall recognized [overlap_key; polygon_key] /\
  exists out,
    InnerConsistent.spg_loose_quad_inner_consistent (1 # 1000000)
      (at_root [overlap_key; polygon_key]) = Ok out.
Proof.
  assert (H : Forall recognized [overlap_key; polygon_key]).
  { constructor; [split; [left; reflexivity | simpl; auto]|].
    constructor; [split; [right; reflexivity | simpl; auto]|]. constructor. }
  split; [exact H|].
  exact (inner_consistent_recognized_keys (1 # 1000000)
           (at_root [overlap_key; polygon_key]) eq_refl H).
Defined.

(** ** The leaf function, key by key *)

Lemma bbox_recheck sk rc :
  sk_subtype sk = BOXOID \/ sk_subtype sk = POLYGONOID ->
  spg_box_quad_get_scankey_bbox sk (Some rc)
  = Ok (sk_argument sk, Some (rc || lossy sk)).
Proof.
  unfold spg_box_quad_get_scankey_bbox, lossy. intros [E|E]; rewrite E.
  - rewrite Z.eqb_refl. change (BOXOID =? POLYGONOID) with false.
    now rewrite orb_false_r.
  - change (POLYGONOID =? BOXOID) with false. rewrite Z.eqb_refl. cbn [andb].
    destruct (negb (is_bounding_box_test_exact (sk_strategy sk)));
      [now rewrite orb_true_r | now rewrite orb_false_r].
Qed.

Lemma exact_test_answer call leaf sk :
  In (sk_strategy sk) supported_strategies ->
  LeafConsistent.exact_test call (sk_strategy sk) leaf (sk_argument sk)
  = Ok (exact_answer call leaf sk).
Proof.
  intros H. pose proof (exact_test_supported call _ leaf (sk_argument sk) H) as He.
  unfold exact_answer.
  destruct (LeafConsistent.exact_test call (sk_strategy sk) leaf (sk_argument sk));
    [reflexivity | discriminate He].
Qed.

Lemma compare_keys_recognized call leaf keys :
  Forall recognized keys ->
  forall rc, exists rc',
    LeafConsistent.compare_keys call leaf keys rc
    = Ok (forallb (exact_answer call leaf) keys, rc') /\
    (forallb (exact_answer call leaf) keys = true ->
       rc' = rc || existsb lossy keys) /\
    (rc' = true -> rc = true \/ existsb lossy keys = true).
Proof.
  induction 1 as [|sk keys [Hs Hin] _ IH]; intros rc; simpl.
  - exists rc. rewrite orb_false_r. auto.
  - rewrite (bbox_recheck sk rc Hs). cbn [rbind fst snd].
    rewrite (exact_test_answer call leaf sk Hin). cbn [rbind].
    destruct (exact_answer call leaf sk); cbn [andb].
    + destruct (IH (rc || lossy sk)) as (rc' & E & H1 & H2).
      exists rc'. split; [exact E|]. split.
      * intros Hf. rewrite (H1 Hf). now rewrite orb_assoc.
      * intros Hr. destruct (H2 Hr) as [H|H].
        -- apply orb_true_iff in H. destruct H as [H|H]; [now left|].
           right. now rewrite H.
        -- right. rewrite H. apply orb_true_r.
    + exists (rc || lossy sk). split; [reflexivity|]. split; [discriminate|].
      intros Hr. apply orb_true_iff in Hr. destruct Hr as [H|H]; [now left|].
      right. now rewrite H.
Qed.

(** X9.  The answer of the leaf function for keys of a known subtype
    and strategy: never an error; the leaf value is the leaf datum; the
    flag is the conjunction of the exact comparisons of all keys; a
    recheck is asked for only if some key is a polygon key with a strategy
    whose bounding-box test is not exact, and, when the leaf is accepted,
    exactly if there is such a key. *)
Theorem leaf_consistent_recognized_keys call (i : LeafConsistent.spgLeafConsistentIn) :
  Forall recognized (LeafConsistent.scankeys i) ->
  exists out,
    LeafConsistent.spg_loose_quad_leaf_consistent call i = Ok out /\
    LeafConsistent.leafValue out = LeafConsistent.leafDatum i /\
    LeafConsistent.flag out
    = forallb (exact_answer call (LeafConsistent.leafDatum i)) (LeafConsistent.scankeys i) /\
    (LeafConsistent.flag out = true ->
       LeafConsistent.recheck out = existsb lossy (LeafConsistent.scankeys i)) /\
    (LeafConsistent.recheck out = true ->
       existsb lossy (LeafConsistent.scankeys i) = true).
Proof.
  intros Hk. unfold LeafConsistent.spg_loose_quad_leaf_consistent.
  destruct (compare_keys_recognized call (LeafConsistent.leafDatum i) _ Hk false)
    as (rc' & E & H1 & H2).
  rewrite E. cbn [rbind fst snd]. eexists. split; [reflexivity|].
  cbn [LeafConsistent.leafValue LeafConsistent.flag LeafConsistent.recheck].
  split; [reflexivity|]. split; [reflexivity|]. split.
  - intros Hf. now rewrite (H1 Hf).
  - intros Hr. destruct (H2 Hr) as [H|H]; [discriminate | exact H].
Qed.

Lemma leaf_consistent_recognized_keys_witness :
  Forall recognized [overlap_key; polygon_key] /\
  exists out,
    LeafConsistent.spg_loose_quad_leaf_consistent (exact_holds (1 # 1000000))
      {| LeafConsistent.scankeys := [overlap_key; polygon_key];
         LeafConsistent.leafDatum := high_leaf |} = Ok out /\
    LeafConsistent.flag out = true /\ LeafConsistent.recheck out = true.
Proof.
  assert (H : Forall recognized [overlap_key; polygon_key]).
  { constructor; [split; [left; reflexivity | simpl; auto]|].
    constructor; [split; [right; reflexivity | simpl; auto]|]. constructor. }
  split; [exact H|].
  destruct (leaf_consistent_recognized_keys (exact_holds (1 # 1000000))
              {| LeafConsistent.scankeys := [overlap_key; polygon_key];
                 LeafConsistent.leafDatum := high_leaf |} H)
    as (out & E & _ & Ef & Er & _).
  exists out. split; [exact E|].
  assert (Hf : LeafConsistent.flag out = true) by (rewrite Ef; reflexivity).
  split; [exact Hf | rewrite (Er Hf); reflexivity].
Defined.

(** ** The two functions together *)

Lemma compare_keys_all_pass call leaf keys :
  forall rc rc',
    LeafConsistent.compare_keys call leaf keys rc = Ok (true, rc') ->
    Forall (fun sk =>
              (sk_subtype sk = BOXOID \/ sk_subtype sk = POLYGONOID) /\
              LeafConsistent.exact_test call (sk_strategy sk) leaf (sk_argument sk)
              = Ok true) keys.
Proof.
  induction keys as [|sk keys IH]; intros rc rc' H; [constructor|].
  simpl in H.
  destruct (spg_box_quad_get_scankey_bbox sk (Some rc)) as [b|e] eqn:Eb;
    simpl in H; [|discriminate].
  destruct (bbox_argument _ _ _ Eb) as [Ea Hs]. rewrite Ea in H.
  destruct (LeafConsistent.exact_test call (sk_strategy sk) leaf (sk_argument sk))
    as [[|]|e] eqn:Et; simpl in H; try discriminate.
  constructor; [split; assumption | apply (IH _ _ H)].
Qed.

Lemma exact_test_ok_supported call strategy leaf query b :
  LeafConsistent.exact_test call strategy leaf query = Ok b ->
  In strategy supported_strategies.
Proof.
  intros H.
  destruct (in_dec Z.eq_dec strategy supported_strategies) as [Hin|Hout];
    [exact Hin|].
  rewrite (exact_test_unrecognized _ _ _ _ Hout) in H. discriminate.
Qed.

Lemma check_keys_cover EPSILON R leaf keys :
  well_formed leaf ->
  bounded_by leaf R ->
  Forall (fun sk =>
            LeafConsistent.exact_test (exact_holds EPSILON) (sk_strategy sk) leaf
              (sk_argument sk) = Ok true) keys ->
  InnerConsistent.check_keys EPSILON R
    (map (fun sk => (sk, getRangeBox (sk_argument sk))) keys) = Ok true.
Proof.
  intros Hwf Hb. induction 1 as [|sk keys Hsk _ IH]; simpl; [reflexivity|].
  rewrite (region_test_covers EPSILON _ R leaf _ Hwf Hb Hsk). simpl. exact IH.
Qed.

(** X10.  The scan loses no leaf at an inner node.  If the leaf function,
    with the exact comparisons of boxes, accepts a leaf box (low corner
    not beyond high corner) for the scan keys, then for a node that is not
    all-the-same (of at most 255 nodes) the inner function ends without an
    error for the same keys and reports every node whose traversal value
    bounds the leaf box. *)
Theorem accepted_leaf_is_not_pruned EPSILON (i : InnerConsistent.spgInnerConsistentIn)
        (leaf : BOX) (quadrant : Z) out_leaf :
  InnerConsistent.allTheSame i = false ->
  InnerConsistent.nNodes i < 256 ->
  well_formed leaf ->
  LeafConsistent.spg_loose_quad_leaf_consistent (exact_holds EPSILON)
    {| LeafConsistent.scankeys := InnerConsistent.scankeys i;
       LeafConsistent.leafDatum := leaf |} = Ok out_leaf ->
  LeafConsistent.flag out_leaf = true ->
  In quadrant (InnerConsistent.node_range (InnerConsistent.nNodes i)) ->
  bounded_by leaf
    (nextRectBox (start_of i) (getRangeBox (InnerConsistent.prefixDatum i)) quadrant) ->
  exists out,
    InnerConsistent.spg_loose_quad_inner_consistent EPSILON i = Ok out /\
    In quadrant (InnerConsistent.nodeNumbers out).
Proof.
  intros Ha _ Hwf Hleaf Hflag Hq Hb.
  unfold LeafConsistent.spg_loose_quad_leaf_consistent in Hleaf.
  cbn [LeafConsistent.leafDatum LeafConsistent.scankeys] in Hleaf.
  destruct (LeafConsistent.compare_keys (exact_holds EPSILON) leaf
              (InnerConsistent.scankeys i) false) as [[f rc]|e] eqn:Ec;
    simpl in Hleaf; [|discriminate].
  inversion Hleaf as [Hout]. subst out_leaf. cbn in Hflag. subst f.
  pose proof (compare_keys_all_pass _ _ _ _ _ Ec) as Hall.
  assert (Hrec : Forall recognized (InnerConsistent.scankeys i)).
  { eapply Forall_impl; [|exact Hall]. intros sk [Hs Ht]. split; [exact Hs|].
    apply (exact_test_ok_supported _ _ _ _ _ Ht). }
  assert (Hrun : exists out,
            InnerConsistent.spg_loose_quad_inner_consistent EPSILON i = Ok out).
  { unfold InnerConsistent.spg_loose_quad_inner_consistent. rewrite Ha.
    rewrite get_queries_recognized.
    2:{ eapply Forall_impl; [|exact Hrec]. intros sk [H _]. exact H. }
    simpl. rewrite combine_with_map. apply visit_nodes_runs.
    intros R. apply check_keys_supported.
    apply Forall_map. eapply Forall_impl; [|exact Hrec]. intros sk [_ H]. exact H. }
  destruct Hrun as [out Hout]. exists out. split; [exact Hout|].
  destruct (inner_consistent_result EPSILON i out Ha Hout) as [E1 _].
  rewrite E1. apply filter_In. split; [exact Hq|].
  unfold passes, keys_of.
  rewrite (check_keys_cover EPSILON _ leaf _ Hwf Hb); [reflexivity|].
  eapply Forall_impl; [|exact Hall]. intros sk [_ Ht]. exact Ht.
Qed.

Lemma accepted_leaf_is_not_pruned_witness :
  exists out,
    InnerConsistent.spg_loose_quad_inner_consistent (1 # 1000000) (at_root [overlap_key])
    = Ok out /\
    In 1 (InnerConsistent.nodeNumbers out).
Proof.
  assert (Hwf : well_formed wide_leaf).
  { unfold well_formed. simpl. unfold Qle. simpl. lia. }
  assert (Hb : bounded_by wide_leaf
                 (nextRectBox (start_of (at_root [overlap_key]))
                    (getRangeBox unit_centroid) 1)).
  { unfold bounded_by, in_range. simpl. unfold Qle. simpl. lia. }
  refine (accepted_leaf_is_not_pruned (1 # 1000000) (at_root [overlap_key])
            wide_leaf 1 _ eq_refl eq_refl Hwf eq_refl eq_refl _ Hb).
  simpl. tauto.
Defined.

(** ** The choose function: what it answers *)

Lemma double_to_int_range d t :
  double_to_int d = Some t -> INT_MIN <= t <= INT_MAX.
Proof.
  unfold double_to_int. destruct d as [[|q|]|]; try discriminate.
  destruct (_ && _) eqn:E; [|discriminate]. intros H. inversion H. subst t.
  apply andb_true_iff in E. destruct E as [E1 E2].
  apply Z.leb_le in E1. apply Z.leb_le in E2. lia.
Qed.

Lemma getQuadrant_range centroid inBox :
  0 <= getQuadrant centroid inBox <= 3.
Proof.
  unfold getQuadrant. destruct (dge _ _), (dge _ _); lia.
Qed.

Lemma descend_quadrant_range box n : forall currentBox q r,
  0 <= q <= 3 -> Choose.descend n currentBox box q = Some r -> 0 <= snd r <= 3.
Proof.
  induction n as [|n IH]; intros cb q r Hq H.
  - inversion H. exact Hq.
  - simpl in H. destruct (Choose.step cb box) as [s|] eqn:Es; [|discriminate].
    cbn [bind] in H. apply (IH _ _ _ (eq_ind_r (fun z => 0 <= z <= 3)
                                       (getQuadrant_range cb box)
                                       (step_quadrant _ _ _ Es)) H).
Qed.

(** ** Rounding to binary64 *)

(** Powers of two as rationals. *)
Lemma pow2_pos e : (0 < 2 ^ e)%Q.
Proof. apply Qpower_0_lt. reflexivity. Qed.

Lemma Zpow2_pos k : 0 <= k -> 0 < 2 ^ k.
Proof. intros H. apply Z.pow_pos_nonneg; lia. Qed.

Lemma pow2_nonneg k : 0 <= k -> (2 ^ k == inject_Z (2 ^ k))%Q.
Proof. intros H. symmetry. exact (Zpower_Qpower 2 k H). Qed.

Lemma pow2_neg k : 0 <= k -> (2 ^ (- k) == 1 # Z.to_pos (2 ^ k))%Q.
Proof.
  intros H. rewrite Qpower_opp, (pow2_nonneg k H).
  pose proof (Zpow2_pos k H) as Hp.
  destruct (2 ^ k) as [|p|p] eqn:E; try lia. reflexivity.
Qed.

Lemma pow2_le_frac e n d :
  (2 ^ e <= n # d)%Q <->
  (if 0 <=? e then Zpos d * 2 ^ e <= n else Zpos d <= n * 2 ^ (- e)).
Proof.
  destruct (Z.leb_spec 0 e) as [He|He].
  - rewrite (pow2_nonneg e He). unfold Qle, inject_Z. cbn [Qnum Qden]. lia.
  - replace e with (- - e) at 1 by lia. rewrite (pow2_neg (- e)) by lia.
    pose proof (Zpow2_pos (- e) ltac:(lia)) as Hp.
    unfold Qle. cbn [Qnum Qden]. rewrite Z2Pos.id by exact Hp. lia.
Qed.

Lemma pow2_gt_frac e n d :
  (n # d < 2 ^ e)%Q <->
  (if 0 <=? e then n < Zpos d * 2 ^ e else n * 2 ^ (- e) < Zpos d).
Proof.
  destruct (Z.leb_spec 0 e) as [He|He].
  - rewrite (pow2_nonneg e He). unfold Qlt, inject_Z. cbn [Qnum Qden]. lia.
  - replace e with (- - e) at 1 by lia. rewrite (pow2_neg (- e)) by lia.
    pose proof (Zpow2_pos (- e) ltac:(lia)) as Hp.
    unfold Qlt. cbn [Qnum Qden]. rewrite Z2Pos.id by exact Hp. lia.
Qed.

Lemma in_binade_unique q e e' : in_binade q e -> in_binade q e' -> e = e'.
Proof.
  intros [L U] [L' U'].
  assert (H1 : e < e' + 1).
  { apply (Qpower_lt_compat_l_inv 2); [|reflexivity].
    apply (Qle_lt_trans _ q); assumption. }
  assert (H2 : e' < e + 1).
  { apply (Qpower_lt_compat_l_inv 2); [|reflexivity].
    apply (Qle_lt_trans _ q); assumption. }
  lia.
Qed.

Lemma binade_spec n d : 0 < n -> in_binade (n # d) (binade n d).
Proof.
  intros Hn. unfold in_binade. rewrite pow2_le_frac, pow2_gt_frac.
  unfold binade.
  pose proof (Z.log2_spec n Hn) as [A1 A2].
  pose proof (Z.log2_spec (Zpos d) ltac:(lia)) as [B1 B2].
  pose proof (Z.log2_nonneg n) as A0.
  pose proof (Z.log2_nonneg (Zpos d)) as B0.
  set (a := Z.log2 n) in *. set (b := Z.log2 (Zpos d)) in *.
  rewrite Z.pow_succ_r in A2, B2 by assumption.
  pose proof (Zpow2_pos a A0) as Pa. pose proof (Zpow2_pos b B0) as Pb.
  destruct (Z.leb_spec 0 (a - b)) as [He|He].
  - assert (Ea : 2 ^ a = 2 ^ (a - b) * 2 ^ b).
    { rewrite <- Z.pow_add_r by lia. f_equal. lia. }
    pose proof (Zpow2_pos (a - b) He) as Pe.
    destruct (Z.leb_spec (Zpos d * 2 ^ (a - b)) n) as [Ht|Ht].
    + destruct (Z.leb_spec 0 (a - b)); [|lia].
      destruct (Z.leb_spec 0 (a - b + 1)); [|lia].
      split; [exact Ht|]. rewrite Z.pow_add_r by lia. change (2 ^ 1) with 2. nia.
    + replace (a - b - 1 + 1) with (a - b) by lia.
      destruct (Z.leb_spec 0 (a - b)); [|lia]. split; [|exact Ht].
      destruct (Z.leb_spec 0 (a - b - 1)).
      * assert (E2 : 2 ^ (a - b) = 2 * 2 ^ (a - b - 1)).
        { rewrite <- Z.pow_succ_r by lia. f_equal. lia. }
        nia.
      * assert (a - b = 0) by lia.
        replace (- (a - b - 1)) with 1 by lia. change (2 ^ 1) with 2.
        replace a with b in * by lia. lia.
  - assert (Eb : 2 ^ b = 2 ^ (- (a - b)) * 2 ^ a).
    { rewrite <- Z.pow_add_r by lia. f_equal. lia. }
    pose proof (Zpow2_pos (- (a - b)) ltac:(lia)) as Pe.
    destruct (Z.leb_spec (Zpos d) (n * 2 ^ (- (a - b)))) as [Ht|Ht].
    + destruct (Z.leb_spec 0 (a - b)); [lia|]. split; [exact Ht|].
      destruct (Z.leb_spec 0 (a - b + 1)).
      * assert (a - b = -1) by lia.
        replace (a - b + 1) with 0 by lia. change (2 ^ 0) with 1.
        replace (- (a - b)) with 1 in * by lia. change (2 ^ 1) with 2 in *. lia.
      * assert (E2 : 2 ^ (- (a - b)) = 2 * 2 ^ (- (a - b + 1))).
        { rewrite <- Z.pow_succ_r by lia. f_equal. lia. }
        pose proof (Zpow2_pos (- (a - b + 1)) ltac:(lia)). nia.
    + replace (a - b - 1 + 1) with (a - b) by lia.
      destruct (Z.leb_spec 0 (a - b)); [lia|].
      destruct (Z.leb_spec 0 (a - b - 1)); [lia|]. split; [|exact Ht].
      assert (E2 : 2 ^ (- (a - b - 1)) = 2 * 2 ^ (- (a - b))).
      { rewrite <- Z.pow_succ_r by lia. f_equal. lia. }
      nia.
Qed.

(** The rounded number is within half a unit of the last place. *)
Lemma nearest_even_error N D :
  0 < D -> - D <= 2 * (nearest_even N D * D - N) <= D.
Proof.
  intros HD. unfold nearest_even.
  pose proof (Z.div_mod N D ltac:(lia)) as E.
  pose proof (Z.mod_pos_bound N D HD) as R.
  set (q := N / D) in *. set (r := N mod D) in *.
  destruct (Z.ltb_spec (2 * r) D); [nia|].
  destruct (Z.ltb_spec D (2 * r)); [nia|].
  destruct (Z.even q); nia.
Qed.

Lemma binary64_pos_value n d :
  Z.max (binade n d - 52) (-1074) < 0 ->
  exists mant,
    binary64_pos n d
    = Fin (Qred (mant # Z.to_pos (2 ^ (- Z.max (binade n d - 52) (-1074))))) /\
    - Zpos d
    <= 2 * (mant * Zpos d - n * 2 ^ (- Z.max (binade n d - 52) (-1074)))
    <= Zpos d.
Proof.
  intros Hs. unfold binary64_pos.
  destruct (Z.leb_spec 0 (Z.max (binade n d - 52) (-1074))); [lia|].
  eexists. split; [reflexivity|]. apply nearest_even_error. lia.
Qed.

Lemma binary64_comp q q' : (q == q')%Q -> binary64 q = binary64 q'.
Proof. intros H. unfold binary64. now rewrite (Qred_complete _ _ H). Qed.

Lemma binade_below n d k :
  0 < n -> 0 <= k -> (n # d < inject_Z (2 ^ k))%Q -> binade n d < k.
Proof.
  intros Hn Hk H. destruct (binade_spec n d Hn) as [L _].
  apply (Qpower_lt_compat_l_inv 2); [|reflexivity].
  rewrite (pow2_nonneg k Hk). apply (Qle_lt_trans _ (n # d)); assumption.
Qed.

(** The rounding error of a positive number below [2 ^ 32]. *)
Lemma binary64_pos_error n d :
  0 < n -> (n # d < inject_Z (2 ^ 32))%Q ->
  exists y, binary64_pos n d = Fin y /\
            (- (1 # 4194304) <= y - (n # d) <= 1 # 4194304)%Q.
Proof.
  intros Hn Hlt. pose proof (binade_below n d 32 Hn ltac:(lia) Hlt) as He.
  destruct (binary64_pos_value n d) as (mant & E & Hm); [lia|].
  set (s := Z.max (binade n d - 52) (-1074)) in *.
  assert (Hs : 21 <= - s) by lia.
  assert (Hw : 2 ^ 21 <= 2 ^ (- s)) by (apply Z.pow_le_mono_r; lia).
  exists (Qred (mant # Z.to_pos (2 ^ (- s)))). split; [exact E|].
  rewrite Qred_correct. unfold Qle, Qminus, Qplus, Qopp. cbn [Qnum Qden].
  rewrite !Pos2Z.inj_mul, Z2Pos.id by lia.
  change (2 ^ 21) with 2097152 in Hw. set (w := 2 ^ (- s)) in *.
  split; nia.
Qed.

Lemma binary64_error q :
  (- inject_Z (2 ^ 32) < q < inject_Z (2 ^ 32))%Q ->
  exists y, binary64 q = Fin y /\
            (- (1 # 4194304) <= y - q <= 1 # 4194304)%Q.
Proof.
  intros [Hlo Hhi]. unfold binary64.
  pose proof (Qred_correct q) as Er.
  destruct (Qred q) as [[|n|n] d].
  - exists 0%Q. split; [reflexivity|]. rewrite <- Er.
    unfold Qle, Qminus, Qplus, Qopp. cbn. lia.
  - destruct (binary64_pos_error (Zpos n) d) as (y & E & Hy); [lia| |].
    + now rewrite Er.
    + exists y. split; [exact E|]. now rewrite <- Er.
  - destruct (binary64_pos_error (Zpos n) d) as (y & E & Hy); [lia| |].
    + assert (Eo : (Zpos n # d == - q)%Q) by (rewrite <- Er; reflexivity).
      rewrite Eo. lra.
    + exists (- y)%Q. cbn [Qnum Qden]. rewrite E. split; [reflexivity|].
      assert (Eo : (q == - (Zpos n # d))%Q) by (rewrite <- Er; reflexivity).
      rewrite Eo. lra.
Qed.

(** A multiple of [2 ^ -22] below [2 ^ 31] is a double. *)
Lemma binary64_pos_exact n d a j :
  0 < n -> 0 <= j <= 22 -> (n # d < inject_Z (2 ^ 31))%Q ->
  n * 2 ^ j = a * Zpos d ->
  exists y, binary64_pos n d = Fin y /\ (y == n # d)%Q.
Proof.
  intros Hn Hj Hlt Ha. pose proof (binade_below n d 31 Hn ltac:(lia) Hlt) as He.
  destruct (binary64_pos_value n d) as (mant & E & Hm); [lia|].
  set (s := Z.max (binade n d - 52) (-1074)) in *.
  assert (Hs : 22 <= - s) by lia.
  assert (Ew : 2 ^ (- s) = 2 ^ j * 2 ^ (- s - j)).
  { rewrite <- Z.pow_add_r by lia. f_equal. lia. }
  pose proof (Zpow2_pos (- s - j) ltac:(lia)) as Pk.
  pose proof (Zpow2_pos j ltac:(lia)) as Pj.
  exists (Qred (mant # Z.to_pos (2 ^ (- s)))). split; [exact E|].
  rewrite Qred_correct. unfold Qeq. cbn [Qnum Qden].
  rewrite Z2Pos.id by nia.
  assert (Em : mant = a * 2 ^ (- s - j)).
  { rewrite Ew in Hm. set (u := 2 ^ (- s - j)) in *. set (v := 2 ^ j) in *.
    assert (En : n * (v * u) = a * u * Zpos d) by nia.
    rewrite En in Hm. nia. }
  rewrite Em, Ew. nia.
Qed.

Lemma binary64_exact q a j :
  0 <= j <= 22 -> (- inject_Z (2 ^ 31) < q < inject_Z (2 ^ 31))%Q ->
  (q * inject_Z (2 ^ j) == inject_Z a)%Q ->
  exists y, binary64 q = Fin y /\ (y == q)%Q.
Proof.
  intros Hj [Hlo Hhi] Ha. unfold binary64.
  pose proof (Qred_correct q) as Er.
  destruct (Qred q) as [[|n|n] d].
  - exists 0%Q. split; [reflexivity|]. rewrite <- Er. reflexivity.
  - destruct (binary64_pos_exact (Zpos n) d a j) as (y & E & Hy); [lia|exact Hj| | |].
    + now rewrite Er.
    + rewrite <- Er in Ha. unfold Qeq, Qmult, inject_Z in Ha. cbn [Qnum Qden] in Ha.
      lia.
    + exists y. split; [exact E|]. now rewrite <- Er.
  - destruct (binary64_pos_exact (Zpos n) d (- a) j) as (y & E & Hy); [lia|exact Hj| | |].
    + assert (Eo : (Zpos n # d == - q)%Q) by (rewrite <- Er; reflexivity).
      rewrite Eo. lra.
    + rewrite <- Er in Ha. unfold Qeq, Qmult, inject_Z in Ha. cbn [Qnum Qden] in Ha.
      lia.
    + exists (- y)%Q. cbn [Qnum Qden]. rewrite E. split; [reflexivity|].
      rewrite Hy, <- Er. reflexivity.
Qed.

(** [in_binade] with the powers cleared: both sides times [2 ^ w]. *)
Lemma pow2_frac e w :
  0 <= w -> 0 <= e + w -> (2 ^ e == 2 ^ (e + w) # Z.to_pos (2 ^ w))%Q.
Proof.
  intros Hw Hew. replace e with ((e + w) + - w) at 1 by lia.
  rewrite Qpower_plus by discriminate.
  rewrite (pow2_nonneg _ Hew), (pow2_neg _ Hw).
  unfold Qeq, Qmult, inject_Z. cbn [Qnum Qden]. lia.
Qed.

Lemma in_binade_Z n d e w :
  0 <= w -> 0 <= e + w ->
  in_binade (n # d) e <->
  2 ^ (e + w) * Zpos d <= n * 2 ^ w < 2 ^ (e + w + 1) * Zpos d.
Proof.
  intros Hw Hew. unfold in_binade.
  rewrite (pow2_frac e w Hw Hew), (pow2_frac (e + 1) w Hw ltac:(lia)).
  replace (e + 1 + w) with (e + w + 1) by lia.
  pose proof (Zpow2_pos w Hw) as Pw.
  unfold Qle, Qlt. cbn [Qnum Qden]. rewrite Z2Pos.id by exact Pw. tauto.
Qed.

(** Rounding keeps a number in its binade when the number is one unit of
    the last place below the next power of two. *)
Lemma binary64_pos_keeps_binade n d e :
  0 < n -> in_binade (n # d) e -> -1022 <= e <= 51 ->
  n * 2 ^ (52 - e) + Zpos d <= 2 ^ 53 * Zpos d ->
  exists y, binary64_pos n d = Fin y /\ in_binade y e.
Proof.
  intros Hn Hb He Hgap.
  assert (Ee : binade n d = e)
    by (apply (in_binade_unique (n # d)); [apply binade_spec|]; assumption).
  destruct (binary64_pos_value n d) as (mant & E & Hm); [lia|].
  rewrite Ee in E, Hm. replace (Z.max (e - 52) (-1074)) with (e - 52) in E, Hm by lia.
  replace (- (e - 52)) with (52 - e) in E, Hm by lia.
  apply (in_binade_Z n d e (52 - e)) in Hb; [|lia|lia].
  replace (e + (52 - e)) with 52 in Hb by lia.
  pose proof (Zpow2_pos (52 - e) ltac:(lia)) as Pw.
  exists (Qred (mant # Z.to_pos (2 ^ (52 - e)))). split; [exact E|].
  unfold in_binade. rewrite Qred_correct.
  apply (in_binade_Z mant _ e (52 - e)); [lia|lia|].
  replace (e + (52 - e)) with 52 by lia. rewrite Z2Pos.id by exact Pw.
  change (2 ^ (52 + 1)) with 9007199254740992 in *.
  change (2 ^ 52) with 4503599627370496 in *.
  change (2 ^ 53) with 9007199254740992 in *.
  set (w := 2 ^ (52 - e)) in *.
  assert (Hmant : 4503599627370496 <= mant < 9007199254740992) by nia.
  nia.
Qed.

Lemma binary64_keeps_binade q e :
  in_binade q e -> -1022 <= e <= 51 ->
  (q * inject_Z (2 ^ (52 - e)) + 1 <= inject_Z (2 ^ 53))%Q ->
  exists y, binary64 q = Fin y /\ in_binade y e.
Proof.
  intros Hb He Hgap. unfold binary64.
  pose proof (Qred_correct q) as Er. unfold in_binade in Hb.
  rewrite <- Er in Hb, Hgap.
  pose proof (pow2_pos e) as Pe.
  destruct (Qred q) as [[|n|n] d].
  - exfalso. destruct Hb as [Hb _].
    assert (H0 : (0 < 0 # d)%Q) by (apply (Qlt_le_trans _ (2 ^ e)); assumption).
    unfold Qlt in H0. cbn in H0. lia.
  - cbn [Qnum Qden]. apply binary64_pos_keeps_binade; [lia|exact Hb|exact He|].
    unfold Qle, Qplus, Qmult, inject_Z in Hgap. cbn [Qnum Qden] in Hgap.
    lia.
  - exfalso. destruct Hb as [Hb _].
    assert (H0 : (0 < Z.neg n # d)%Q) by (apply (Qlt_le_trans _ (2 ^ e)); assumption).
    unfold Qlt in H0. cbn in H0. lia.
Qed.

(** The quotient [c / (m / 2)] of two positive [int]s is far enough below
    the next power of two. *)
Lemma ratio_binade c m e :
  1 <= c <= INT_MAX -> 1 <= Zpos m <= INT_MAX ->
  in_binade (2 * c # m) e ->
  -31 <= e <= 31 /\
  2 * c * 2 ^ (52 - e) + Zpos m <= 2 ^ 53 * Zpos m /\
  ((0 <= e /\ 2 ^ e * Zpos m <= 2 * c < 2 ^ (e + 1) * Zpos m) \/
   (e <= 0 /\ 2 * c < Zpos m)).
Proof.
  unfold INT_MAX. intros Hc Hm Hb.
  assert (He : -31 <= e <= 31).
  { destruct Hb as [L U]. split.
    - assert (H : -30 < e + 1); [|lia].
      apply (Qpower_lt_compat_l_inv 2); [|reflexivity].
      apply (Qle_lt_trans _ (2 * c # m)); [|exact U].
      rewrite pow2_le_frac. change (0 <=? -30) with false. cbv iota.
      change (2 ^ (- -30)) with 1073741824. lia.
    - assert (H : e < 32); [|lia].
      apply (Qpower_lt_compat_l_inv 2); [|reflexivity].
      apply (Qle_lt_trans _ (2 * c # m)); [exact L|].
      rewrite pow2_gt_frac. change (0 <=? 32) with true. cbv iota.
      change (2 ^ 32) with 4294967296. lia. }
  split; [exact He|].
  pose proof Hb as Hs. apply (in_binade_Z _ _ e (52 - e)) in Hs; [|lia|lia].
  replace (e + (52 - e)) with 52 in Hs by lia.
  destruct Hb as [L U]. rewrite pow2_le_frac in L. rewrite pow2_gt_frac in U.
  pose proof (Zpow2_pos (52 - e) ltac:(lia)) as Pw.
  change (2 ^ (52 + 1)) with 9007199254740992 in *.
  change (2 ^ 52) with 4503599627370496 in *.
  change (2 ^ 53) with 9007199254740992 in *.
  destruct (Z.leb_spec 0 (e + 1)) as [H1|H1].
  - (* the next power of two is an integer *)
    assert (Ew : 2 ^ (52 - e) * 2 ^ (e + 1) = 9007199254740992).
    { rewrite <- Z.pow_add_r by lia. replace (52 - e + (e + 1)) with 53 by lia.
      reflexivity. }
    pose proof (Zpow2_pos (e + 1) H1) as P1.
    assert (Hmw : Zpos m <= 2 ^ (52 - e)).
    { set (w := 2 ^ (52 - e)) in *. nia. }
    split.
    + set (w := 2 ^ (52 - e)) in *. set (p := 2 ^ (e + 1)) in *.
      assert (H2 : (2 * c + 1) * w <= Zpos m * p * w) by nia. nia.
    + destruct (Z.leb_spec 0 e) as [H0|H0].
      * left. split; [exact H0|]. lia.
      * right. split; [lia|]. assert (e = -1) by lia. subst e. cbn in U. lia.
  - (* the next power of two is a fraction *)
    assert (Ew : 2 ^ (52 - e) = 9007199254740992 * 2 ^ (- (e + 1))).
    { change 9007199254740992 with (2 ^ 53). rewrite <- Z.pow_add_r by lia.
      f_equal. lia. }
    pose proof (Zpow2_pos (- (e + 1)) ltac:(lia)) as P1.
    destruct (Z.leb_spec 0 e); [lia|].
    split.
    + rewrite Ew. set (p := 2 ^ (- (e + 1))) in *. nia.
    + right. split; [lia|]. nia.
Qed.

(** ** The choose function: the level equation and the descent *)

Lemma double_to_int_eq q k :
  (q == inject_Z k)%Q -> INT_MIN <= k <= INT_MAX ->
  double_to_int (Some (Fin q)) = Some k.
Proof.
  intros E Hk. unfold double_to_int.
  unfold Qeq, inject_Z in E. cbn [Qnum Qden] in E.
  assert (Eq : Qnum q ÷ Zpos (Qden q) = k).
  { replace (Qnum q) with (k * Zpos (Qden q)) by lia. apply Z.quot_mul. lia. }
  rewrite Eq. unfold INT_MIN, INT_MAX in *.
  destruct (Z.leb_spec (-2147483648) k); [|lia].
  destruct (Z.leb_spec k 2147483647); [|lia]. reflexivity.
Qed.

Lemma floor_log2_in_binade y e :
  in_binade y e -> floor_log2 (Some (Fin y)) = finite (inject_Z e).
Proof.
  intros Hb. pose proof (pow2_pos e) as Pe.
  assert (H0 : (0 < y)%Q) by (apply (Qlt_le_trans _ (2 ^ e)); [exact Pe | apply Hb]).
  unfold floor_log2. destruct y as [[|n|n] d]; cbn [Qnum Qden].
  - unfold Qlt in H0. cbn in H0. lia.
  - now rewrite (in_binade_unique _ _ _ (binade_spec (Zpos n) d eq_refl) Hb).
  - unfold Qlt in H0. cbn in H0. lia.
Qed.

(** [floor(log2(c / (m / 2))) - 1] for positive [int]s [c] and [m]. *)
Lemma level_candidate c m :
  1 <= c <= INT_MAX -> 1 <= m <= INT_MAX ->
  exists e,
    double_to_int
      (dsub (floor_log2 (ddiv (finite (int_to_double c))
                              (ddiv (finite (int_to_double m)) (finite 2))))
            (finite 1)) = Some (e - 1) /\
    -31 <= e <= 31 /\
    ((0 <= e /\ 2 ^ e * m <= 2 * c < 2 ^ (e + 1) * m) \/
     (e <= 0 /\ 2 * c < m)).
Proof.
  intros Hc Hm. destruct m as [|p|p]; try lia.
  pose proof (binade_spec (2 * c) p ltac:(lia)) as Hb.
  destruct (ratio_binade c p _ Hc Hm Hb) as (He & Hgap & Hspec).
  set (e := binade (2 * c) p) in *.
  exists e. split; [|split; assumption].
  unfold int_to_double, INT_MAX in *.
  change (ddiv (finite (inject_Z (Zpos p))) (finite 2))
    with (Some (binary64 (inject_Z (Zpos p) / 2))).
  destruct (binary64_exact (inject_Z (Zpos p) / 2) (Zpos p) 1) as (r & Er & Hr).
  { lia. }
  { unfold Qlt, Qdiv, Qmult, Qinv, Qopp, inject_Z. cbn. lia. }
  { unfold Qeq, Qdiv, Qmult, Qinv, inject_Z. cbn. lia. }
  rewrite Er. unfold finite at 1. cbn [ddiv].
  assert (Enz : Qeq_bool r 0 = false).
  { destruct (Qeq_bool r 0) eqn:E0; [|reflexivity].
    apply Qeq_bool_eq in E0. rewrite E0 in Hr.
    unfold Qeq, Qdiv, Qmult, Qinv, inject_Z in Hr. cbn in Hr. lia. }
  rewrite Enz.
  assert (Eq : (inject_Z c / r == 2 * c # p)%Q).
  { rewrite Hr. unfold Qeq, Qdiv, Qmult, Qinv, inject_Z. cbn [Qnum Qden].
    rewrite Z.mul_1_r. cbn [Qnum Qden]. lia. }
  rewrite (binary64_comp _ _ Eq).
  destruct (binary64_keeps_binade (2 * c # p) e Hb ltac:(lia)) as (y & Ey & Hy).
  { unfold Qle, Qplus, Qmult, inject_Z. cbn [Qnum Qden]. lia. }
  rewrite Ey, (floor_log2_in_binade y e Hy).
  change (dsub (finite (inject_Z e)) (finite 1))
    with (Some (binary64 (inject_Z e + - (1)))).
  destruct (binary64_exact (inject_Z e + - (1)) (e - 1) 0) as (l & El & Hl).
  { lia. }
  { unfold Qlt, Qplus, Qopp, inject_Z. cbn [Qnum Qden]. lia. }
  { unfold Qeq, Qplus, Qmult, Qopp, inject_Z. cbn [Qnum Qden]. lia. }
  rewrite El. apply double_to_int_eq.
  - rewrite Hl. unfold Qeq, Qplus, Qopp, inject_Z. cbn [Qnum Qden]. lia.
  - unfold INT_MIN, INT_MAX. lia.
Qed.

Lemma inside_inject k t : - k <= t <= k -> inside k (inject_Z t).
Proof.
  intros H. unfold inside. rewrite <- !Zle_Qle. lia.
Qed.

(** The midpoint of two coordinates of size at most [k], as the doubles
    give it, is less than one unit beyond [k]. *)
Lemma midpoint_inside k lo hi :
  0 <= k <= INT_MAX -> inside k lo -> inside k hi ->
  exists v, midpoint (finite lo) (finite hi) = Some (Fin v) /\
            (- inject_Z k - 1 < v < inject_Z k + 1)%Q.
Proof.
  unfold INT_MAX, inside. intros Hk [L1 L2] [H1 H2].
  rewrite inject_Z_opp in L1, H1.
  assert (K0 : (0 <= inject_Z k)%Q)
    by (change 0%Q with (inject_Z 0); rewrite <- Zle_Qle; lia).
  assert (K1 : (inject_Z k <= 2147483647)%Q)
    by (change 2147483647%Q with (inject_Z 2147483647); rewrite <- Zle_Qle; lia).
  change (inject_Z (2 ^ 32)) with 4294967296%Q in *.
  unfold midpoint.
  change (dsub (finite hi) (finite lo)) with (Some (binary64 (hi + - lo))).
  destruct (binary64_error (hi + - lo)) as (y1 & E1 & B1).
  { change (inject_Z (2 ^ 32)) with 4294967296%Q. lra. }
  rewrite E1.
  change (ddiv (Some (Fin y1)) (finite 2)) with (Some (binary64 (y1 / 2))).
  destruct (binary64_error (y1 / 2)) as (y2 & E2 & B2).
  { change (inject_Z (2 ^ 32)) with 4294967296%Q.
    unfold Qdiv. change (/ 2)%Q with (1 # 2)%Q. lra. }
  rewrite E2.
  change (dadd (finite lo) (Some (Fin y2))) with (Some (binary64 (lo + y2))).
  unfold Qdiv in B2. change (/ 2)%Q with (1 # 2)%Q in B2.
  destruct (binary64_error (lo + y2)) as (y3 & E3 & B3).
  { change (inject_Z (2 ^ 32)) with 4294967296%Q. lra. }
  rewrite E3. exists y3. split; [reflexivity|]. lra.
Qed.

Lemma double_to_int_trunc k v :
  0 <= k <= INT_MAX -> (- inject_Z k - 1 < v < inject_Z k + 1)%Q ->
  exists t, double_to_int (Some (Fin v)) = Some t /\ - k <= t <= k.
Proof.
  intros Hk [Hlo Hhi]. destruct v as [a b]. unfold double_to_int.
  unfold Qlt, Qminus, Qplus, Qopp, inject_Z in Hlo, Hhi.
  cbn [Qnum Qden] in Hlo, Hhi. cbn [Qnum Qden].
  assert (Hq : - k <= a ÷ Zpos b <= k).
  { destruct (Z.le_gt_cases 0 a) as [Ha|Ha].
    - pose proof (Z.quot_pos a (Zpos b) Ha ltac:(lia)).
      assert (a ÷ Zpos b < k + 1); [|lia].
      apply Z.quot_lt_upper_bound; lia.
    - replace a with (- - a) by lia. rewrite Z.quot_opp_l by lia.
      pose proof (Z.quot_pos (- a) (Zpos b) ltac:(lia) ltac:(lia)).
      assert (- a ÷ Zpos b < k + 1); [|lia].
      apply Z.quot_lt_upper_bound; lia. }
  exists (a ÷ Zpos b). split; [|exact Hq].
  unfold INT_MIN, INT_MAX in *.
  destruct (Z.leb_spec (-2147483648) (a ÷ Zpos b)); [|lia].
  destruct (Z.leb_spec (a ÷ Zpos b) 2147483647); [|lia].
  reflexivity.
Qed.

(** One turn of the loop neither leaves the [int] range nor the bounds of
    the coordinates it started from. *)
Lemma step_defined k currentBox box :
  0 <= k <= INT_MAX -> within k currentBox ->
  exists s, Choose.step currentBox box = Some s /\
            within k (fst s) /\ snd s = getQuadrant currentBox box.
Proof.
  intros Hk (Hlx & Hhx & Hly & Hhy). unfold Choose.step.
  destruct (midpoint_inside k _ _ Hk Hlx Hhx) as (vx & Evx & Hvx).
  destruct (midpoint_inside k _ _ Hk Hly Hhy) as (vy & Evy & Hvy).
  destruct (double_to_int_trunc k vx Hk Hvx) as (mx & Emx & Hmx).
  destruct (double_to_int_trunc k vy Hk Hvy) as (my & Emy & Hmy).
  rewrite Evx, Evy, Emx, Emy. cbn [bind]. eexists. split; [reflexivity|].
  cbn [fst snd]. split; [|reflexivity].
  pose proof (inside_inject k mx Hmx) as Imx.
  pose proof (inside_inject k my Hmy) as Imy.
  unfold int_to_double.
  destruct (getQuadrant currentBox box =? 0); [unfold within; simpl; tauto|].
  destruct (getQuadrant currentBox box =? 1); [unfold within; simpl; tauto|].
  destruct (getQuadrant currentBox box =? 2); [unfold within; simpl; tauto|].
  destruct (getQuadrant currentBox box =? 3); unfold within; simpl; tauto.
Qed.

Lemma descend_defined k box n : forall currentBox q,
  0 <= k <= INT_MAX -> within k currentBox -> 0 <= q <= 3 ->
  exists r, Choose.descend n currentBox box q = Some r /\ 0 <= snd r <= 3.
Proof.
  induction n as [|n IH]; intros cb q Hk Hw Hq.
  - exists (cb, q). split; [reflexivity | exact Hq].
  - destruct (step_defined k cb box Hk Hw) as (s & Es & Hs & Hsq).
    simpl. rewrite Es. cbn [bind]. apply IH; [exact Hk | exact Hs |].
    rewrite Hsq. apply getQuadrant_range.
Qed.

Lemma longer_side_range b c : longer_side b = Some c -> INT_MIN <= c <= INT_MAX.
Proof.
  unfold longer_side.
  destruct (double_to_int (dsub (finite (x (high b))) _)) as [w|] eqn:Ew;
    [|discriminate].
  destruct (double_to_int (dsub (finite (y (high b))) _)) as [h|] eqn:Eh;
    [|discriminate].
  cbn [bind]. intros H. inversion H.
  pose proof (double_to_int_range _ _ Ew). pose proof (double_to_int_range _ _ Eh).
  destruct (w >=? h); lia.
Qed.

Lemma int_sub_exact a b :
  INT_MIN <= a - b <= INT_MAX -> int_sub a b = a - b.
Proof.
  unfold int_sub, INT_MIN, INT_MAX. intros H.
  rewrite Z.mod_small; lia.
Qed.

(** The level choosing equation on positive sides. *)
Lemma levelDifference_by_size centroid box level c m :
  longer_side centroid = Some c -> longer_side box = Some m ->
  1 <= c -> 1 <= m -> 0 <= level <= INT_MAX ->
  exists d,
    Choose.levelDifference centroid box level = Some d /\
    0 <= d <= 32 /\
    c < 2 ^ (level + d + 1) * m /\
    (0 < d -> 2 ^ (level + d) * m <= c).
Proof.
  intros Ec Em Hc Hm Hl.
  pose proof (longer_side_range _ _ Ec) as Rc.
  pose proof (longer_side_range _ _ Em) as Rm.
  unfold longer_side in Ec, Em. unfold Choose.levelDifference.
  destruct (double_to_int (dsub (finite (x (high centroid))) _)) as [cw|];
    [|discriminate].
  destruct (double_to_int (dsub (finite (y (high centroid))) _)) as [ch|];
    [|discriminate].
  destruct (double_to_int (dsub (finite (x (high box))) _)) as [bw|]; [|discriminate].
  destruct (double_to_int (dsub (finite (y (high box))) _)) as [bh|]; [|discriminate].
  cbn [bind] in Ec, Em |- *. inversion Ec as [Ec']. inversion Em as [Em'].
  rewrite Ec', Em'. clear Ec Em Ec' Em' cw ch bw bh.
  destruct (level_candidate c m ltac:(lia) ltac:(lia)) as (l & El & Hlr & Hspec).
  rewrite El. cbn [bind].
  unfold INT_MAX, INT_MIN in *.
  set (boxNewLevel := if l - 1 >=? 0 then l - 1 else 0).
  assert (Hb : 0 <= boxNewLevel <= 31 /\ (boxNewLevel = l - 1 \/ (boxNewLevel = 0 /\ l - 1 < 0))).
  { unfold boxNewLevel. destruct (Z.geb_spec (l - 1) 0); lia. }
  rewrite int_sub_exact by (unfold INT_MIN, INT_MAX; lia).
  eexists. split; [reflexivity|].
  assert (Hpow : forall a b, 0 <= a <= b -> 2 ^ a <= 2 ^ b).
  { intros a b H. apply Z.pow_le_mono_r; lia. }
  assert (Hpos : forall a, 0 <= a -> 0 < 2 ^ a).
  { intros a H. apply Z.pow_pos_nonneg; lia. }
  destruct (Z.geb_spec (boxNewLevel - level) 0) as [Hd|Hd].
  - (* the candidate difference is kept *)
    split; [lia|].
    destruct Hb as [Hb0 [Hb|[Hb Hneg]]].
    + destruct Hspec as [[Hl0 [S1 S2]]|[Hl0 S]]; [|lia].
      replace (level + (boxNewLevel - level) + 1) with l by lia.
      replace (level + (boxNewLevel - level)) with (l - 1) by lia.
      replace l with (Z.succ (l - 1)) in S1 by lia.
      rewrite Z.pow_succ_r in S1 by lia.
      replace (l + 1) with (Z.succ l) in S2 by lia.
      rewrite Z.pow_succ_r in S2 by lia.
      split; [nia|]. intros _. nia.
    + assert (level = 0) by lia. subst level.
      replace (0 + (boxNewLevel - 0) + 1) with 1 by lia.
      split; [|lia]. change (2 ^ 1) with 2.
      destruct Hspec as [[Hl0 [S1 S2]]|[Hl0 S]]; [|lia].
      assert (Hl1 : l = 0) by lia. subst l. change (2 ^ (0 + 1)) with 2 in S2. lia.
  - (* clamped to zero *)
    split; [lia|]. rewrite Z.add_0_r. split; [|lia].
    destruct Hspec as [[Hl0 [S1 S2]]|[Hl0 S]].
    + assert (Hle : 2 ^ (l + 1) <= 2 ^ (level + 2)) by (apply Hpow; lia).
      replace (level + 2) with (Z.succ (level + 1)) in Hle by lia.
      rewrite Z.pow_succ_r in Hle by lia.
      pose proof (Hpos (l + 1) ltac:(lia)). nia.
    + pose proof (Hpos (level + 1) ltac:(lia)). nia.
Qed.

(** X11.  The choose function on boxes with sides of at least one unit.
    When the centroid's coordinates are at most [k] in absolute value,
    [k] an [int], the longer sides [c] of the centroid and [m] of the new
    box (each a difference of doubles, rounded, then converted to [int])
    are both at least 1 and the level is not negative, every conversion
    in the function is defined and the function answers: the box is
    passed on unchanged, the node number is one of 0..3, and the number
    of levels added is the one at which the centroid's side, halved once
    per level counted from the root, is at least [m] and less than [2 m]
    (less than [2 m] only, when no level is added). *)
Theorem choose_places_box_by_size (i : Choose.spgChooseIn) (k c m : Z) :
  Choose.allTheSame i = false ->
  0 <= k <= INT_MAX -> within k (Choose.prefixDatum i) ->
  longer_side (Choose.prefixDatum i) = Some c ->
  longer_side (Choose.leafDatum i) = Some m ->
  1 <= c -> 1 <= m -> 0 <= Choose.level i <= INT_MAX ->
  exists d q,
    Choose.spg_loose_quad_choose i
    = Some {| Choose.resultType := Choose.spgMatchNode;
              Choose.restDatum := Choose.leafDatum i;
              Choose.levelAdd := Some d;
              Choose.nodeN := Some q |} /\
    0 <= d /\ 0 <= q <= 3 /\
    c < 2 ^ (Choose.level i + d + 1) * m /\
    (0 < d -> 2 ^ (Choose.level i + d) * m <= c).
Proof.
  intros Ha Hk Hw Ec Em Hc Hm Hl.
  destruct (levelDifference_by_size _ _ _ c m Ec Em Hc Hm Hl)
    as (d & Ed & Hd & H1 & H2).
  destruct (descend_defined k (Choose.leafDatum i) (Z.to_nat d)
              (Choose.prefixDatum i) 0 Hk Hw ltac:(lia)) as (r & Er & Hr).
  exists d, (snd r). unfold Choose.spg_loose_quad_choose.
  rewrite Ha, Ed. cbn [bind]. rewrite Er. cbn [bind].
  split; [reflexivity|]. split; [lia|]. split; [exact Hr|]. split; assumption.
Qed.

Lemma choose_places_box_by_size_witness :
  longer_side sliver_centroid = Some 4 /\
  longer_side two_by_one = Some 2 /\
  exists d q,
    Choose.spg_loose_quad_choose
      {| Choose.prefixDatum := sliver_centroid; Choose.leafDatum := two_by_one;
         Choose.level := 0; Choose.allTheSame := false |}
    = Some {| Choose.resultType := Choose.spgMatchNode;
              Choose.restDatum := two_by_one;
              Choose.levelAdd := Some d;
              Choose.nodeN := Some q |} /\
    0 <= d /\ 0 <= q <= 3 /\
    4 < 2 ^ (0 + d + 1) * 2 /\
    (0 < d -> 2 ^ (0 + d) * 2 <= 4).
Proof.
  assert (Ec : longer_side sliver_centroid = Some 4) by (vm_compute; reflexivity).
  assert (Em : longer_side two_by_one = Some 2) by (vm_compute; reflexivity).
  assert (Hw : within 4 sliver_centroid).
  { unfold within, inside. simpl. unfold Qle. simpl. lia. }
  split; [exact Ec|]. split; [exact Em|].
  apply (choose_places_box_by_size
           {| Choose.prefixDatum := sliver_centroid; Choose.leafDatum := two_by_one;
              Choose.level := 0; Choose.allTheSame := false |} 4 4 2
           eq_refl ltac:(unfold INT_MAX; lia) Hw Ec Em
           ltac:(lia) ltac:(lia) ltac:(simpl; unfold INT_MAX; lia)).
Defined.

(** X12.  The shape of every answer of the choose function.  The result
    type is always [spgMatchNode] and the box is passed on unchanged; for
    an all-the-same node level and node are left to the core; otherwise
    the number of added levels is not negative, the node number is one of
    0..3, it is 0 when no level is added, and with at least one added
    level it is [getQuadrant] of the new box against the box that the
    simulated descent has reached before its last turn. *)
Theorem choose_answer_shape (i : Choose.spgChooseIn) (out : Choose.spgChooseOut) :
  Choose.spg_loose_quad_choose i = Some out ->
  Choose.resultType out = Choose.spgMatchNode /\
  Choose.restDatum out = Choose.leafDatum i /\
  (Choose.allTheSame i = true ->
     Choose.levelAdd out = None /\ Choose.nodeN out = None) /\
  (Choose.allTheSame i = false ->
     exists d q,
       Choose.levelAdd out = Some d /\ Choose.nodeN out = Some q /\
       0 <= d <= INT_MAX /\ 0 <= q <= 3 /\
       (d = 0 -> q = 0) /\
       (0 < d ->
          exists cur,
            Choose.descend (Z.to_nat (d - 1)) (Choose.prefixDatum i)
              (Choose.leafDatum i) 0 = Some cur /\
            q = getQuadrant (fst cur) (Choose.leafDatum i))).
Proof.
  unfold Choose.spg_loose_quad_choose. destruct (Choose.allTheSame i).
  - intros H. inversion H. simpl. repeat split; auto; discriminate.
  - destruct (Choose.levelDifference _ _ _) as [d|] eqn:Ed; [|discriminate].
    cbn [bind].
    destruct (Choose.descend (Z.to_nat d) _ _ 0) as [r|] eqn:Er; [|discriminate].
    cbn [bind]. intros H. inversion H. simpl.
    split; [reflexivity|]. split; [reflexivity|]. split; [discriminate|].
    intros _. exists d, (snd r). split; [reflexivity|]. split; [reflexivity|].
    assert (Hd : 0 <= d <= INT_MAX).
    { revert Ed. unfold Choose.levelDifference.
      repeat (destruct (double_to_int _); [|discriminate]; cbn [bind]).
      intros E. inversion E as [E']. clear E.
      match goal with
      | |- context [int_sub ?a ?b] =>
          assert (Hs : INT_MIN <= int_sub a b <= INT_MAX)
            by (unfold int_sub, INT_MIN, INT_MAX;
                pose proof (Z.mod_pos_bound (a - b + 2147483648) 4294967296
                              ltac:(lia)); lia);
          destruct (Z.geb_spec (int_sub a b) 0); unfold INT_MAX in *; lia
      end. }
    split; [exact Hd|].
    split; [apply (descend_quadrant_range _ _ _ 0 r ltac:(lia) Er)|].
    split.
    + intros ->. simpl in Er. inversion Er. reflexivity.
    + intros Hpos. replace (Z.to_nat d) with (S (Z.to_nat (d - 1))) in Er by lia.
      apply (descend_returns_last_quadrant _ _ _ _ Er).
Qed.

Lemma choose_answer_shape_witness :
  exists cur,
    Choose.descend 1 unit_centroid small_box 0 = Some cur /\
    1 = getQuadrant (fst cur) small_box.
Proof.
  assert (E : Choose.spg_loose_quad_choose
                {| Choose.prefixDatum := unit_centroid; Choose.leafDatum := small_box;
                   Choose.level := 0; Choose.allTheSame := false |}
              = Some {| Choose.resultType := Choose.spgMatchNode;
                        Choose.restDatum := small_box;
                        Choose.levelAdd := Some 2;
                        Choose.nodeN := Some 1 |}) by (vm_compute; reflexivity).
  pose proof (choose_answer_shape _ _ E) as (_ & _ & _ & H).
  destruct (H eq_refl) as (d & q & Ed & Eq & _ & _ & _ & Hlast).
  injection Ed as <-. injection Eq as <-.
  exact (Hlast ltac:(lia)).
Defined.

(** A division by the radius 0.0 leaves nothing that converts to [int]. *)
Lemma no_level_over_zero_radius (c : Z) :
  double_to_int
    (dsub (floor_log2 (ddiv (finite (int_to_double c))
                            (ddiv (finite (int_to_double 0)) (finite 2))))
          (finite 1)) = None.
Proof.
  assert (Er : ddiv (finite (int_to_double 0)) (finite 2) = finite 0)
    by (vm_compute; reflexivity).
  rewrite Er. unfold finite. cbn [ddiv]. change (Qeq_bool 0 0) with true.
  cbv iota.
  destruct (Qeq_bool (int_to_double c) 0); [reflexivity|].
  destruct (Qle_bool 0 (int_to_double c)); reflexivity.
Qed.

(** X13.  A new box whose longer side, as the function takes it (width
    and height as differences of doubles, rounded and then converted to
    [int]), is 0.  The radius is 0.0, the
    quotient under the logarithm is infinite or NaN, and the conversion of
    the level to [int] has no defined result: for a node that is not
    all-the-same the choose function has no defined answer, whatever the
    centroid and the level. *)
Theorem choose_undefined_below_one_unit (i : Choose.spgChooseIn) :
  Choose.allTheSame i = false ->
  longer_side (Choose.leafDatum i) = Some 0 ->
  Choose.spg_loose_quad_choose i = None.
Proof.
  intros Ha Hm. unfold Choose.spg_loose_quad_choose. rewrite Ha.
  unfold Choose.levelDifference. unfold longer_side in Hm.
  destruct (double_to_int (dsub (finite (x (high (Choose.prefixDatum i)))) _));
    [|reflexivity].
  destruct (double_to_int (dsub (finite (y (high (Choose.prefixDatum i)))) _));
    [|reflexivity].
  cbn [bind].
  destruct (double_to_int (dsub (finite (x (high (Choose.leafDatum i)))) _))
    as [bw|]; [|discriminate].
  destruct (double_to_int (dsub (finite (y (high (Choose.leafDatum i)))) _))
    as [bh|]; [|discriminate].
  cbn [bind] in Hm |- *. inversion Hm as [Hz]. rewrite Hz.
  rewrite no_level_over_zero_radius. reflexivity.
Qed.

Lemma choose_undefined_below_one_unit_witness :
  Choose.spg_loose_quad_choose
    {| Choose.prefixDatum := unit_centroid; Choose.leafDatum := speck;
       Choose.level := 0; Choose.allTheSame := false |} = None.
Proof.
  apply choose_undefined_below_one_unit; vm_compute; reflexivity.
Defined.

(** ** The four nodes and the x ranges *)








End LooseQuadtreeFacts.

(* ================================================================== *)
(** * Part IV: properties of the page split *)
(* ================================================================== *)

Module GistSplitFacts.
Import GistSplit.

(** ** Offsets and loop counters *)

Lemma to_OffsetNumber_small i : 0 <= i < 65536 -> to_OffsetNumber i = i.
Proof. intros H. unfold to_OffsetNumber. apply Z.mod_small. exact H. Qed.

Lemma In_positions len i : In i (positions len) <-> 1 <= i <= len.
Proof.
  unfold positions. rewrite in_map_iff. split.
  - intros (k & <- & Hk). apply in_seq in Hk. lia.
  - intros H. exists (Z.to_nat i). split; [lia|]. apply in_seq. lia.
Qed.

Lemma NoDup_positions len : NoDup (positions len).
Proof.
  unfold positions. apply Finite.Injective_map_NoDup.
  - intros a b. apply Nat2Z.inj.
  - apply seq_NoDup.
Qed.

Lemma length_positions len : length (positions len) = Z.to_nat len.
Proof. unfold positions. now rewrite length_map, length_seq. Qed.

Lemma positions_small len :
  len < 65536 -> Forall (fun i => 0 <= i < 65536) (positions len).
Proof.
  intros H. apply Forall_forall. intros i Hi. apply In_positions in Hi. lia.
Qed.

Lemma map_to_OffsetNumber_small l :
  Forall (fun i => 0 <= i < 65536) l -> map to_OffsetNumber l = l.
Proof.
  induction 1 as [|i l Hi _ IH]; simpl; [reflexivity|].
  now rewrite to_OffsetNumber_small, IH.
Qed.

Lemma between_spec a b i : 0 <= a -> In i (between a b) <-> a < i <= b.
Proof.
  intros Ha. unfold between. rewrite in_map_iff. split.
  - intros (k & <- & Hk). apply in_seq in Hk. lia.
  - intros H. exists (Z.to_nat i). split; [lia|]. apply in_seq. lia.
Qed.

Lemma between_0 b : between 0 b = positions b.
Proof. unfold between, positions. simpl. now rewrite Nat.sub_0_r. Qed.

Lemma between_split a b c :
  0 <= a <= b -> b <= c -> between a c = between a b ++ between b c.
Proof.
  intros H1 H2. unfold between. rewrite <- map_app. f_equal.
  replace (Z.to_nat c - Z.to_nat a)%nat
    with ((Z.to_nat b - Z.to_nat a) + (Z.to_nat c - Z.to_nat b))%nat by lia.
  rewrite seq_app. f_equal. f_equal. lia.
Qed.

Lemma between_nonempty a b : 0 <= a < b -> between a b <> [].
Proof.
  intros H E. assert (Hin : In b (between a b)) by (apply between_spec; lia).
  rewrite E in Hin. exact Hin.
Qed.

(** ** Loops that deal positions out to the four groups *)

Lemma filter_all {A} (p : A -> bool) l :
  Forall (fun a => p a = true) l -> filter p l = l.
Proof.
  induction 1 as [|a l Ha _ IH]; simpl; [reflexivity|]. now rewrite Ha, IH.
Qed.

Lemma filter_none {A} (p : A -> bool) l :
  Forall (fun a => p a = false) l -> filter p l = [].
Proof.
  induction 1 as [|a l Ha _ IH]; simpl; [reflexivity|]. now rewrite Ha.
Qed.

(** The filter of [1..n] by membership in the interval [(a, b]]. *)
Lemma filter_interval a b len :
  0 <= a <= b -> b <= len ->
  filter (fun i => (a <? i) && (i <=? b)) (positions len) = between a b.
Proof.
  intros H1 H2. rewrite <- between_0.
  rewrite (between_split 0 a len), (between_split a b len) by lia.
  rewrite !filter_app.
  rewrite (filter_none _ (between 0 a)), (filter_all _ (between a b)),
          (filter_none _ (between b len)).
  - now rewrite app_nil_r.
  - apply Forall_forall. intros i Hi. apply between_spec in Hi; lia.
  - apply Forall_forall. intros i Hi. apply between_spec in Hi; lia.
  - apply Forall_forall. intros i Hi. apply between_spec in Hi; lia.
Qed.

Lemma fold_deal c f l : forall g,
  fold_left (deal c f) l g =
  {| g_NW := g_NW g ++ map f (filter (class_is c 0) l);
     g_NE := g_NE g ++ map f (filter (class_is c 1) l);
     g_SW := g_SW g ++ map f (filter (class_is c 2) l);
     g_SE := g_SE g ++ map f (filter (class_rest c) l) |}.
Proof.
  induction l as [|i l IH]; intros g; simpl.
  - rewrite !app_nil_r. destruct g; reflexivity.
  - rewrite IH. unfold deal, class_is, class_rest.
    destruct (c i =? 0) eqn:E0.
    { apply Z.eqb_eq in E0. rewrite E0. simpl. now rewrite <- app_assoc. }
    destruct (c i =? 1) eqn:E1.
    { apply Z.eqb_eq in E1. rewrite E1. simpl. now rewrite <- app_assoc. }
    destruct (c i =? 2) eqn:E2; simpl; now rewrite <- app_assoc.
Qed.

Lemma deal_perm {A} (c : A -> Z) (l : list A) :
  Permutation
    (filter (fun a => c a =? 0) l ++ filter (fun a => c a =? 1) l ++
     filter (fun a => c a =? 2) l ++
     filter (fun a => negb (c a =? 0) && negb (c a =? 1) && negb (c a =? 2)) l)
    l.
Proof.
  induction l as [|a l IH]; simpl; [constructor|].
  destruct (c a =? 0) eqn:E0.
  { apply Z.eqb_eq in E0. rewrite E0. simpl. now constructor. }
  destruct (c a =? 1) eqn:E1.
  { apply Z.eqb_eq in E1. rewrite E1. simpl.
    apply Permutation_sym, Permutation_cons_app, Permutation_sym, IH. }
  destruct (c a =? 2) eqn:E2; simpl.
  - rewrite app_assoc.
    apply Permutation_sym, Permutation_cons_app, Permutation_sym.
    rewrite <- app_assoc. apply IH.
  - rewrite 2 app_assoc.
    apply Permutation_sym, Permutation_cons_app, Permutation_sym.
    rewrite <- 2 app_assoc. apply IH.
Qed.

Lemma fold_left_pointwise {A B} (f f' : A -> B -> A) l :
  (forall a b, f a b = f' a b) -> forall a, fold_left f l a = fold_left f' l a.
Proof.
  intros H. induction l as [|b l IH]; intros a; simpl; [reflexivity|].
  now rewrite H, IH.
Qed.

Lemma Forall_filter_keep {A} (P : A -> Prop) (p : A -> bool) l :
  Forall P l -> Forall P (filter p l).
Proof.
  rewrite !Forall_forall. intros H a Ha. apply filter_In in Ha. now apply H.
Qed.

Lemma fold_deal_from_empty c f l :
  fold_left (deal c f) l no_groups =
  {| g_NW := map f (filter (class_is c 0) l);
     g_NE := map f (filter (class_is c 1) l);
     g_SW := map f (filter (class_is c 2) l);
     g_SE := map f (filter (class_rest c) l) |}.
Proof. now rewrite fold_deal. Qed.

(** *** [gistSplitQuarters] *)

Lemma quarters_step_deal len g i :
  quarters_step len g i = deal (quarters_class len) to_OffsetNumber g i.
Proof.
  unfold quarters_step, deal, quarters_class.
  destruct (i <? len ÷ 4); [reflexivity|].
  destruct (i <? len ÷ 2); [reflexivity|].
  destruct (i <? (3 * len) ÷ 4); reflexivity.
Qed.

Lemma gistSplitQuarters_groups v len :
  len < 65536 ->
  let sv := gistSplitQuarters v len in
  spl_NW sv = filter (class_is (quarters_class len) 0) (positions len) /\
  spl_NE sv = filter (class_is (quarters_class len) 1) (positions len) /\
  spl_SW sv = filter (class_is (quarters_class len) 2) (positions len) /\
  spl_SE sv = filter (class_rest (quarters_class len)) (positions len).
Proof.
  intros Hlen. unfold gistSplitQuarters.
  rewrite (fold_left_pointwise _ _ _ (quarters_step_deal len)).
  rewrite fold_deal_from_empty. cbn.
  repeat split; apply map_to_OffsetNumber_small, Forall_filter_keep,
    positions_small, Hlen.
Qed.

Lemma gistSplitQuarters_complete v len :
  len < 65536 -> complete len (gistSplitQuarters v len).
Proof.
  intros Hlen. unfold complete.
  destruct (gistSplitQuarters_groups v len Hlen) as (-> & -> & -> & ->).
  apply (deal_perm (quarters_class len)).
Qed.

(** *** [genericPickSplit] *)

Lemma generic_step_deal maxoff g i :
  generic_step maxoff g i = deal (generic_class maxoff) (fun i => i) g i.
Proof.
  unfold generic_step, deal, generic_class.
  destruct (i <=? _); [reflexivity|].
  destruct (i <=? _); [reflexivity|].
  destruct (i <=? _); reflexivity.
Qed.

Lemma generic_fold maxoff :
  fold_left (generic_step maxoff) (positions maxoff) no_groups =
  {| g_NW := filter (class_is (generic_class maxoff) 0) (positions maxoff);
     g_NE := filter (class_is (generic_class maxoff) 1) (positions maxoff);
     g_SW := filter (class_is (generic_class maxoff) 2) (positions maxoff);
     g_SE := filter (class_rest (generic_class maxoff)) (positions maxoff) |}.
Proof.
  rewrite (fold_left_pointwise _ _ _ (generic_step_deal maxoff)).
  rewrite fold_deal_from_empty. now rewrite !map_id.
Qed.

Lemma quarter_marks N :
  0 <= N -> 0 <= N ÷ 4 <= N ÷ 2 /\ N ÷ 2 <= (3 * N) ÷ 4 <= N.
Proof. intros H. Z.quot_rem_to_equations. lia. Qed.

Lemma first_mark_positive N : 4 <= N -> 0 < N ÷ 4 < N ÷ 2 /\ N ÷ 2 < (3 * N) ÷ 4 < N.
Proof. intros H. Z.quot_rem_to_equations. lia. Qed.

Lemma generic_groups_between N :
  0 <= N ->
  filter (class_is (generic_class N) 0) (positions N) = positions (N ÷ 4) /\
  filter (class_is (generic_class N) 1) (positions N) = between (N ÷ 4) (N ÷ 2) /\
  filter (class_is (generic_class N) 2) (positions N)
    = between (N ÷ 2) ((3 * N) ÷ 4) /\
  filter (class_rest (generic_class N)) (positions N) = between ((3 * N) ÷ 4) N.
Proof.
  intros HN. pose proof (quarter_marks N HN) as Hq.
  rewrite <- (between_0 (N ÷ 4)).
  rewrite <- (filter_interval 0 (N ÷ 4) N),
          <- (filter_interval (N ÷ 4) (N ÷ 2) N),
          <- (filter_interval (N ÷ 2) ((3 * N) ÷ 4) N),
          <- (filter_interval ((3 * N) ÷ 4) N N) by lia.
  unfold class_is, class_rest, generic_class, FirstOffsetNumber.
  replace (N - 1 + 1) with N by lia.
  repeat split; apply filter_ext_in; intros i Hi; apply In_positions in Hi;
    destruct (Z.leb_spec i (N ÷ 4)); destruct (Z.leb_spec i (N ÷ 2));
    destruct (Z.leb_spec i ((3 * N) ÷ 4));
    destruct (Z.leb_spec i N);
    destruct (Z.ltb_spec 0 i); destruct (Z.ltb_spec (N ÷ 4) i);
    destruct (Z.ltb_spec (N ÷ 2) i); destruct (Z.ltb_spec ((3 * N) ÷ 4) i);
    simpl; try reflexivity; lia.
Qed.

Lemma genericPickSplit_groups giststate entryvec v attno N :
  n entryvec = N + 1 -> 0 <= N < 65535 ->
  exists sv,
    genericPickSplit giststate entryvec v attno = Some sv /\
    spl_NW sv = positions (N ÷ 4) /\
    spl_NE sv = between (N ÷ 4) (N ÷ 2) /\
    spl_SW sv = between (N ÷ 2) ((3 * N) ÷ 4) /\
    spl_SE sv = between ((3 * N) ÷ 4) N.
Proof.
  intros Hn HN. unfold genericPickSplit.
  replace (n entryvec - 1) with N by lia.
  rewrite (to_OffsetNumber_small N) by lia.
  destruct (Z.eqb_spec N MaxOffset) as [E|_]; [unfold MaxOffset in E; lia|].
  rewrite generic_fold. cbn [g_NW g_NE g_SW g_SE].
  destruct (generic_groups_between N) as (E1 & E2 & E3 & E4); [lia|].
  eexists. split; [reflexivity|]. cbn. auto.
Qed.

Lemma positions_between_complete N :
  0 <= N ->
  Permutation (positions (N ÷ 4) ++ between (N ÷ 4) (N ÷ 2) ++
               between (N ÷ 2) ((3 * N) ÷ 4) ++ between ((3 * N) ÷ 4) N)
              (positions N).
Proof.
  intros HN. destruct (generic_groups_between N HN) as (<- & <- & <- & <-).
  apply (deal_perm (generic_class N)).
Qed.

(** *** The loop over the non-null tuples *)

Lemma map_snd_combine {A B} (a : list A) : forall (b : list B),
  length a = length b -> map snd (combine a b) = b.
Proof.
  induction a as [|x a IH]; intros [|y b] H; simpl in *; try discriminate;
    [reflexivity|]. f_equal. apply IH. lia.
Qed.

Lemma numbered_positions (itup : list IndexTuple) :
  map snd (combine itup (positions (Z.of_nat (length itup))))
  = positions (Z.of_nat (length itup)).
Proof. apply map_snd_combine. rewrite length_positions. lia. Qed.

Lemma route_fold {T} (p : T -> bool) (l : list (T * Z)) :
  NoDup (map snd l) ->
  Forall (fun i => 0 <= i < 65536) (map snd l) ->
  forall pre g,
    snd (fold_left
           (route_step (pre ++ map snd (filter (fun q => p (fst q)) l)))
           (map snd l) (Z.of_nat (length pre), g)) =
    {| g_NW := g_NW g;
       g_NE := g_NE g ++ map snd (filter (fun q => non_null_class p q =? 0) l);
       g_SW := g_SW g ++ map snd (filter (fun q => non_null_class p q =? 1) l);
       g_SE := g_SE g ++ map snd (filter (fun q => non_null_class p q =? 2) l) |}.
Proof.
  induction l as [|[t i] l IH]; intros Hnd Hsm pre g.
  - simpl. rewrite !app_nil_r. destruct g; reflexivity.
  - simpl in Hnd, Hsm. inversion Hnd as [|? ? Hni Hnd']; subst.
    inversion Hsm as [|? ? Hi Hsm']; subst.
    cbn [map fold_left filter fst snd].
    destruct (p t) eqn:Ept.
    + (* a null key: the next entry of offNullTuples is this position *)
      cbn [map snd]. unfold route_step at 2. cbn [fst snd].
      rewrite length_app. cbn [length].
      rewrite Nat2Z.id, nth_middle, Z.eqb_refl.
      replace (Z.of_nat (length pre) <? Z.of_nat (length pre + S _)) with true
        by (symmetry; apply Z.ltb_lt; lia).
      cbn [andb].
      replace (Z.of_nat (length pre) + 1) with (Z.of_nat (length (pre ++ [i])))
        by (rewrite length_app; simpl; lia).
      replace (pre ++ i :: map snd (filter (fun q => p (fst q)) l))
        with ((pre ++ [i]) ++ map snd (filter (fun q => p (fst q)) l))
        by (now rewrite <- app_assoc).
      rewrite (IH Hnd' Hsm').
      assert (Hcl : non_null_class p (t, i) = 3)
        by (unfold non_null_class; cbn [fst snd]; now rewrite Ept).
      rewrite Hcl. reflexivity.
    + (* a non-null key: it is not the next entry of offNullTuples *)
      unfold route_step at 2. cbn [fst snd].
      match goal with
      | |- context [if ?c then (_ + 1, _) else _] => assert (Hc : c = false)
      end.
      { rewrite Nat2Z.id.
        destruct (map snd (filter (fun q => p (fst q)) l)) as [|h rest] eqn:Eh.
        - rewrite app_nil_r. rewrite Z.ltb_irrefl. reflexivity.
        - rewrite nth_middle.
          assert (Hin : In h (map snd l)).
          { assert (Hh : In h (map snd (filter (fun q => p (fst q)) l)))
              by (rewrite Eh; now left).
            apply in_map_iff in Hh. destruct Hh as (q & <- & Hq).
            apply filter_In in Hq. apply in_map. tauto. }
          destruct (Z.eqb_spec h i) as [->|_]; [contradiction|].
          apply andb_false_r. }
      rewrite Hc. rewrite (to_OffsetNumber_small i Hi).
      assert (Hcl : non_null_class p (t, i) =
                    if Z.rem i 3 =? 0 then 0 else if Z.rem i 3 =? 1 then 1 else 2)
        by (unfold non_null_class; cbn [fst snd]; now rewrite Ept).
      rewrite Hcl.
      destruct (Z.rem i 3 =? 0) eqn:E0.
      { rewrite (IH Hnd' Hsm'). cbn. now rewrite <- app_assoc. }
      destruct (Z.rem i 3 =? 1) eqn:E1.
      { rewrite (IH Hnd' Hsm'). cbn. now rewrite <- app_assoc. }
      rewrite (IH Hnd' Hsm'). cbn. now rewrite <- app_assoc.
Qed.

Lemma null_offsets_entries attno itup :
  Z.of_nat (length itup) < 65536 ->
  null_offsets attno itup = entries_where (fun tup _ => is_null attno tup) itup.
Proof.
  intros Hlen. unfold null_offsets, entries_where, is_null.
  apply map_ext_in. intros [tup i] Hin. apply filter_In in Hin.
  destruct Hin as [Hin _]. apply in_combine_r in Hin. apply In_positions in Hin.
  simpl. apply to_OffsetNumber_small. lia.
Qed.

Lemma routed_class attno k tup i :
  1 <= i -> 0 <= k <= 2 ->
  (non_null_class (is_null attno) (tup, i) =? k) = routed attno k tup i.
Proof.
  intros Hi Hk. unfold non_null_class, routed. cbn [fst snd].
  rewrite Z.rem_mod_nonneg by lia.
  pose proof (Z.mod_pos_bound i 3 ltac:(lia)) as Hm.
  destruct (is_null attno tup); cbn [negb andb].
  - apply Z.eqb_neq. lia.
  - destruct (Z.eqb_spec (i mod 3) 0) as [E0|E0];
      [rewrite E0; destruct (Z.eqb_spec 0 k); lia|].
    destruct (Z.eqb_spec (i mod 3) 1) as [E1|E1];
      [rewrite E1; destruct (Z.eqb_spec 1 k); lia|].
    destruct (Z.eqb_spec 2 k), (Z.eqb_spec (i mod 3) k); lia.
Qed.

Lemma routed_entries attno k itup :
  0 <= k <= 2 ->
  map snd (filter (fun q => non_null_class (is_null attno) q =? k)
                  (combine itup (positions (Z.of_nat (length itup)))))
  = entries_where (routed attno k) itup.
Proof.
  intros Hk. unfold entries_where. f_equal. apply filter_ext_in.
  intros [tup i] Hin. apply in_combine_r in Hin. apply In_positions in Hin.
  cbn [fst snd]. apply routed_class; lia.
Qed.

(** The loop of the branch leaves the non-null positions in the three
    other groups, by their remainder modulo 3. *)
Lemma route_groups attno itup :
  Z.of_nat (length itup) < 65536 ->
  snd (fold_left (route_step (null_offsets attno itup))
                 (positions (Z.of_nat (length itup))) (0, no_groups))
  = {| g_NW := [];
       g_NE := entries_where (routed attno 0) itup;
       g_SW := entries_where (routed attno 1) itup;
       g_SE := entries_where (routed attno 2) itup |}.
Proof.
  intros Hlen. rewrite null_offsets_entries by exact Hlen.
  unfold entries_where at 1.
  pose proof (route_fold (is_null attno)
                (combine itup (positions (Z.of_nat (length itup))))) as H.
  rewrite numbered_positions in H.
  specialize (H (NoDup_positions _) (positions_small _ Hlen) [] no_groups).
  cbn [app length Z.of_nat] in H. rewrite H. cbn [no_groups g_NW g_NE g_SW g_SE app].
  now rewrite !routed_entries by lia.
Qed.

Lemma entries_where_complete attno itup :
  Permutation
    (entries_where (fun tup _ => is_null attno tup) itup ++
     entries_where (routed attno 0) itup ++
     entries_where (routed attno 1) itup ++
     entries_where (routed attno 2) itup)
    (positions (Z.of_nat (length itup))).
Proof.
  rewrite <- !routed_entries by lia.
  pose proof (deal_perm (fun q => (non_null_class (is_null attno) q + 1) mod 4)
                (combine itup (positions (Z.of_nat (length itup))))) as H.
  apply (Permutation_map snd) in H. rewrite numbered_positions in H.
  rewrite !map_app in H.
  unfold entries_where.
  erewrite (filter_ext_in _ (fun q => (non_null_class (is_null attno) q + 1) mod 4 =? 0)),
           (filter_ext_in (fun q => non_null_class (is_null attno) q =? 0)
                          (fun q => (non_null_class (is_null attno) q + 1) mod 4 =? 1)),
           (filter_ext_in (fun q => non_null_class (is_null attno) q =? 1)
                          (fun q => (non_null_class (is_null attno) q + 1) mod 4 =? 2)),
           (filter_ext_in (fun q => non_null_class (is_null attno) q =? 2)).
  - exact H.
  - intros [tup i] _. unfold non_null_class, is_null. cbn [fst snd].
    destruct (snd (index_getattr tup (attno + 1))); [reflexivity|].
    destruct (Z.rem i 3 =? 0); [reflexivity|].
    destruct (Z.rem i 3 =? 1); reflexivity.
  - intros [tup i] _. unfold non_null_class, is_null. cbn [fst snd].
    destruct (snd (index_getattr tup (attno + 1))); [reflexivity|].
    destruct (Z.rem i 3 =? 0); [reflexivity|].
    destruct (Z.rem i 3 =? 1); reflexivity.
  - intros [tup i] _. unfold non_null_class, is_null. cbn [fst snd].
    destruct (snd (index_getattr tup (attno + 1))); [reflexivity|].
    destruct (Z.rem i 3 =? 0); [reflexivity|].
    destruct (Z.rem i 3 =? 1); reflexivity.
  - intros [tup i] _. unfold non_null_class, is_null. cbn [fst snd].
    destruct (snd (index_getattr tup (attno + 1))); [reflexivity|].
    destruct (Z.rem i 3 =? 0); [reflexivity|].
    destruct (Z.rem i 3 =? 1); reflexivity.
Qed.

(** ** Union keys, the picksplit method and the entry point *)

Section WithUtilities.

Variable gistdentryinit : GISTSTATE -> Z -> Datum -> OffsetNumber -> bool -> bool -> GISTENTRY.
Variable gistMakeUnionItVec : GISTSTATE -> list IndexTuple -> (Z -> Datum) * (Z -> bool).

Lemma read_in_range {A} (a : list A) i :
  0 <= i < Z.of_nat (length a) -> exists v, read a i = Some v.
Proof.
  intros H. unfold read. destruct (Z.ltb_spec i 0); [lia|].
  destruct (nth_error a (Z.to_nat i)) as [v|] eqn:E; [now exists v|].
  apply nth_error_None in E. lia.
Qed.

Lemma cleaned_in_range itvec entries :
  Forall (fun e => 1 <= e <= Z.of_nat (length itvec)) entries ->
  exists l, cleaned itvec entries None = Some l.
Proof.
  induction 1 as [|e entries He _ [l IH]]; simpl; [now exists []|].
  destruct (read_in_range itvec (e - 1)) as [tup ->]; [lia|].
  rewrite IH. simpl. now eexists.
Qed.

Lemma group_in_range len sv (g : list OffsetNumber) :
  complete len sv ->
  (forall e, In e g -> In e (spl_NW sv ++ spl_NE sv ++ spl_SW sv ++ spl_SE sv)) ->
  Forall (fun e => 1 <= e <= len) g.
Proof.
  intros Hc Hg. apply Forall_forall. intros e He.
  apply In_positions. apply (Permutation_in _ Hc). now apply Hg.
Qed.

(** Over a complete split with no don't-care marks, the union keys are
    computed for the four groups and the groups are left as they are. *)
Lemma gistunionsubkey_complete site giststate itup spl t :
  spl_dontcare spl = None ->
  complete (Z.of_nat (length itup)) (splitVector spl) ->
  exists spl',
    gistunionsubkey gistMakeUnionItVec site giststate itup spl t
      = Some (spl', t ++ [gistunionsubkey_called site]) /\
    splitVector spl' = splitVector spl.
Proof.
  intros Hdc Hc. unfold gistunionsubkey, gistunionsubkeyvec.
  rewrite Hdc.
  destruct (cleaned_in_range itup (spl_NW (splitVector spl))) as [l1 E1].
  { apply (group_in_range _ _ _ Hc). intros e He. apply in_or_app. now left. }
  destruct (cleaned_in_range itup (spl_NE (splitVector spl))) as [l2 E2].
  { apply (group_in_range _ _ _ Hc). intros e He.
    apply in_or_app. right. apply in_or_app. now left. }
  destruct (cleaned_in_range itup (spl_SW (splitVector spl))) as [l3 E3].
  { apply (group_in_range _ _ _ Hc). intros e He.
    apply in_or_app. right. apply in_or_app. right. apply in_or_app. now left. }
  destruct (cleaned_in_range itup (spl_SE (splitVector spl))) as [l4 E4].
  { apply (group_in_range _ _ _ Hc). intros e He.
    apply in_or_app. right. apply in_or_app. right. apply in_or_app. now right. }
  unfold mbind, emit, lift, ret. rewrite E1, E2, E3, E4. cbn [obind].
  eexists. split; reflexivity.
Qed.

Lemma cleaned_all itvec entries :
  Forall (fun e => 1 <= e <= Z.of_nat (length itvec)) entries ->
  cleaned itvec entries None = Some (tuples_at itvec entries).
Proof.
  induction 1 as [|e entries He _ IH]; [reflexivity|].
  cbn [cleaned obind tuples_at flat_map].
  destruct (read_in_range itvec (e - 1)) as [tup Er]; [lia|].
  rewrite Er. cbn [obind]. rewrite IH. reflexivity.
Qed.

(** Over a complete split with no don't-care marks, [gistunionsubkey]
    stores, for each group, the union keys of the tuples of that group. *)
Lemma gistunionsubkey_stores site giststate itup spl t :
  spl_dontcare spl = None ->
  complete (Z.of_nat (length itup)) (splitVector spl) ->
  exists spl',
    gistunionsubkey gistMakeUnionItVec site giststate itup spl t
      = Some (spl', t ++ [gistunionsubkey_called site]) /\
    splitVector spl' = splitVector spl /\
    union_keys_stored gistMakeUnionItVec giststate itup spl'.
Proof.
  intros Hdc Hc. unfold gistunionsubkey, gistunionsubkeyvec.
  rewrite Hdc.
  rewrite (cleaned_all itup (spl_NW (splitVector spl))).
  2:{ apply (group_in_range _ _ _ Hc). intros e He. apply in_or_app. now left. }
  rewrite (cleaned_all itup (spl_NE (splitVector spl))).
  2:{ apply (group_in_range _ _ _ Hc). intros e He.
      apply in_or_app. right. apply in_or_app. now left. }
  rewrite (cleaned_all itup (spl_SW (splitVector spl))).
  2:{ apply (group_in_range _ _ _ Hc). intros e He.
      apply in_or_app. right. apply in_or_app. right. apply in_or_app. now left. }
  rewrite (cleaned_all itup (spl_SE (splitVector spl))).
  2:{ apply (group_in_range _ _ _ Hc). intros e He.
      apply in_or_app. right. apply in_or_app. right. apply in_or_app. now right. }
  unfold mbind, emit, lift, ret. cbn [obind].
  eexists. split; [reflexivity|]. split; [reflexivity|].
  unfold union_keys_stored.
  cbn [splitVector spl_NWattr spl_NWisnull spl_NEattr spl_NEisnull
       spl_SWattr spl_SWisnull spl_SEattr spl_SEisnull fst snd].
  intros j Hj. destruct (Z.leb_spec 0 j); [|lia].
  destruct (Z.ltb_spec j (natts giststate)); [|lia]. cbn [andb].
  repeat split; reflexivity.
Qed.

(** The branch for some null keys: the state it builds, and the union
    keys on top of it in a single-column index at the top level. *)
Lemma split_nulls_result giststate itup v attno t :
  Z.of_nat (length itup) < 65536 ->
  split_nulls gistMakeUnionItVec giststate itup v attno (null_offsets attno itup) t =
  if (attno =? 0) && (natts giststate =? 1)
  then gistunionsubkey gistMakeUnionItVec in_null_branch giststate itup
         (set_dontcare (nulls_apart itup v attno) None) t
  else Some (nulls_apart itup v attno, t).
Proof.
  intros Hlen. unfold split_nulls. rewrite (route_groups attno itup Hlen).
  cbn [g_NE g_SW g_SE]. rewrite (null_offsets_entries attno itup Hlen).
  destruct ((attno =? 0) && (natts giststate =? 1)); reflexivity.
Qed.

Lemma nulls_apart_complete itup v attno :
  complete (Z.of_nat (length itup)) (splitVector (nulls_apart itup v attno)).
Proof. unfold complete. cbn. apply entries_where_complete. Qed.

(** The user picksplit method, with its generic replacement. *)
Lemma gistUserPicksplit_result giststate entryvec attno v itup t :
  1 <= n entryvec <= 65535 ->
  let sv1 := picksplitFn giststate attno entryvec
               (prepare_datums v attno (splitVector v)) in
  exists v',
    gistUserPicksplit entryvec attno v itup giststate t = Some ((false, v'), t) /\
    spl_dontcare v' = None /\
    (degenerate sv1 = true ->
       genericPickSplit giststate entryvec (prepare_datums v attno sv1) attno
         = Some (splitVector v') /\
       spl_NW (splitVector v') = positions ((n entryvec - 1) ÷ 4) /\
       spl_NE (splitVector v') = between ((n entryvec - 1) ÷ 4) ((n entryvec - 1) ÷ 2) /\
       spl_SW (splitVector v')
         = between ((n entryvec - 1) ÷ 2) ((3 * (n entryvec - 1)) ÷ 4) /\
       spl_SE (splitVector v')
         = between ((3 * (n entryvec - 1)) ÷ 4) (n entryvec - 1)) /\
    (degenerate sv1 = false -> splitVector v' = fix_lasts sv1 entryvec).
Proof.
  intros Hn sv1. unfold gistUserPicksplit. fold sv1.
  destruct (degenerate sv1) eqn:Ed.
  - destruct (genericPickSplit_groups giststate entryvec
                (prepare_datums v attno sv1) attno (n entryvec - 1))
      as (sv & Esv & H1 & H2 & H3 & H4); [lia | lia |].
    unfold mbind, lift, ret. rewrite Esv.
    eexists. split; [reflexivity|]. cbn [spl_dontcare splitVector].
    split; [reflexivity|]. split; [auto | discriminate].
  - unfold mbind, ret.
    eexists. split; [reflexivity|]. cbn [spl_dontcare splitVector].
    split; [reflexivity|]. split; [discriminate | reflexivity].
Qed.

Lemma length_null_offsets attno itup :
  Z.of_nat (length itup) < 65536 ->
  length (null_offsets attno itup)
  = length (entries_where (fun tup _ => is_null attno tup) itup).
Proof. intros H. now rewrite null_offsets_entries. Qed.

Lemma make_entryvec_n giststate attno itup :
  n (make_entryvec gistdentryinit giststate attno itup) = Z.of_nat (length itup) + 1.
Proof. reflexivity. Qed.

(** What the entry point does with a column where some keys are null. *)
Lemma gistSplitByKey_some_nulls giststate itup v attno fuel t :
  Z.of_nat (length itup) < 65536 ->
  entries_where (fun tup _ => is_null attno tup) itup <> [] ->
  length (entries_where (fun tup _ => is_null attno tup) itup) <> length itup ->
  gistSplitByKey gistdentryinit gistMakeUnionItVec (S fuel) itup giststate v attno t =
  if (attno =? 0) && (natts giststate =? 1)
  then gistunionsubkey gistMakeUnionItVec in_null_branch giststate itup
         (set_dontcare (nulls_apart itup v attno) None) t
  else if (attno =? 0) && (natts giststate >? 1)
  then gistunionsubkey gistMakeUnionItVec at_end_of_split giststate itup
         (set_dontcare (nulls_apart itup v attno) None) t
  else Some (nulls_apart itup v attno, t).
Proof.
  intros Hlen Hsome Hnotall. cbn [gistSplitByKey].
  rewrite (length_null_offsets attno itup Hlen).
  destruct (Z.eqb_spec
              (Z.of_nat (length (entries_where (fun tup _ => is_null attno tup) itup)))
              (Z.of_nat (length itup))) as [E|_]; [lia|].
  destruct (Z.gtb_spec
              (Z.of_nat (length (entries_where (fun tup _ => is_null attno tup) itup)))
              0) as [_|E].
  2:{ destruct (entries_where (fun tup _ => is_null attno tup) itup);
        [congruence | simpl in E; lia]. }
  unfold mbind at 1. rewrite (split_nulls_result giststate itup v attno t Hlen).
  destruct (Z.eqb_spec attno 0) as [->|Ha]; cbn [andb].
  - destruct (Z.eqb_spec (natts giststate) 1) as [E1|E1].
    + destruct (gistunionsubkey_complete in_null_branch giststate itup
                  (set_dontcare (nulls_apart itup v 0) None) t)
        as (spl' & Espl & _); [reflexivity | apply nulls_apart_complete |].
      rewrite Espl. rewrite E1. reflexivity.
    + destruct (natts giststate >? 1); reflexivity.
  - reflexivity.
Qed.

(** The entry point gives a complete split at every column, as long as
    the picksplit methods do. *)
Lemma gistSplitByKey_complete giststate itup :
  picksplit_splits giststate ->
  Z.of_nat (length itup) < 65535 ->
  forall fuel v attno t,
    0 <= attno < natts giststate ->
    (Z.to_nat (natts giststate - attno) <= fuel)%nat ->
    exists v' t',
      gistSplitByKey gistdentryinit gistMakeUnionItVec fuel itup giststate v attno t
        = Some (v', t') /\
      complete (Z.of_nat (length itup)) (splitVector v').
Proof.
  intros Hps Hlen. induction fuel as [|fuel IH]; intros v attno t Ha Hfuel; [lia|].
  (* the split of this column, before the union keys at the end *)
  assert (Hcol : exists v1 t1,
    (let len := Z.of_nat (length itup) in
     let entryvec := make_entryvec gistdentryinit giststate attno itup in
     let offNullTuples := null_offsets attno itup in
     let nOffNullTuples := Z.of_nat (length offNullTuples) in
     if nOffNullTuples =? len then
       let v' := set_all_isnull v attno true in
       if attno + 1 <? natts giststate
       then gistSplitByKey gistdentryinit gistMakeUnionItVec fuel itup giststate v'
              (attno + 1)
       else ret (set_splitVector v' (gistSplitQuarters (splitVector v') len))
     else if nOffNullTuples >? 0 then
       split_nulls gistMakeUnionItVec giststate itup v attno offNullTuples
     else
       r <-- gistUserPicksplit entryvec attno v itup giststate ;;
       ret (snd r)) t = Some (v1, t1) /\
    complete (Z.of_nat (length itup)) (splitVector v1)).
  { cbv zeta.
    destruct (Z.of_nat (length (null_offsets attno itup)) =? Z.of_nat (length itup)).
    - destruct (Z.ltb_spec (attno + 1) (natts giststate)) as [Hn|Hn].
      + apply IH; lia.
      + eexists. eexists. split; [reflexivity|].
        cbn [set_splitVector splitVector]. apply gistSplitQuarters_complete. lia.
    - destruct (Z.of_nat (length (null_offsets attno itup)) >? 0).
      + rewrite split_nulls_result by lia.
        destruct ((attno =? 0) && (natts giststate =? 1)).
        * destruct (gistunionsubkey_complete in_null_branch giststate itup
                      (set_dontcare (nulls_apart itup v attno) None) t)
            as (spl' & Espl & Esv); [reflexivity | apply nulls_apart_complete |].
          exists spl'. eexists. split; [exact Espl|]. rewrite Esv.
          apply nulls_apart_complete.
        * eexists. eexists. split; [reflexivity|]. apply nulls_apart_complete.
      + destruct (gistUserPicksplit_result giststate
                    (make_entryvec gistdentryinit giststate attno itup) attno v itup t)
          as (v' & Ev' & _ & Hdeg & Hok).
        { rewrite make_entryvec_n. lia. }
        unfold mbind at 1. rewrite Ev'. cbn [snd ret].
        exists v'. eexists. split; [reflexivity|].
        rewrite make_entryvec_n in Hdeg.
        replace (Z.of_nat (length itup) + 1 - 1) with (Z.of_nat (length itup))
          in Hdeg by lia.
        destruct (degenerate _) eqn:Ed.
        * destruct (Hdeg eq_refl) as (_ & E1 & E2 & E3 & E4).
          unfold complete. rewrite E1, E2, E3, E4.
          apply positions_between_complete. lia.
        * rewrite (Hok eq_refl).
          pose proof (Hps attno (make_entryvec gistdentryinit giststate attno itup)
                        (prepare_datums v attno (splitVector v)) Ed) as Hc.
          rewrite make_entryvec_n in Hc.
          replace (Z.of_nat (length itup) + 1 - 1) with (Z.of_nat (length itup))
            in Hc by lia.
          exact Hc. }
  destruct Hcol as (v1 & t1 & Hrun & Hc1).
  cbn [gistSplitByKey]. unfold mbind at 1.
  match goal with
  | |- context [match ?m t with _ => _ end] =>
      replace (m t) with (Some (v1, t1))
  end.
  - destruct ((attno =? 0) && (natts giststate >? 1)).
    + destruct (gistunionsubkey_complete at_end_of_split giststate itup
                  (set_dontcare v1 None) t1) as (spl' & Espl & Esv);
        [reflexivity | exact Hc1 |].
      exists spl'. eexists. split; [exact Espl|]. rewrite Esv. exact Hc1.
    + exists v1, t1. split; [reflexivity | exact Hc1].
  - rewrite <- Hrun. cbv zeta.
    destruct (Z.of_nat (length (null_offsets attno itup)) =? Z.of_nat (length itup));
      [reflexivity|].
    destruct (Z.of_nat (length (null_offsets attno itup)) >? 0); [reflexivity|].
    unfold mbind.
    destruct (gistUserPicksplit_result giststate
                (make_entryvec gistdentryinit giststate attno itup) attno v itup t)
      as (v' & Ev' & _).
    { rewrite make_entryvec_n. lia. }
    rewrite Ev'. reflexivity.
Qed.

(** C3, amended.  Completeness of the split, given picksplit methods
    that split: for a page of at most 65534 tuples and an index of at
    least one column, the entry point, called for column 0 with fuel for
    every column, returns a split in which every position from 1 to N
    occurs in exactly one of the four groups, whether the column is all
    null (recursion to the next column, or quartering), partly null, or
    handed to the picksplit method (whose degenerate answers are replaced
    by the generic split).  The merge of a don't-care sub-split is never
    entered: the picksplit step always answers "split is complete". *)
Theorem split_is_complete giststate itup v t fuel :
  picksplit_splits giststate ->
  Z.of_nat (length itup) < 65535 ->
  1 <= natts giststate ->
  (Z.to_nat (natts giststate) <= fuel)%nat ->
  exists v' t',
    gistSplitByKey gistdentryinit gistMakeUnionItVec fuel itup giststate v 0 t
      = Some (v', t') /\
    complete (Z.of_nat (length itup)) (splitVector v').
Proof.
  intros Hps Hlen Hn Hfuel.
  apply gistSplitByKey_complete; try assumption; [lia|].
  now rewrite Z.sub_0_r.
Qed.

(** C7.  A column whose keys are null for some tuples and not for all:
    the null positions make up group NW, which is marked null for the
    column; every other position is in NE, SW or SE by its remainder
    modulo 3 (0, 1, 2); one level of recursion is enough, no further
    column is looked at; and the union keys are computed inside the branch
    exactly when the call is for column 0 of a single-column index (for
    column 0 of a wider index they are computed at the end of the entry
    point instead, for any other column not at all).  Where they are
    computed, the state returned holds, for each of the four groups and
    every column, the union key that [gistMakeUnionItVec] forms over the
    tuples of that group; where they are not, it holds the null mark of
    NW for the column. *)
Theorem some_nulls_routing giststate itup v attno fuel t :
  let len := Z.of_nat (length itup) in
  let nulls := entries_where (fun tup _ => is_null attno tup) itup in
  let v1 := nulls_apart itup v attno in
  len < 65536 ->
  nulls <> [] ->
  length nulls <> length itup ->
  exists v' t',
    gistSplitByKey gistdentryinit gistMakeUnionItVec (S fuel) itup giststate v attno t
      = Some (v', t') /\
    spl_NW (splitVector v') = nulls /\
    spl_NE (splitVector v') = entries_where (routed attno 0) itup /\
    spl_SW (splitVector v') = entries_where (routed attno 1) itup /\
    spl_SE (splitVector v') = entries_where (routed attno 2) itup /\
    complete len (splitVector v') /\
    spl_NWisnull v1 attno = true /\
    t' = t ++ (if (attno =? 0) && (natts giststate =? 1)
               then [gistunionsubkey_called in_null_branch]
               else if (attno =? 0) && (natts giststate >? 1)
               then [gistunionsubkey_called at_end_of_split]
               else []) /\
    (if (attno =? 0) && (natts giststate =? 1)
     then gistunionsubkey gistMakeUnionItVec in_null_branch giststate itup
            (set_dontcare v1 None) t = Some (v', t')
     else if (attno =? 0) && (natts giststate >? 1)
     then gistunionsubkey gistMakeUnionItVec at_end_of_split giststate itup
            (set_dontcare v1 None) t = Some (v', t')
     else v' = v1) /\
    (if (attno =? 0) && (natts giststate =? 1)
     then union_keys_stored gistMakeUnionItVec giststate itup v'
     else if (attno =? 0) && (natts giststate >? 1)
     then union_keys_stored gistMakeUnionItVec giststate itup v'
     else spl_NWisnull v' attno = true).
Proof.
  intros len nulls v1 Hlen Hsome Hnotall.
  rewrite (gistSplitByKey_some_nulls giststate itup v attno fuel t Hlen Hsome Hnotall).
  fold v1.
  assert (Hnull : spl_NWisnull v1 attno = true).
  { unfold v1, nulls_apart, set_NWisnull, store. cbn. now rewrite Z.eqb_refl. }
  assert (Hu : forall site, exists v' t',
    gistunionsubkey gistMakeUnionItVec site giststate itup (set_dontcare v1 None) t
      = Some (v', t') /\
    splitVector v' = splitVector v1 /\ t' = t ++ [gistunionsubkey_called site] /\
    union_keys_stored gistMakeUnionItVec giststate itup v').
  { intros site.
    destruct (gistunionsubkey_stores site giststate itup (set_dontcare v1 None) t)
      as (spl' & Espl & Esv & Hst); [reflexivity | apply nulls_apart_complete |].
    exists spl'. eexists. split; [exact Espl|]. split; [exact Esv|].
    split; [reflexivity | exact Hst]. }
  destruct ((attno =? 0) && (natts giststate =? 1)).
  - destruct (Hu in_null_branch) as (v' & t' & E & Esv & Et & Hst).
    exists v', t'. rewrite Esv.
    split; [exact E|]. do 4 (split; [reflexivity|]).
    split; [apply nulls_apart_complete|]. split; [exact Hnull|].
    split; [exact Et|]. split; [exact E | exact Hst].
  - destruct ((attno =? 0) && (natts giststate >? 1)).
    + destruct (Hu at_end_of_split) as (v' & t' & E & Esv & Et & Hst).
      exists v', t'. rewrite Esv.
      split; [exact E|]. do 4 (split; [reflexivity|]).
      split; [apply nulls_apart_complete|]. split; [exact Hnull|].
      split; [exact Et|]. split; [exact E | exact Hst].
    + exists v1, t. rewrite app_nil_r.
      split; [reflexivity|]. do 4 (split; [reflexivity|]).
      split; [apply nulls_apart_complete|]. split; [exact Hnull|].
      split; [reflexivity|]. split; [reflexivity | exact Hnull].
Qed.

(** C9.  The picksplit step never fails over a degenerate answer of the
    method (the entry vector holding at most 65534 entries): when the
    method leaves one of the four groups empty, the generic split of the
    entry vector takes the place of its answer, so that of the [N = n - 1]
    positions the first [N / 4] are in NW, the following up to [N / 2] in
    NE, up to [3 N / 4] in SW and the rest in SE; when all four groups are
    filled, the answer is kept, an invalid offset in the last slot of a
    group being replaced by the last position, [n - 1].  Either way the
    step returns, and answers that the split is complete. *)
Theorem degenerate_picksplit_is_replaced giststate entryvec attno v itup t :
  1 <= n entryvec <= 65535 ->
  let sv1 := picksplitFn giststate attno entryvec
               (prepare_datums v attno (splitVector v)) in
  exists v',
    gistUserPicksplit entryvec attno v itup giststate t = Some ((false, v'), t) /\
    (degenerate sv1 = true ->
       genericPickSplit giststate entryvec (prepare_datums v attno sv1) attno
         = Some (splitVector v') /\
       spl_NW (splitVector v') = positions ((n entryvec - 1) ÷ 4) /\
       spl_NE (splitVector v') = between ((n entryvec - 1) ÷ 4) ((n entryvec - 1) ÷ 2) /\
       spl_SW (splitVector v')
         = between ((n entryvec - 1) ÷ 2) ((3 * (n entryvec - 1)) ÷ 4) /\
       spl_SE (splitVector v')
         = between ((3 * (n entryvec - 1)) ÷ 4) (n entryvec - 1)) /\
    (degenerate sv1 = false ->
       spl_NW (splitVector v') = fix_last (spl_NW sv1) entryvec /\
       spl_NE (splitVector v') = fix_last (spl_NE sv1) entryvec /\
       spl_SW (splitVector v') = fix_last (spl_SW sv1) entryvec /\
       spl_SE (splitVector v') = fix_last (spl_SE sv1) entryvec) /\
    (forall a, fix_last (a ++ [InvalidOffsetNumber]) entryvec = a ++ [n entryvec - 1]) /\
    (forall a o, o <> InvalidOffsetNumber -> fix_last (a ++ [o]) entryvec = a ++ [o]).
Proof.
  intros Hn sv1.
  destruct (gistUserPicksplit_result giststate entryvec attno v itup t Hn)
    as (v' & Ev' & _ & Hdeg & Hok).
  exists v'. split; [exact Ev'|]. split; [|split; [|split]].
  - intros Hd. apply (Hdeg Hd).
  - intros Hd. fold sv1 in Hok. rewrite (Hok Hd). cbn. auto.
  - intros a. unfold fix_last. rewrite last_last, removelast_last.
    cbn [Z.eqb InvalidOffsetNumber]. now rewrite to_OffsetNumber_small by lia.
  - intros a o Ho. unfold fix_last. rewrite last_last.
    destruct (Z.eqb_spec o InvalidOffsetNumber); [contradiction | reflexivity].
Qed.

End WithUtilities.

(** ** The generic split and the quartering, on their own *)

(** C4 as stated fails twice over at five entries.  [gistSplitQuarters]
    compares with [<] against a counter that starts at 1, so nothing goes
    to NW; [genericPickSplit] gives NW the first one position, where the
    rounded-up quarter of five is two. *)
Lemma quartering_of_five :
  spl_NW (gistSplitQuarters blank_splitvec 5) = [] /\
  option_map spl_NW
    (genericPickSplit (one_column all_in_NW) {| n := 6; vector := [] |} blank_splitvec 0)
  = Some [1] /\
  (5 + 3) / 4 = 2.
Proof. repeat split; vm_compute; reflexivity. Qed.

(** C4, amended.  The generic split, which replaces a degenerate answer
    of a picksplit method, of N entries with 4 <= N <= 65534: positions 1
    to N/4 (rounded down) go to NW, the following ones up to N/2 to NE,
    up to 3N/4 to SW, the rest to SE, and each of the four groups is
    non-empty. *)
Theorem generic_split_fills_four_groups giststate entryvec v attno N :
  n entryvec = N + 1 ->
  4 <= N < 65535 ->
  exists sv,
    genericPickSplit giststate entryvec v attno = Some sv /\
    spl_NW sv = positions (N ÷ 4) /\
    spl_NE sv = between (N ÷ 4) (N ÷ 2) /\
    spl_SW sv = between (N ÷ 2) ((3 * N) ÷ 4) /\
    spl_SE sv = between ((3 * N) ÷ 4) N /\
    spl_NW sv <> [] /\ spl_NE sv <> [] /\ spl_SW sv <> [] /\ spl_SE sv <> [].
Proof.
  intros Hn HN.
  destruct (genericPickSplit_groups giststate entryvec v attno N Hn)
    as (sv & E & E1 & E2 & E3 & E4); [lia|].
  pose proof (first_mark_positive N ltac:(lia)) as Hq.
  exists sv. rewrite E1, E2, E3, E4. repeat split; try assumption.
  - rewrite <- between_0. apply between_nonempty. lia.
  - apply between_nonempty. lia.
  - apply between_nonempty. lia.
  - apply between_nonempty. lia.
Qed.

Lemma generic_split_fills_four_groups_witness :
  4 <= 6 < 65535 /\
  exists sv,
    genericPickSplit (one_column all_in_NW) {| n := 7; vector := [] |} blank_splitvec 0
      = Some sv /\
    spl_NW sv = [1] /\ spl_NE sv = [2; 3] /\ spl_SW sv = [4] /\ spl_SE sv = [5; 6].
Proof.
  split; [lia|].
  destruct (generic_split_fills_four_groups (one_column all_in_NW)
              {| n := 7; vector := [] |} blank_splitvec 0 6 eq_refl ltac:(lia))
    as (sv & E & E1 & E2 & E3 & E4 & _).
  exists sv. repeat split; assumption.
Defined.

(** ** Worked examples of the entry point *)

Lemma last_not_invalid (a : list OffsetNumber) :
  Forall (fun e => e <> InvalidOffsetNumber) a ->
  last a FirstOffsetNumber <> InvalidOffsetNumber.
Proof.
  induction 1 as [|e a He Ha IH]; [discriminate|].
  destruct a as [|e' a]; [exact He | exact IH].
Qed.

Lemma fix_last_valid (a : list OffsetNumber) entryvec :
  Forall (fun e => e <> InvalidOffsetNumber) a -> fix_last a entryvec = a.
Proof.
  intros H. unfold fix_last.
  destruct (Z.eqb_spec (last a FirstOffsetNumber) InvalidOffsetNumber) as [E|_];
    [|reflexivity].
  exfalso. apply (last_not_invalid a H E).
Qed.

Lemma positions_valid len (p : Z -> bool) :
  Forall (fun e => e <> InvalidOffsetNumber) (filter p (positions len)).
Proof.
  apply Forall_forall. intros e He. apply filter_In in He. destruct He as [He _].
  apply In_positions in He. unfold InvalidOffsetNumber. lia.
Qed.

(** Dealing the positions out in turn is a picksplit method that splits. *)
Lemma deal_in_turn_splits : picksplit_splits (one_column deal_in_turn).
Proof.
  intros attno entryvec sv r _. unfold complete, r. cbn.
  rewrite !fix_last_valid by apply positions_valid.
  apply (deal_perm (fun i => i mod 4)).
Qed.

Lemma split_is_complete_witness :
  exists v' t',
    gistSplitByKey plain_gistdentryinit plain_gistMakeUnionItVec 1 six_keys
      (one_column deal_in_turn) blank_vector 0 [] = Some (v', t') /\
    complete 6 (splitVector v').
Proof.
  apply (split_is_complete plain_gistdentryinit plain_gistMakeUnionItVec
           (one_column deal_in_turn) six_keys blank_vector [] 1%nat).
  - apply deal_in_turn_splits.
  - simpl. lia.
  - simpl. lia.
  - simpl. lia.
Defined.

(** C3 as stated fails: the groups a picksplit method returns are taken
    as they are when none is empty.  Over four tuples, a method that
    names position 1 in each group gives a split that holds position 1
    four times and positions 2, 3 and 4 not at all. *)
Lemma careless_picksplit_breaks_completeness :
  exists v' t',
    gistSplitByKey plain_gistdentryinit plain_gistMakeUnionItVec 1 four_keys
      (one_column first_everywhere) blank_vector 0 [] = Some (v', t') /\
    spl_NW (splitVector v') = [1] /\ spl_NE (splitVector v') = [1] /\
    spl_SW (splitVector v') = [1] /\ spl_SE (splitVector v') = [1] /\
    ~ complete 4 (splitVector v').
Proof.
  eexists. eexists. split; [vm_compute; reflexivity|].
  repeat split. unfold complete. cbn. intros H.
  apply Permutation_sym in H.
  assert (Hin : In 2 [1; 1; 1; 1]).
  { apply (Permutation_in _ H). vm_compute. tauto. }
  simpl in Hin. lia.
Qed.

Lemma some_nulls_routing_witness :
  exists v' t',
    gistSplitByKey plain_gistdentryinit plain_gistMakeUnionItVec 1 keys_and_nulls
      (one_column deal_in_turn) blank_vector 0 [] = Some (v', t') /\
    spl_NW (splitVector v') = [2; 5] /\
    spl_NE (splitVector v') = [3; 6] /\
    spl_SW (splitVector v') = [1; 4; 7] /\
    spl_SE (splitVector v') = [] /\
    t' = [gistunionsubkey_called in_null_branch] /\
    union_keys_stored plain_gistMakeUnionItVec (one_column deal_in_turn)
      keys_and_nulls v'.
Proof.
  destruct (some_nulls_routing plain_gistdentryinit plain_gistMakeUnionItVec
              (one_column deal_in_turn) keys_and_nulls blank_vector 0 0%nat [])
    as (v' & t' & E & E1 & E2 & E3 & E4 & _ & _ & Et & _ & Hst).
  - simpl. lia.
  - discriminate.
  - discriminate.
  - exists v', t'. split; [exact E|].
    rewrite E1, E2, E3, E4, Et. repeat split; try reflexivity; apply Hst; assumption.
Defined.

Lemma degenerate_picksplit_is_replaced_witness :
  let entryvec := make_entryvec plain_gistdentryinit (one_column all_in_NW) 0 six_keys in
  exists v',
    gistUserPicksplit entryvec 0 blank_vector six_keys (one_column all_in_NW) []
      = Some ((false, v'), []) /\
    option_map spl_NW
      (genericPickSplit (one_column all_in_NW) entryvec
         (prepare_datums blank_vector 0
            (all_in_NW 0 entryvec (prepare_datums blank_vector 0 blank_splitvec))) 0)
    = Some (spl_NW (splitVector v')) /\
    spl_NW (splitVector v') = [1] /\
    spl_NE (splitVector v') = [2; 3] /\
    spl_SW (splitVector v') = [4] /\
    spl_SE (splitVector v') = [5; 6].
Proof.
  intros entryvec.
  destruct (degenerate_picksplit_is_replaced (one_column all_in_NW) entryvec 0
              blank_vector six_keys []) as (v' & E & Hdeg & _).
  - simpl. lia.
  - destruct (Hdeg eq_refl) as (Eg & E1 & E2 & E3 & E4).
    exists v'. split; [exact E|].
    split; [exact (f_equal (option_map spl_NW) Eg)|].
    rewrite E1, E2, E3, E4. repeat split.
Defined.

(** ** More on the quartering loops *)

Lemma quarters_groups_between len :
  4 <= len ->
  filter (class_is (quarters_class len) 0) (positions len) = positions (len ÷ 4 - 1) /\
  filter (class_is (quarters_class len) 1) (positions len)
    = between (len ÷ 4 - 1) (len ÷ 2 - 1) /\
  filter (class_is (quarters_class len) 2) (positions len)
    = between (len ÷ 2 - 1) ((3 * len) ÷ 4 - 1) /\
  filter (class_rest (quarters_class len)) (positions len)
    = between ((3 * len) ÷ 4 - 1) len.
Proof.
  intros Hlen. pose proof (first_mark_positive len Hlen) as Hq.
  rewrite <- (between_0 (len ÷ 4 - 1)).
  rewrite <- (filter_interval 0 (len ÷ 4 - 1) len),
          <- (filter_interval (len ÷ 4 - 1) (len ÷ 2 - 1) len),
          <- (filter_interval (len ÷ 2 - 1) ((3 * len) ÷ 4 - 1) len),
          <- (filter_interval ((3 * len) ÷ 4 - 1) len len) by lia.
  unfold class_is, class_rest, quarters_class.
  repeat split; apply filter_ext_in; intros i Hi; apply In_positions in Hi;
    destruct (Z.ltb_spec i (len ÷ 4)); destruct (Z.ltb_spec i (len ÷ 2));
    destruct (Z.ltb_spec i ((3 * len) ÷ 4));
    destruct (Z.leb_spec i (len ÷ 4 - 1)); destruct (Z.leb_spec i (len ÷ 2 - 1));
    destruct (Z.leb_spec i ((3 * len) ÷ 4 - 1)); destruct (Z.leb_spec i len);
    destruct (Z.ltb_spec 0 i); destruct (Z.ltb_spec (len ÷ 4 - 1) i);
    destruct (Z.ltb_spec (len ÷ 2 - 1) i);
    destruct (Z.ltb_spec ((3 * len) ÷ 4 - 1) i);
    simpl; try reflexivity; lia.
Qed.

Lemma positions_empty len : positions len = [] <-> len <= 0.
Proof.
  split.
  - intros E. destruct (Z.le_gt_cases len 0) as [H|H]; [exact H|].
    assert (Hin : In 1 (positions len)) by (apply In_positions; lia).
    rewrite E in Hin. destruct Hin.
  - intros H. unfold positions. replace (Z.to_nat len) with 0%nat by lia.
    reflexivity.
Qed.

(** X14.  What the quartering of a page of [len] tuples, 4 <= len, puts
    where: positions 1 .. len/4 - 1 in NW, up to len/2 - 1 in NE, up to
    3 len/4 - 1 in SW and the rest in SE (the divisions are those of C);
    the loop counts from 1 and compares with [<], so NW is one short of a
    quarter and is empty exactly when len < 8, while the three other
    groups are never empty. *)
Theorem gistSplitQuarters_ranges (v : GIST_SPLITVEC) (len : Z) :
  4 <= len < 65536 ->
  let sv := gistSplitQuarters v len in
  spl_NW sv = positions (len ÷ 4 - 1) /\
  spl_NE sv = between (len ÷ 4 - 1) (len ÷ 2 - 1) /\
  spl_SW sv = between (len ÷ 2 - 1) ((3 * len) ÷ 4 - 1) /\
  spl_SE sv = between ((3 * len) ÷ 4 - 1) len /\
  (spl_NW sv = [] <-> len < 8) /\
  spl_NE sv <> [] /\ spl_SW sv <> [] /\ spl_SE sv <> [].
Proof.
  intros Hlen sv.
  destruct (gistSplitQuarters_groups v len ltac:(lia)) as (E1 & E2 & E3 & E4).
  destruct (quarters_groups_between len ltac:(lia)) as (F1 & F2 & F3 & F4).
  fold sv in E1, E2, E3, E4.
  rewrite E1, E2, E3, E4, F1, F2, F3, F4.
  pose proof (first_mark_positive len ltac:(lia)) as Hq.
  repeat split; try (apply between_nonempty; lia).
  - intros E. apply positions_empty in E. Z.quot_rem_to_equations. lia.
  - intros H. apply positions_empty. Z.quot_rem_to_equations. lia.
Qed.

Lemma gistSplitQuarters_ranges_witness :
  spl_NW (gistSplitQuarters blank_splitvec 9) = [1] /\
  spl_NE (gistSplitQuarters blank_splitvec 9) = [2; 3] /\
  spl_SW (gistSplitQuarters blank_splitvec 9) = [4; 5] /\
  spl_SE (gistSplitQuarters blank_splitvec 9) = [6; 7; 8; 9].
Proof.
  destruct (gistSplitQuarters_ranges blank_splitvec 9 ltac:(lia))
    as (E1 & E2 & E3 & E4 & _).
  rewrite E1, E2, E3, E4. repeat split; reflexivity.
Defined.

(** ** The union keys of the generic split *)

Lemma skipn_cons_nth {A} (l : list A) : forall a e,
  nth_error l a = Some e -> skipn a l = e :: skipn (S a) l.
Proof.
  induction l as [|h l IH]; intros [|a] e H; simpl in H; try discriminate.
  - inversion H. reflexivity.
  - apply (IH a e H).
Qed.

Lemma flat_map_reads {A} (l : list A) cnt : forall a,
  (a + cnt <= length l)%nat ->
  flat_map (fun i => match read l (i - 1) with
                     | Some e => [e]
                     | None => []
                     end) (map Z.of_nat (seq (S a) cnt))
  = firstn cnt (skipn a l).
Proof.
  induction cnt as [|cnt IH]; intros a Ha; [reflexivity|].
  cbn [seq map flat_map].
  destruct (nth_error l a) as [e|] eqn:E.
  2:{ apply nth_error_None in E. lia. }
  unfold read at 1. destruct (Z.ltb_spec (Z.of_nat (S a) - 1) 0); [lia|].
  replace (Z.to_nat (Z.of_nat (S a) - 1)) with a by lia. rewrite E.
  rewrite (skipn_cons_nth l a e E). cbn [firstn app]. f_equal.
  apply IH. lia.
Qed.

Lemma entries_at_between entryvec a b :
  0 <= a <= b -> b <= Z.of_nat (length (vector entryvec)) ->
  entries_at entryvec (between a b)
  = firstn (Z.to_nat b - Z.to_nat a) (skipn (Z.to_nat a) (vector entryvec)).
Proof.
  intros H1 H2. unfold entries_at, between. apply flat_map_reads. lia.
Qed.

Lemma length_between a b : length (between a b) = (Z.to_nat b - Z.to_nat a)%nat.
Proof. unfold between. now rewrite length_map, length_seq. Qed.

(** X15.  The union keys of the generic split belong to its groups: on
    an item array that holds an entry for each of its [N] positions, the
    union method is handed, for every group, exactly the entries at the
    positions of that group, in page order. *)
Theorem genericPickSplit_union_keys giststate entryvec v attno N :
  n entryvec = N + 1 -> 0 <= N < 65535 ->
  Z.of_nat (length (vector entryvec)) = N ->
  exists sv,
    genericPickSplit giststate entryvec v attno = Some sv /\
    spl_NWdatum sv = unionFn giststate attno (entries_at entryvec (spl_NW sv)) /\
    spl_NEdatum sv = unionFn giststate attno (entries_at entryvec (spl_NE sv)) /\
    spl_SWdatum sv = unionFn giststate attno (entries_at entryvec (spl_SW sv)) /\
    spl_SEdatum sv = unionFn giststate attno (entries_at entryvec (spl_SE sv)).
Proof.
  intros Hn HN Hv. unfold genericPickSplit.
  replace (n entryvec - 1) with N by lia.
  rewrite (to_OffsetNumber_small N) by lia.
  destruct (Z.eqb_spec N MaxOffset) as [E|_]; [unfold MaxOffset in E; lia|].
  rewrite generic_fold. cbn [g_NW g_NE g_SW g_SE].
  destruct (generic_groups_between N) as (E1 & E2 & E3 & E4); [lia|].
  rewrite E1, E2, E3, E4. rewrite <- (between_0 (N ÷ 4)).
  pose proof (quarter_marks N ltac:(lia)) as Hq.
  eexists. split; [reflexivity|].
  cbn [spl_NWdatum spl_NEdatum spl_SWdatum spl_SEdatum spl_NW spl_NE spl_SW spl_SE].
  rewrite !entries_at_between by lia. rewrite !length_between.
  repeat split; f_equal; f_equal; try f_equal; lia.
Qed.

Lemma genericPickSplit_union_keys_witness :
  exists sv,
    genericPickSplit (one_column all_in_NW) nine_entries blank_splitvec 0 = Some sv /\
    spl_NWdatum sv = 20 /\ spl_NEdatum sv = 40 /\
    spl_SWdatum sv = 60 /\ spl_SEdatum sv = 90.
Proof.
  destruct (genericPickSplit_union_keys (one_column all_in_NW) nine_entries
              blank_splitvec 0 9 eq_refl ltac:(lia) eq_refl)
    as (sv & E & E1 & E2 & E3 & E4).
  exists sv. split; [exact E|].
  assert (Esv : Some sv = genericPickSplit (one_column all_in_NW) nine_entries
                            blank_splitvec 0) by (symmetry; exact E).
  vm_compute in Esv. injection Esv as ->.
  repeat split; reflexivity.
Defined.

(** ** The union keys of a group *)

(** X16.  The union keys of a group are formed over exactly the tuples of
    the group that carry no don't-care mark, in the order of the group:
    when the positions of the group lie on the page (and within the array
    of marks, if there is one), [gistunionsubkeyvec] hands those tuples to
    [gistMakeUnionItVec], takes the first [natts] slots of the two arrays
    from its answer and leaves the other slots as they were. *)
Theorem gistunionsubkeyvec_unions_unmarked
        (gistMakeUnionItVec : GISTSTATE -> list IndexTuple -> (Z -> Datum) * (Z -> bool))
        giststate itvec entries dontcare attr isnull :
  Forall (fun e => 1 <= e <= Z.of_nat (length itvec)) entries ->
  (forall dc, dontcare = Some dc ->
              Forall (fun e => e < Z.of_nat (length dc)) entries) ->
  let kept := filter (fun e => negb (marked dontcare e)) entries in
  let u := gistMakeUnionItVec giststate (tuples_at itvec kept) in
  exists attr' isnull',
    gistunionsubkeyvec gistMakeUnionItVec giststate itvec entries dontcare attr isnull
    = Some (attr', isnull') /\
    length (tuples_at itvec kept) = length kept /\
    (forall j, 0 <= j < natts giststate ->
               attr' j = fst u j /\ isnull' j = snd u j) /\
    (forall j, ~ 0 <= j < natts giststate ->
               attr' j = attr j /\ isnull' j = isnull j).
Proof.
  intros Hin Hdc kept u.
  assert (Hc : cleaned itvec entries dontcare = Some (tuples_at itvec kept) /\
               length (tuples_at itvec kept) = length kept).
  { subst kept. clear u. induction Hin as [|e entries He _ IH]; [split; reflexivity|].
    assert (Hdc' : forall dc, dontcare = Some dc ->
                              Forall (fun e => e < Z.of_nat (length dc)) entries).
    { intros dc E. specialize (Hdc dc E). now inversion Hdc. }
    destruct (IH Hdc') as [IH1 IH2]. clear IH.
    assert (Hm : match dontcare with
                 | Some dc => read dc e
                 | None => Some false
                 end = Some (marked dontcare e)).
    { unfold marked. destruct dontcare as [dc|]; [|reflexivity].
      specialize (Hdc dc eq_refl). inversion Hdc as [|? ? Hlt _]. subst.
      unfold read. destruct (Z.ltb_spec e 0); [lia|].
      destruct (nth_error dc (Z.to_nat e)) eqn:E; [reflexivity|].
      apply nth_error_None in E. lia. }
    cbn [cleaned filter]. rewrite Hm. cbn [obind].
    destruct (marked dontcare e); cbn [negb]; [split; assumption|].
    destruct (read itvec (e - 1)) as [tup|] eqn:Er.
    2:{ unfold read in Er. destruct (Z.ltb_spec (e - 1) 0); [lia|].
        apply nth_error_None in Er. lia. }
    cbn [obind]. rewrite IH1. cbn [obind tuples_at flat_map].
    rewrite Er. cbn [app length]. split; [reflexivity|].
    f_equal. exact IH2. }
  destruct Hc as [Hc Hl]. unfold gistunionsubkeyvec. rewrite Hc. cbn [obind].
  eexists. eexists. split; [reflexivity|]. split; [exact Hl|]. fold u. split.
  - intros j Hj. destruct (Z.leb_spec 0 j); [|lia].
    destruct (Z.ltb_spec j (natts giststate)); [|lia]. split; reflexivity.
  - intros j Hj.
    destruct (Z.leb_spec 0 j); destruct (Z.ltb_spec j (natts giststate));
      simpl; try (split; reflexivity). lia.
Qed.

Lemma gistunionsubkeyvec_unions_unmarked_witness :
  exists attr' isnull',
    gistunionsubkeyvec plain_gistMakeUnionItVec (one_column all_in_NW) six_keys
      [2; 5; 6] (Some [false; false; false; false; false; true; false])
      (fun _ => 0) (fun _ => true)
    = Some (attr', isnull') /\
    attr' 0 = 60 /\ isnull' 0 = false /\ attr' 1 = 0 /\ isnull' 1 = true.
Proof.
  destruct (gistunionsubkeyvec_unions_unmarked plain_gistMakeUnionItVec
              (one_column all_in_NW) six_keys [2; 5; 6]
              (Some [false; false; false; false; false; true; false])
              (fun _ => 0) (fun _ => true))
    as (attr' & isnull' & E & _ & Hin & Hout).
  { repeat constructor; simpl; lia. }
  { intros dc Hdc. injection Hdc as <-. repeat constructor; simpl; lia. }
  exists attr', isnull'. split; [exact E|].
  destruct (Hin 0 ltac:(simpl; lia)) as [-> ->].
  destruct (Hout 1 ltac:(simpl; lia)) as [-> ->].
  repeat split; reflexivity.
Defined.

(** ** Removing don't-care tuples *)

Lemma remove_loop_app dontcare l1 : forall l2 st,
  remove_loop dontcare (l1 ++ l2) st
  = obind (remove_loop dontcare l1 st) (remove_loop dontcare l2).
Proof.
  induction l1 as [|i l1 IH]; intros l2 st; [reflexivity|].
  cbn [app remove_loop]. destruct (remove_step dontcare st i) as [st'|];
    [apply IH | reflexivity].
Qed.

Lemma firstn_snoc_nth {A} (l : list A) : forall k e,
  nth_error l k = Some e -> firstn (S k) l = firstn k l ++ [e].
Proof.
  induction l as [|h l IH]; intros [|k] e H; simpl in H; try discriminate.
  - inversion H. reflexivity.
  - cbn [firstn app]. f_equal. apply (IH k e H).
Qed.

Lemma nth_error_skipn {A} (l : list A) : forall w k,
  nth_error (skipn w l) k = nth_error l (w + k).
Proof.
  induction l as [|h l IH]; intros [|w] k; try reflexivity.
  - now destruct k.
  - apply IH.
Qed.

Lemma skipn_S_eq {A} (l l' : list A) w :
  skipn w l = skipn w l' -> skipn (S w) l = skipn (S w) l'.
Proof.
  intros H. rewrite <- (Nat.add_1_l w), <- !skipn_skipn. now rewrite H.
Qed.

(** The loop invariant: after the first [k] elements have been read, the
    array starts with the unmarked ones among them and is unchanged from
    the write position on. *)
Lemma remove_loop_invariant (a : list OffsetNumber) len dontcare :
  0 <= len <= Z.of_nat (length a) ->
  Forall (fun e => 0 <= e < Z.of_nat (length dontcare)) (firstn (Z.to_nat len) a) ->
  forall k, (k <= Z.to_nat len)%nat ->
  exists a' w,
    remove_loop dontcare (map Z.of_nat (seq 0 k)) (a, 0, len)
    = Some (a', Z.of_nat w, len - (Z.of_nat k - Z.of_nat w)) /\
    (w <= k)%nat /\
    firstn w a' = unmarked_of a (Z.of_nat k) dontcare /\
    skipn w a' = skipn w a /\
    length a' = length a.
Proof.
  intros Hlen Hdc. induction k as [|k IH]; intros Hk.
  - exists a, 0%nat. simpl. rewrite Z.sub_0_r. repeat split; auto.
  - destruct (IH ltac:(lia)) as (a' & w & E & Hw & Hf & Hs & Hl). clear IH.
    rewrite seq_S, map_app, remove_loop_app, E. cbn [obind map remove_loop plus].
    unfold remove_step. cbn [fst snd].
    (* the element read is the one the array held at the start *)
    destruct (nth_error a k) as [ai|] eqn:Ea.
    2:{ apply nth_error_None in Ea. lia. }
    assert (Er : read a' (Z.of_nat k) = Some ai).
    { unfold read. destruct (Z.ltb_spec (Z.of_nat k) 0); [lia|].
      rewrite Nat2Z.id. replace k with (w + (k - w))%nat by lia.
      rewrite <- nth_error_skipn, Hs, nth_error_skipn.
      replace (w + (k - w))%nat with k by lia. exact Ea. }
    rewrite Er. cbn [obind].
    assert (Hai : 0 <= ai < Z.of_nat (length dontcare)).
    { rewrite Forall_forall in Hdc. apply Hdc.
      apply (nth_error_In _ k). rewrite nth_error_firstn.
      destruct (Nat.ltb_spec k (Z.to_nat len)); [exact Ea | lia]. }
    destruct (nth_error dontcare (Z.to_nat ai)) as [mark|] eqn:Em.
    2:{ apply nth_error_None in Em. lia. }
    assert (Erd : read dontcare ai = Some mark).
    { unfold read. destruct (Z.ltb_spec ai 0); [lia | exact Em]. }
    rewrite Erd. cbn [obind].
    assert (Hu : unmarked_of a (Z.of_nat (S k)) dontcare
                 = unmarked_of a (Z.of_nat k) dontcare
                   ++ (if negb mark then [ai] else [])).
    { unfold unmarked_of. rewrite !Nat2Z.id.
      rewrite (firstn_snoc_nth a k ai Ea), filter_app. f_equal.
      cbn [filter]. unfold marked. rewrite Erd. destruct (negb mark); reflexivity. }
    rewrite Hu. destruct (negb mark).
    + unfold write. rewrite Nat2Z.id.
      destruct (Z.leb_spec 0 (Z.of_nat w)); [|lia].
      destruct (Z.ltb_spec (Z.of_nat w) (Z.of_nat (length a'))); [|lia].
      cbn [andb obind].
      exists (firstn w a' ++ ai :: skipn (S w) a'), (S w).
      assert (Hfl : length (firstn w a') = w) by (rewrite length_firstn; lia).
      split; [f_equal; f_equal; [f_equal|]; lia|].
      split; [lia|]. split; [|split].
      * replace (S w) with (length (firstn w a') + 1)%nat by lia.
        rewrite firstn_app_2. cbn [firstn]. now rewrite Hf.
      * replace (S w) with (length (firstn w a') + 1)%nat at 1 by lia.
        rewrite skipn_app, skipn_all2 by lia.
        replace (length (firstn w a') + 1 - length (firstn w a'))%nat with 1%nat by lia.
        cbn [app skipn]. apply skipn_S_eq, Hs.
      * rewrite length_app. cbn [length]. rewrite Hfl, length_skipn. lia.
    + exists a', w. cbn [obind remove_loop]. split.
      { replace (len - (Z.of_nat (S k) - Z.of_nat w))
          with (len - (Z.of_nat k - Z.of_nat w) - 1) by lia. reflexivity. }
      split; [lia|]. rewrite app_nil_r. repeat split; assumption.
Qed.

(** X17.  [removeDontCares] compacts a group in place.  For an array [a]
    of at least [len] elements whose first [len] elements index the array
    of marks, the call ends with: the unmarked ones of those elements, in
    their order, at the front of the array; the new length their number;
    the rest of the array, from the new length on, as it was; and the
    array no longer or shorter. *)
Theorem removeDontCares_compacts (a : list OffsetNumber) (len : Z) (dontcare : list bool) :
  0 <= len <= Z.of_nat (length a) ->
  Forall (fun e => 0 <= e < Z.of_nat (length dontcare)) (firstn (Z.to_nat len) a) ->
  exists a' newlen,
    removeDontCares a len dontcare = Some (a', newlen) /\
    newlen = Z.of_nat (length (unmarked_of a len dontcare)) /\
    firstn (Z.to_nat newlen) a' = unmarked_of a len dontcare /\
    skipn (Z.to_nat newlen) a' = skipn (Z.to_nat newlen) a /\
    length a' = length a.
Proof.
  intros Hlen Hdc.
  destruct (remove_loop_invariant a len dontcare Hlen Hdc (Z.to_nat len) (le_n _))
    as (a' & w & E & Hw & Hf & Hs & Hl).
  rewrite Z2Nat.id in E, Hf by lia.
  unfold removeDontCares. rewrite E. cbn [obind fst snd].
  exists a', (Z.of_nat w).
  replace (len - (len - Z.of_nat w)) with (Z.of_nat w) by lia.
  rewrite Nat2Z.id. split; [reflexivity|].
  split; [|repeat split; assumption].
  rewrite <- Hf, length_firstn. lia.
Qed.

Lemma removeDontCares_compacts_witness :
  exists a' newlen,
    removeDontCares [1; 3; 4; 6; 0; 0] 4
      [false; false; false; true; false; false; true] = Some (a', newlen) /\
    newlen = 2 /\ firstn 2 a' = [1; 4] /\ skipn 2 a' = [4; 6; 0; 0].
Proof.
  destruct (removeDontCares_compacts [1; 3; 4; 6; 0; 0] 4
              [false; false; false; true; false; false; true])
    as (a' & newlen & E & En & Ef & Es & _).
  { simpl. lia. }
  { repeat constructor; simpl; lia. }
  exists a', newlen. split; [exact E|].
  assert (En' : newlen = 2) by (rewrite En; reflexivity).
  subst newlen. split; [reflexivity|]. split; [exact Ef | exact Es].
Defined.

(** ** The entry point: where union keys are computed *)

Lemma gistunionsubkey_trace
      (gistMakeUnionItVec : GISTSTATE -> list IndexTuple -> (Z -> Datum) * (Z -> bool))
      site giststate itup spl t spl' t' :
  gistunionsubkey gistMakeUnionItVec site giststate itup spl t = Some (spl', t') ->
  t' = t ++ [gistunionsubkey_called site] /\ splitVector spl' = splitVector spl.
Proof.
  unfold gistunionsubkey, mbind, emit, lift, ret.
  repeat match goal with
         | |- context [gistunionsubkeyvec ?a ?b ?c ?d ?e ?f ?g] =>
             destruct (gistunionsubkeyvec a b c d e f g); [|discriminate]
         end.
  intros H. inversion H. split; reflexivity.
Qed.

Lemma gistUserPicksplit_trace entryvec attno v itup giststate t r t' :
  gistUserPicksplit entryvec attno v itup giststate t = Some (r, t') ->
  t' = t /\ fst r = false.
Proof.
  unfold gistUserPicksplit, mbind, lift, ret.
  destruct (degenerate _).
  - destruct (genericPickSplit _ _ _ _); [|discriminate].
    intros H. inversion H. split; reflexivity.
  - intros H. inversion H. split; reflexivity.
Qed.

Section EntryPoint.

Variable gistdentryinit : GISTSTATE -> Z -> Datum -> OffsetNumber -> bool -> bool -> GISTENTRY.
Variable gistMakeUnionItVec : GISTSTATE -> list IndexTuple -> (Z -> Datum) * (Z -> bool).

Lemma gistSplitByKey_calls giststate itup fuel : forall v attno t v' t',
  0 <= attno ->
  gistSplitByKey gistdentryinit gistMakeUnionItVec fuel itup giststate v attno t
    = Some (v', t') ->
  t' = t ++ union_calls giststate itup attno.
Proof.
  induction fuel as [|fuel IH]; intros v attno t v' t' Ha H; [discriminate H|].
  cbn [gistSplitByKey] in H. unfold mbind at 1 in H.
  match type of H with
  | match ?m with _ => _ end = _ => destruct m as [[v1 t1]|] eqn:EX; [|discriminate]
  end.
  set (nOff := Z.of_nat (length (null_offsets attno itup))) in *.
  set (len := Z.of_nat (length itup)) in *.
  (* the calls made while the column is split *)
  assert (Ht1 : t1 = t ++ (if (attno =? 0) && (natts giststate =? 1)
                              && negb (nOff =? len) && (nOff >? 0)
                           then [gistunionsubkey_called in_null_branch] else [])).
  { destruct (nOff =? len) eqn:E1.
    - rewrite andb_false_r, app_nil_r. cbn [negb andb].
      destruct (attno + 1 <? natts giststate).
      + apply IH in EX; [|lia]. unfold union_calls in EX.
        destruct (Z.eqb_spec (attno + 1) 0); [lia|]. cbn [negb] in EX.
        now rewrite app_nil_r in EX.
      + inversion EX. reflexivity.
    - cbn [negb]. rewrite andb_true_r. destruct (nOff >? 0) eqn:E2.
      + rewrite andb_true_r. unfold split_nulls in EX.
        destruct ((attno =? 0) && (natts giststate =? 1)).
        * apply gistunionsubkey_trace in EX. apply EX.
        * inversion EX. now rewrite app_nil_r.
      + rewrite andb_false_r, app_nil_r. unfold mbind in EX.
        match type of EX with
        | match ?m with _ => _ end = _ =>
            destruct m as [[r t2]|] eqn:EP; [|discriminate]
        end.
        apply gistUserPicksplit_trace in EP. destruct EP as [-> Hr].
        rewrite Hr in EX. inversion EX. reflexivity. }
  (* the call at the end *)
  subst t1. unfold union_calls. fold nOff len.
  destruct (Z.eqb_spec attno 0) as [E0|E0]; cbn [negb andb] in H |- *.
  - destruct (natts giststate >? 1) eqn:E4.
    + apply gistunionsubkey_trace in H. destruct H as [-> _].
      destruct (Z.eqb_spec (natts giststate) 1) as [E1|_];
        [apply Z.gtb_lt in E4; lia|].
      cbn [andb]. now rewrite app_nil_r.
    + inversion H. reflexivity.
  - inversion H. reflexivity.
Qed.

(** X18.  Union keys are computed at most once per split, and only by
    the call for the first column.  Whenever the entry point returns, the
    calls of [gistunionsubkey] it has made are: none, when it works on a
    later column; for the first column of an index of several columns the
    one at the end of the function; for an index of one column the one in
    the branch for some null keys, if that branch is taken, and none
    otherwise (the union keys are then those of the picksplit method, or
    the null flags). *)
Theorem union_keys_computed_at_most_once giststate itup fuel v attno t v' t' :
  0 <= attno ->
  gistSplitByKey gistdentryinit gistMakeUnionItVec fuel itup giststate v attno t
    = Some (v', t') ->
  t' = t ++ union_calls giststate itup attno /\
  (length (union_calls giststate itup attno) <= 1)%nat /\
  (0 < attno -> t' = t) /\
  (In (gistunionsubkey_called in_null_branch) (union_calls giststate itup attno) ->
   attno = 0 /\ natts giststate = 1 /\
   null_offsets attno itup <> [] /\
   length (null_offsets attno itup) <> length itup).
Proof.
  intros Ha H. pose proof (gistSplitByKey_calls _ _ _ _ _ _ _ _ Ha H) as Ht.
  split; [exact Ht|]. unfold union_calls in *.
  destruct (Z.eqb_spec attno 0) as [E0|E0]; cbn [negb] in *.
  - destruct (natts giststate >? 1).
    + split; [simpl; lia|]. split; [lia|].
      intros [Hin|[]]. discriminate Hin.
    + destruct (Z.eqb_spec (natts giststate) 1) as [E1|E1]; cbn [andb] in *.
      * destruct (Z.eqb_spec (Z.of_nat (length (null_offsets attno itup)))
                    (Z.of_nat (length itup))) as [E2|E2]; cbn [negb andb] in *.
        { split; [simpl; lia|]. split; [lia|]. intros []. }
        destruct (Z.gtb_spec (Z.of_nat (length (null_offsets attno itup))) 0)
          as [E3|E3].
        { split; [simpl; lia|]. split; [lia|]. intros _.
          repeat split; try assumption; try lia.
          intros E. rewrite E in E3. simpl in E3. lia. }
        split; [simpl; lia|]. split; [lia|]. intros [].
      * split; [simpl; lia|]. split; [lia|]. intros [].
  - split; [simpl; lia|]. split; [intros _; now rewrite app_nil_r in Ht|].
    intros [].
Qed.

End EntryPoint.

Lemma union_keys_computed_at_most_once_witness :
  exists v',
    gistSplitByKey plain_gistdentryinit plain_gistMakeUnionItVec 1 keys_and_nulls
      (one_column deal_in_turn) blank_vector 0 []
    = Some (v', [gistunionsubkey_called in_null_branch]).
Proof.
  destruct (gistSplitByKey plain_gistdentryinit plain_gistMakeUnionItVec 1
              keys_and_nulls (one_column deal_in_turn) blank_vector 0 [])
    as [[v' t']|] eqn:E; [|vm_compute in E; discriminate E].
  exists v'.
  destruct (union_keys_computed_at_most_once plain_gistdentryinit
              plain_gistMakeUnionItVec (one_column deal_in_turn) keys_and_nulls 1%nat
              blank_vector 0 [] v' t' ltac:(lia) E) as [-> _].
  reflexivity.
Defined.

(** ** The entry point on a page without keys *)

Lemma null_offsets_all attno itup :
  Z.of_nat (length itup) < 65536 ->
  Forall (fun tup => is_null attno tup = true) itup ->
  length (null_offsets attno itup) = length itup.
Proof.
  intros Hlen Hall. rewrite (null_offsets_entries attno itup Hlen).
  unfold entries_where. rewrite length_map, filter_all.
  - rewrite length_combine, length_positions. lia.
  - apply Forall_forall. intros [tup i] Hin. apply in_combine_l in Hin.
    rewrite Forall_forall in Hall. apply (Hall tup Hin).
Qed.

Lemma mark_null_columns_splitVector k : forall attno v,
  splitVector (mark_null_columns k attno v) = splitVector v.
Proof.
  induction k as [|k IH]; intros attno v; [reflexivity|].
  cbn [mark_null_columns]. now rewrite IH.
Qed.

Lemma mark_null_columns_dontcare k : forall attno v,
  spl_dontcare (mark_null_columns k attno v) = spl_dontcare v.
Proof.
  induction k as [|k IH]; intros attno v; [reflexivity|].
  cbn [mark_null_columns]. now rewrite IH.
Qed.

Lemma mark_null_columns_flags k : forall attno v a,
  let marked_here := (attno <=? a) && (a <? attno + Z.of_nat k) in
  spl_NWisnull (mark_null_columns k attno v) a
    = (if marked_here then true else spl_NWisnull v a) /\
  spl_NEisnull (mark_null_columns k attno v) a
    = (if marked_here then true else spl_NEisnull v a) /\
  spl_SWisnull (mark_null_columns k attno v) a
    = (if marked_here then true else spl_SWisnull v a) /\
  spl_SEisnull (mark_null_columns k attno v) a
    = (if marked_here then true else spl_SEisnull v a).
Proof.
  induction k as [|k IH]; intros attno v a.
  - cbn [mark_null_columns]. rewrite Z.add_0_r.
    destruct (Z.leb_spec attno a); destruct (Z.ltb_spec a attno); cbn [andb];
      try lia; repeat split; reflexivity.
  - cbn [mark_null_columns].
    destruct (IH (attno + 1) (set_all_isnull v attno true) a) as (H1 & H2 & H3 & H4).
    rewrite H1, H2, H3, H4. clear IH H1 H2 H3 H4.
    cbn [set_all_isnull spl_NWisnull spl_NEisnull spl_SWisnull spl_SEisnull].
    unfold store.
    destruct (Z.leb_spec (attno + 1) a); destruct (Z.ltb_spec a (attno + 1 + Z.of_nat k));
      destruct (Z.leb_spec attno a); destruct (Z.ltb_spec a (attno + Z.of_nat (S k)));
      destruct (Z.eqb_spec a attno); cbn [andb]; try lia; repeat split; reflexivity.
Qed.

Section PageWithoutKeys.

Variable gistdentryinit : GISTSTATE -> Z -> Datum -> OffsetNumber -> bool -> bool -> GISTENTRY.
Variable gistMakeUnionItVec : GISTSTATE -> list IndexTuple -> (Z -> Datum) * (Z -> bool).

(** Below the top level, and in an index of one column, the columns are
    marked null one after the other and the page is then quartered. *)
Lemma gistSplitByKey_all_null giststate itup :
  Z.of_nat (length itup) < 65536 ->
  forall fuel v attno t,
    0 <= attno < natts giststate ->
    0 < attno \/ natts giststate = 1 ->
    (forall a, attno <= a < natts giststate ->
               Forall (fun tup => is_null a tup = true) itup) ->
    (Z.to_nat (natts giststate - attno) <= fuel)%nat ->
    gistSplitByKey gistdentryinit gistMakeUnionItVec fuel itup giststate v attno t
    = Some (set_splitVector
              (mark_null_columns (Z.to_nat (natts giststate - attno)) attno v)
              (gistSplitQuarters (splitVector v) (Z.of_nat (length itup))),
            t).
Proof.
  intros Hlen. induction fuel as [|fuel IH]; intros v attno t Ha Hin Hall Hfuel; [lia|].
  cbn [gistSplitByKey]. unfold mbind at 1.
  rewrite (null_offsets_all attno itup Hlen (Hall attno ltac:(lia))).
  rewrite Z.eqb_refl.
  replace (Z.to_nat (natts giststate - attno))
    with (S (Z.to_nat (natts giststate - (attno + 1)))) by lia.
  cbn [mark_null_columns].
  assert (Hend : (attno =? 0) && (natts giststate >? 1) = false).
  { destruct (Z.eqb_spec attno 0); [|reflexivity].
    destruct (Z.gtb_spec (natts giststate) 1); [lia | reflexivity]. }
  destruct (Z.ltb_spec (attno + 1) (natts giststate)) as [Hnext|Hlast].
  - rewrite (IH (set_all_isnull v attno true) (attno + 1) t); try lia.
    + rewrite Hend. reflexivity.
    + intros a Hr. apply Hall. lia.
  - rewrite Hend. replace (Z.to_nat (natts giststate - (attno + 1))) with 0%nat by lia.
    reflexivity.
Qed.

(** X19.  A page on which the columns from [attno] on hold no key at all.
    With fuel for the remaining columns the entry point returns; it has
    passed from column to column down to the last one and quartered the
    page there, so the four groups are those of [gistSplitQuarters]; it
    has called [gistunionsubkey] only as the top-level call of an index
    of several columns; and where it has not, the null flags of the four
    union keys are set for every column from [attno] on and the flags of
    the columns before are left as they were. *)
Theorem page_without_keys_is_quartered giststate itup fuel v attno t :
  Z.of_nat (length itup) < 65536 ->
  0 <= attno < natts giststate ->
  (forall a, attno <= a < natts giststate ->
             Forall (fun tup => is_null a tup = true) itup) ->
  (Z.to_nat (natts giststate - attno) <= fuel)%nat ->
  exists v',
    gistSplitByKey gistdentryinit gistMakeUnionItVec fuel itup giststate v attno t
    = Some (v', t ++ (if (attno =? 0) && (natts giststate >? 1)
                      then [gistunionsubkey_called at_end_of_split] else [])) /\
    splitVector v' = gistSplitQuarters (splitVector v) (Z.of_nat (length itup)) /\
    (0 < attno \/ natts giststate = 1 ->
     forall a,
       let flag (old : bool) := if (attno <=? a) && (a <? natts giststate)
                                then true else old in
       spl_NWisnull v' a = flag (spl_NWisnull v a) /\
       spl_NEisnull v' a = flag (spl_NEisnull v a) /\
       spl_SWisnull v' a = flag (spl_SWisnull v a) /\
       spl_SEisnull v' a = flag (spl_SEisnull v a)).
Proof.
  intros Hlen Ha Hall Hfuel.
  destruct (Z.eqb_spec attno 0) as [E0|E0]; cbn [andb].
  2:{ (* a later column *)
    rewrite (gistSplitByKey_all_null giststate itup Hlen fuel v attno t Ha
               ltac:(lia) Hall Hfuel).
    rewrite app_nil_r. eexists. split; [reflexivity|]. split; [reflexivity|].
    intros _ a. cbv zeta. cbn [set_splitVector spl_NWisnull spl_NEisnull
                                       spl_SWisnull spl_SEisnull].
    pose proof (mark_null_columns_flags (Z.to_nat (natts giststate - attno)) attno v a)
      as H. cbv zeta in H.
    replace (attno + Z.of_nat (Z.to_nat (natts giststate - attno)))
      with (natts giststate) in H by lia.
    exact H. }
  subst attno. destruct (Z.gtb_spec (natts giststate) 1) as [Hm|Hs].
  - (* the first column of several *)
    destruct fuel as [|fuel]; [lia|].
    cbn [gistSplitByKey]. unfold mbind at 1.
    rewrite (null_offsets_all 0 itup Hlen (Hall 0 ltac:(lia))).
    rewrite Z.eqb_refl.
    destruct (Z.ltb_spec (0 + 1) (natts giststate)) as [_|Hc]; [|lia].
    rewrite (gistSplitByKey_all_null giststate itup Hlen fuel
               (set_all_isnull v 0 true) (0 + 1) t); try lia.
    2:{ intros a Hr. apply Hall. lia. }
    destruct (Z.gtb_spec (natts giststate) 1) as [_|Hc]; [|lia]. cbn [Z.eqb andb].
    match goal with
    | |- context [gistunionsubkey _ ?site _ _ ?spl t] =>
        destruct (gistunionsubkey_complete gistMakeUnionItVec site giststate itup spl t)
          as (spl' & Espl & Esv)
    end.
    { reflexivity. }
    { cbn [set_dontcare set_splitVector splitVector].
      apply gistSplitQuarters_complete. exact Hlen. }
    exists spl'. split; [exact Espl|]. split; [exact Esv|]. intros [H|H]; lia.
  - (* the only column *)
    assert (E1 : natts giststate = 1) by lia.
    rewrite (gistSplitByKey_all_null giststate itup Hlen fuel v 0 t Ha
               ltac:(lia) Hall Hfuel).
    rewrite app_nil_r. eexists. split; [reflexivity|]. split; [reflexivity|].
    intros _ a. cbv zeta. cbn [set_splitVector spl_NWisnull spl_NEisnull
                                       spl_SWisnull spl_SEisnull].
    pose proof (mark_null_columns_flags (Z.to_nat (natts giststate - 0)) 0 v a)
      as H. cbv zeta in H.
    replace (0 + Z.of_nat (Z.to_nat (natts giststate - 0)))
      with (natts giststate) in H by lia.
    exact H.
Qed.

End PageWithoutKeys.

Lemma page_without_keys_is_quartered_witness :
  exists v',
    gistSplitByKey plain_gistdentryinit plain_gistMakeUnionItVec 2 null_page
      (two_columns deal_in_turn) blank_vector 0 []
    = Some (v', [gistunionsubkey_called at_end_of_split]) /\
    spl_NW (splitVector v') = [1] /\ spl_NE (splitVector v') = [2; 3] /\
    spl_SW (splitVector v') = [4; 5] /\ spl_SE (splitVector v') = [6; 7; 8; 9].
Proof.
  destruct (page_without_keys_is_quartered plain_gistdentryinit
              plain_gistMakeUnionItVec (two_columns deal_in_turn) null_page 2
              blank_vector 0 []) as (v' & E & Esv & _).
  { simpl. lia. }
  { simpl. lia. }
  { intros a Ha. simpl in Ha. assert (Hc : a = 0 \/ a = 1) by lia.
    destruct Hc as [-> | ->]; repeat constructor. }
  { simpl. lia. }
  exists v'. split; [exact E|]. rewrite Esv. repeat split; reflexivity.
Defined.

(** ** The entry point on a column without nulls *)

Lemma null_offsets_none attno itup :
  Forall (fun tup => is_null attno tup = false) itup ->
  null_offsets attno itup = [].
Proof.
  intros Hall. unfold null_offsets. rewrite filter_none; [reflexivity|].
  apply Forall_forall. intros [tup i] Hin. apply in_combine_l in Hin.
  rewrite Forall_forall in Hall. apply (Hall tup Hin).
Qed.

Section ColumnWithoutNulls.

Variable gistdentryinit : GISTSTATE -> Z -> Datum -> OffsetNumber -> bool -> bool -> GISTENTRY.
Variable gistMakeUnionItVec : GISTSTATE -> list IndexTuple -> (Z -> Datum) * (Z -> bool).

Lemma make_entryvec_same giststate attno itup itup' :
  Forall2 (same_key attno) itup itup' ->
  make_entryvec gistdentryinit giststate attno itup
  = make_entryvec gistdentryinit giststate attno itup'.
Proof.
  intros H. unfold make_entryvec. rewrite (Forall2_length H). f_equal.
  generalize (positions (Z.of_nat (length itup'))).
  induction H as [|tup tup' itup itup' Hk _ IH]; intros ps; [reflexivity|].
  destruct ps as [|i ps]; [reflexivity|]. cbn [combine map fst snd]. f_equal.
  - unfold make_entry. unfold same_key in Hk. now rewrite Hk.
  - apply IH.
Qed.

Lemma gistUserPicksplit_any_trace entryvec attno v itup itup' giststate t t0 r t' :
  gistUserPicksplit entryvec attno v itup giststate t = Some (r, t') ->
  gistUserPicksplit entryvec attno v itup' giststate t0 = Some (r, t0).
Proof.
  unfold gistUserPicksplit, mbind, lift, ret.
  destruct (degenerate _).
  - destruct (genericPickSplit _ _ _ _); [|discriminate].
    intros H. inversion H. reflexivity.
  - intros H. inversion H. reflexivity.
Qed.

(** On a column without nulls the groups are those of the picksplit step
    on that column. *)
Lemma gistSplitByKey_no_nulls giststate itup fuel v attno t v1 t1 :
  Forall (fun tup => is_null attno tup = false) itup -> itup <> [] ->
  gistSplitByKey gistdentryinit gistMakeUnionItVec (S fuel) itup giststate v attno t
    = Some (v1, t1) ->
  exists vp,
    gistUserPicksplit (make_entryvec gistdentryinit giststate attno itup) attno v
      itup giststate t = Some ((false, vp), t) /\
    splitVector v1 = splitVector vp.
Proof.
  intros Hall Hne H. cbn [gistSplitByKey] in H.
  rewrite (null_offsets_none attno itup Hall) in H. cbn [length] in H.
  destruct (Z.eqb_spec (Z.of_nat 0) (Z.of_nat (length itup))) as [E|_].
  { destruct itup; [congruence | simpl in E; lia]. }
  change (Z.of_nat 0 >? 0) with false in H. unfold mbind at 1 2 in H.
  destruct (gistUserPicksplit _ attno v itup giststate t) as [[[b vp] t2]|] eqn:EP;
    [|discriminate].
  destruct (gistUserPicksplit_trace _ _ _ _ _ _ _ _ EP) as [-> Hb].
  cbn [fst] in Hb. subst b. cbn [fst snd ret] in H.
  exists vp. split; [reflexivity|].
  destruct ((attno =? 0) && (natts giststate >? 1)).
  - apply gistunionsubkey_trace in H. destruct H as [_ H]. exact H.
  - inversion H. reflexivity.
Qed.

(** X20.  No secondary split: on a column without nulls the later
    columns have no say in the grouping.  Two pages whose tuples agree,
    position by position, on column [attno], and hold a key there, are
    split into the same four groups with the same union keys of that
    column in the split vector, whatever the other columns hold and
    however much fuel is given. *)
Theorem later_columns_are_not_consulted giststate itup itup' fuel fuel' v attno
        t t0 v1 t1 v2 t2 :
  Forall2 (same_key attno) itup itup' ->
  Forall (fun tup => is_null attno tup = false) itup -> itup <> [] ->
  gistSplitByKey gistdentryinit gistMakeUnionItVec (S fuel) itup giststate v attno t
    = Some (v1, t1) ->
  gistSplitByKey gistdentryinit gistMakeUnionItVec (S fuel') itup' giststate v attno t0
    = Some (v2, t2) ->
  splitVector v1 = splitVector v2.
Proof.
  intros Hsame Hall Hne H1 H2.
  assert (Hall' : Forall (fun tup => is_null attno tup = false) itup').
  { clear H1 H2 Hne. induction Hsame as [|tup tup' itup itup' Hk _ IH];
      [constructor|].
    inversion Hall as [|? ? Hn Hrest]. subst. constructor; [|apply IH, Hrest].
    unfold is_null in *. unfold same_key in Hk. now rewrite <- Hk. }
  assert (Hne' : itup' <> []).
  { intros E. subst itup'. inversion Hsame. congruence. }
  destruct (gistSplitByKey_no_nulls _ _ _ _ _ _ _ _ Hall Hne H1) as (vp & E1 & ->).
  destruct (gistSplitByKey_no_nulls _ _ _ _ _ _ _ _ Hall' Hne' H2) as (vp' & E2 & ->).
  rewrite (make_entryvec_same giststate attno itup itup' Hsame) in E1.
  rewrite (gistUserPicksplit_any_trace _ _ _ _ itup' _ _ t0 _ _ E1) in E2.
  inversion E2. reflexivity.
Qed.

End ColumnWithoutNulls.

Lemma later_columns_are_not_consulted_witness :
  exists v1 t1 v2 t2,
    gistSplitByKey plain_gistdentryinit plain_gistMakeUnionItVec 1 four_pairs
      (two_columns deal_in_turn) blank_vector 0 [] = Some (v1, t1) /\
    gistSplitByKey plain_gistdentryinit plain_gistMakeUnionItVec 1 four_other_pairs
      (two_columns deal_in_turn) blank_vector 0 [] = Some (v2, t2) /\
    splitVector v1 = splitVector v2.
Proof.
  destruct (gistSplitByKey plain_gistdentryinit plain_gistMakeUnionItVec 1 four_pairs
              (two_columns deal_in_turn) blank_vector 0 [])
    as [[v1 t1]|] eqn:E1; [|vm_compute in E1; discriminate E1].
  destruct (gistSplitByKey plain_gistdentryinit plain_gistMakeUnionItVec 1
              four_other_pairs (two_columns deal_in_turn) blank_vector 0 [])
    as [[v2 t2]|] eqn:E2; [|vm_compute in E2; discriminate E2].
  exists v1, t1, v2, t2. split; [reflexivity|]. split; [reflexivity|].
  apply (later_columns_are_not_consulted plain_gistdentryinit plain_gistMakeUnionItVec
           (two_columns deal_in_turn) four_pairs four_other_pairs 0%nat 0%nat
           blank_vector 0 [] [] v1 t1 v2 t2).
  - repeat constructor.
  - repeat constructor.
  - discriminate.
  - exact E1.
  - exact E2.
Defined.

End GistSplitFacts.
